(** * cli_messanger: the sync client and the render buffer of the chat view

    A shallow embedding of [cli-client/views/chat_view.go] (the render model
    of [ChatView]) and of [cli-client/controllers/network_client.go] (the
    long-poll client [NetworkClient]), followed by the properties of the
    specification that concern them.

    Go strings are byte sequences: they are modelled by [string], whose
    characters are the 256 byte values.  Go's [int] and [time.Duration] are
    64-bit two's complement integers: they are modelled by [Z] with the
    wrap-around of [+] and [*] written out ([Go.wrapInt]). *)

From Stdlib Require Import ZArith Lia String Ascii List Bool.
From stdpp Require Import base tactics option list sorting gmap sets strings pretty.

Set Warnings "-clear-no-such-hyp,-register-all".

Open Scope Z_scope.

(** ** Go primitives used by both packages *)

Module Go.

(** [int] and [int64] on the 64-bit targets the client is built for. *)
Definition intSize : Z := 64.
Definition maxInt : Z := 2 ^ (intSize - 1) - 1.
Definition minInt : Z := - 2 ^ (intSize - 1).

(** The value a 64-bit signed register holds after an exact result [z]. *)
Definition wrapInt (z : Z) : Z :=
  (z + 2 ^ (intSize - 1)) mod 2 ^ intSize - 2 ^ (intSize - 1).

(** The line feed, written ["\n"] in the Go sources. *)
Definition nl : string := String "010"%char EmptyString.

(** [len(s)] *)
Definition len (s : string) : nat := String.length s.

(** [strings.HasPrefix(s, prefix)] *)
Definition HasPrefix (s prefix : string) : bool := String.prefix prefix s.

(** Does byte [c] occur in [chars]? *)
Fixpoint hasByte (c : ascii) (chars : string) : bool :=
  match chars with
  | EmptyString => false
  | String d rest => if decide (c = d) then true else hasByte c rest
  end.

(** [strings.ContainsAny(s, chars)] for a [chars] made of ASCII characters
    only: a multi-byte rune of [s] has no byte below 128, so the search by
    runes and the search by bytes agree. *)
Fixpoint ContainsAny (s chars : string) : bool :=
  match s with
  | EmptyString => false
  | String c rest => hasByte c chars || ContainsAny rest chars
  end.

End Go.

(** ** Package views: the render model of the chat view *)

Module views.

(** [models.Message] as [formatLine] reads it.  The package [models] is not
    part of the sources under study: [FormattedTime] stands for the result
    of [msg.FormatTime()]. *)
Record Message := {
  IsSystem : bool;
  Username : string;
  Content : string;
  Color : string;
  FormattedTime : string;
}.

(** [sanitizeContent]: [strings.ReplaceAll(s, "[", "[[]")]. *)
Fixpoint sanitizeContent (s : string) : string :=
  match s with
  | EmptyString => EmptyString
  | String c rest =>
      if decide (c = "["%char) then "[[]" +:+ sanitizeContent rest
      else String c (sanitizeContent rest)
  end.

(** [safeColorTag].  The two index expressions [tag[0]] and
    [tag[len(tag)-1]] are in range once [len(tag) < 3] has been excluded;
    the [None] branches below are the out-of-range reads, which the guard
    makes unreachable (see [safeColorTag_reads_in_range]). *)
Definition safeColorTag (tag : string) : string :=
  if decide (Go.len tag < 3)%nat then "[white]"
  else
    match String.get 0 tag, String.get (Go.len tag - 1) tag with
    | Some first, Some last =>
        if decide (first ≠ "["%char ∨ last ≠ "]"%char) then "[white]"
        else
          let inner := String.substring 1 (Go.len tag - 2) tag in
          if Go.ContainsAny inner "[]" then "[white]" else tag
    | _, _ => "[white]"
    end.

(** [formatLine] *)
Definition formatLine (msg : Message) : string :=
  if IsSystem msg then
    "[yellow]▸ " +:+ Content msg +:+ "[-]" +:+ Go.nl
  else
    let color := safeColorTag (Color msg) in
    let color := if decide (color = "") then "[white]" else color in
    let ts := FormattedTime msg in
    let safeUser := sanitizeContent (Username msg) in
    let safeContent := sanitizeContent (Content msg) in
    "[gray][" +:+ ts +:+ "][-] " +:+ color +:+ "[[]" +:+ safeUser +:+ "][-] "
      +:+ color +:+ safeContent +:+ "[-]" +:+ Go.nl.

(** [incomingPrefix]; [ts] is [time.Now().Format("15:04")]. *)
Definition incomingPrefix (ts colorTag username : string) : string :=
  let safeUser := sanitizeContent username in
  "[gray][" +:+ ts +:+ "][-] " +:+ colorTag +:+ "[[]" +:+ safeUser +:+ "][-] "
    +:+ colorTag.

(** The fields of [ChatView] that make up the message render model, the
    two atomic flags, and the text last handed to [messageView.SetText].
    The header, footer, input history and statistics fields play no part
    in the render model and are left out. *)
Record ChatView := {
  stopped : bool;
  animMode : bool;
  committedText : string;
  inFlight : gmap Z string;
  nextAnimID : Z;
  inFlightGen : Z;
  messageView : string;
}.

Definition setCommittedText (t : string) (c : ChatView) : ChatView :=
  {| stopped := stopped c; animMode := animMode c; committedText := t;
     inFlight := inFlight c; nextAnimID := nextAnimID c;
     inFlightGen := inFlightGen c; messageView := messageView c |}.

Definition setInFlight (m : gmap Z string) (c : ChatView) : ChatView :=
  {| stopped := stopped c; animMode := animMode c;
     committedText := committedText c; inFlight := m;
     nextAnimID := nextAnimID c; inFlightGen := inFlightGen c;
     messageView := messageView c |}.

Definition setNextAnimID (n : Z) (c : ChatView) : ChatView :=
  {| stopped := stopped c; animMode := animMode c;
     committedText := committedText c; inFlight := inFlight c;
     nextAnimID := n; inFlightGen := inFlightGen c;
     messageView := messageView c |}.

Definition setInFlightGen (g : Z) (c : ChatView) : ChatView :=
  {| stopped := stopped c; animMode := animMode c;
     committedText := committedText c; inFlight := inFlight c;
     nextAnimID := nextAnimID c; inFlightGen := g;
     messageView := messageView c |}.

Definition setMessageView (t : string) (c : ChatView) : ChatView :=
  {| stopped := stopped c; animMode := animMode c;
     committedText := committedText c; inFlight := inFlight c;
     nextAnimID := nextAnimID c; inFlightGen := inFlightGen c;
     messageView := t |}.

Definition setStopped (b : bool) (c : ChatView) : ChatView :=
  {| stopped := b; animMode := animMode c;
     committedText := committedText c; inFlight := inFlight c;
     nextAnimID := nextAnimID c; inFlightGen := inFlightGen c;
     messageView := messageView c |}.

(** [NewChatView]: static mode, empty buffers, [SetText("")] in [buildUI]. *)
Definition NewChatView : ChatView :=
  {| stopped := false; animMode := false; committedText := "";
     inFlight := ∅; nextAnimID := 0; inFlightGen := 0; messageView := "" |}.

(** The loop of [renderMessages]: [for i := 0; i < c.nextAnimID; i++]. *)
Definition composeText (c : ChatView) : string :=
  foldl (λ text i,
           match inFlight c !! i with
           | Some line => text +:+ line
           | None => text
           end)
        (committedText c) (seqZ 0 (nextAnimID c)).

(** [renderMessages] *)
Definition renderMessages (c : ChatView) : ChatView :=
  setMessageView (composeText c) c.

(** [AddMessage] *)
Definition AddMessage (msg : Message) (c : ChatView) : ChatView :=
  renderMessages (setCommittedText (committedText c +:+ formatLine msg) c).

(** The closure queued by [AddIncomingMessage] in static mode. *)
Definition staticDraw (prefix content : string) (c : ChatView) : ChatView :=
  if stopped c then c
  else
    let sanitized := sanitizeContent content in
    renderMessages
      (setCommittedText
         (committedText c +:+ prefix +:+ sanitized +:+ "[-]" +:+ Go.nl) c).

(** [animSlot], the value sent over [slotCh]. *)
Record animSlot := { id : Z; gen : Z }.

(** The closure queued first in animation mode ("anim-init"): it allocates
    the slot, paints the cursor and sends the slot over [slotCh]. *)
Definition animInit (prefix : string) (c : ChatView) : ChatView * animSlot :=
  if stopped c then (c, {| id := -1; gen := -1 |})
  else
    let animID := nextAnimID c in
    let c := setNextAnimID (Go.wrapInt (nextAnimID c + 1)) c in
    let gen := inFlightGen c in
    let c := setInFlight (<[animID := prefix +:+ "[dim]▋[-]"]> (inFlight c)) c in
    (renderMessages c, {| id := animID; gen := gen |}).

(** The closure queued for each word ("word-tick"). *)
Definition wordTick (animID myGen : Z) (prefix snapshot : string)
    (isLast : bool) (c : ChatView) : ChatView :=
  if stopped c then c
  else if decide (inFlightGen c ≠ myGen) then c
  else
    let sanitized := sanitizeContent snapshot in
    let c :=
      if isLast then
        let c := setInFlight (delete animID (inFlight c)) c in
        setCommittedText
          (committedText c +:+ prefix +:+ sanitized +:+ "[-]" +:+ Go.nl) c
      else
        setInFlight
          (<[animID := prefix +:+ sanitized +:+ " [dim]▋[-]"]> (inFlight c)) c
    in
    renderMessages c.

(** The closure queued by [SetMessages].  [SetMessages] returns without
    queueing when the view is already stopped; the flag is never cleared,
    so the closure would have been a no-op as well. *)
Definition SetMessages (messages : list Message) (c : ChatView) : ChatView :=
  if stopped c then c
  else
    let b := foldl (λ b msg, b +:+ formatLine msg) "" messages in
    renderMessages (setInFlight ∅ (setCommittedText b c)).

(** [ClearMessages] *)
Definition ClearMessages (c : ChatView) : ChatView :=
  let c := setCommittedText "" c in
  let c := setInFlight ∅ c in
  let c := setInFlightGen (Go.wrapInt (inFlightGen c + 1)) c in
  renderMessages c.

(** [Stop] *)
Definition Stop (c : ChatView) : ChatView := setStopped true c.

(** [SetAnimationMode] (the command bar it redraws is not modelled). *)
Definition SetAnimationMode (anim : bool) (c : ChatView) : ChatView :=
  {| stopped := stopped c; animMode := anim;
     committedText := committedText c; inFlight := inFlight c;
     nextAnimID := nextAnimID c; inFlightGen := inFlightGen c;
     messageView := messageView c |}.

(** *** [AddIncomingMessage], the part that runs on the caller's goroutine *)

(** What a call of [AddIncomingMessage] hands to the event loop. *)
Inductive queued :=
| Nothing
| QueueStatic (prefix content : string)
| QueueAnimation (prefix : string) (words : list string).

(** The word loop of the animation goroutine when it is never stopped:
    the [snapshot] and [isLast] captured by each queued word-tick. *)
Fixpoint wordLoop (i n : nat) (built : string) (words : list string)
  : list (string * bool) :=
  match words with
  | [] => []
  | word :: rest =>
      let built := if decide (i = 0%nat) then word else built +:+ " " +:+ word in
      (built, bool_decide (i = (n - 1)%nat)) :: wordLoop (S i) n built rest
  end.

Definition animTicks (words : list string) : list (string * bool) :=
  wordLoop 0 (length words) "" words.

Section Incoming.
(** [models.GetUsernameColor], [models.ParseColorToTag] (package
    [models] is outside the sources under study) and [strings.Fields]. *)
Variable GetUsernameColor : string → string.
Variable ParseColorToTag : string → string.
Variable Fields : string → list string.

(** "Normalise and validate color tag": the three statements that end
    with [colorTag = safeColorTag(colorTag)]. *)
Definition incomingColorTag (username colorTag : string) : string :=
  let colorTag :=
    if decide (colorTag = "") then GetUsernameColor username else colorTag in
  let colorTag :=
    if negb (Go.HasPrefix colorTag "[") then ParseColorToTag colorTag
    else colorTag in
  safeColorTag colorTag.

(** [AddIncomingMessage] up to the first [QueueUpdateDraw]; [ts] is the
    clock reading of [incomingPrefix]. *)
Definition AddIncomingMessage (ts username content colorTag : string)
    (c : ChatView) : queued :=
  if stopped c then Nothing
  else
    let colorTag := incomingColorTag username colorTag in
    let words := Fields content in
    if decide (length words = 0%nat) then Nothing
    else
      let prefix := incomingPrefix ts colorTag username in
      if negb (animMode c) then QueueStatic prefix content
      else QueueAnimation prefix words.
End Incoming.

(** *** The event loop

    Every closure handed to [QueueUpdateDraw] runs on the single tview
    event loop, one at a time; [AddMessage] and [ClearMessages] are called
    from that loop as well.  A run of the view is therefore a sequence of
    such updates.  A word-tick carries the slot its goroutine received over
    [slotCh]: [handedOut] records the slots in the order the anim-init
    closures sent them, and a word-tick names its animation task by its
    position in that record.  A goroutine that received a negative id
    returns without queueing any tick. *)
Record system := { view : ChatView; handedOut : list animSlot }.

Inductive update :=
| UAddMessage (msg : Message)
| UStaticDraw (prefix content : string)
| UAnimInit (prefix : string)
| UWordTick (task : nat) (prefix snapshot : string) (isLast : bool)
| USetMessages (messages : list Message)
| UClearMessages
| USetAnimationMode (anim : bool)
| UStop.

Definition withView (s : system) (c : ChatView) : system :=
  {| view := c; handedOut := handedOut s |}.

Definition step (s : system) (u : update) : system :=
  match u with
  | UAddMessage msg => withView s (AddMessage msg (view s))
  | UStaticDraw prefix content => withView s (staticDraw prefix content (view s))
  | UAnimInit prefix =>
      let '(c, slot) := animInit prefix (view s) in
      {| view := c; handedOut := handedOut s ++ [slot] |}
  | UWordTick task prefix snapshot isLast =>
      match handedOut s !! task with
      | Some slot =>
          if decide (id slot < 0) then s
          else withView s (wordTick (id slot) (gen slot) prefix snapshot isLast (view s))
      | None => s
      end
  | USetMessages messages => withView s (SetMessages messages (view s))
  | UClearMessages => withView s (ClearMessages (view s))
  | USetAnimationMode anim => withView s (SetAnimationMode anim (view s))
  | UStop => withView s (Stop (view s))
  end.

Definition run (s : system) (us : list update) : system := foldl step s us.

Definition start : system := {| view := NewChatView; handedOut := [] |}.

(** Number of anim-init closures in a run. *)
Fixpoint allocations (us : list update) : nat :=
  match us with
  | [] => 0
  | UAnimInit _ :: us => S (allocations us)
  | _ :: us => allocations us
  end.

(** Number of [ClearMessages] calls in a run. *)
Fixpoint clears (us : list update) : nat :=
  match us with
  | [] => 0
  | UClearMessages :: us => S (clears us)
  | _ :: us => clears us
  end.

(** *** Specification-side notions *)

(** The keys of the live slots in ascending order. *)
Definition liveSlots (c : ChatView) : list Z :=
  merge_sort Z.le (elements (dom (inFlight c))).

(** Committed buffer followed by the text of every live slot, by ascending
    slot id. *)
Definition transcript (c : ChatView) : string :=
  foldl (λ text k, text +:+ default "" (inFlight c !! k))
        (committedText c) (liveSlots c).

(** A color tag that is safe to interpolate: an opening bracket, a
    non-empty interior without brackets, a closing bracket. *)
Definition wellFormedTag (tag : string) : Prop :=
  ∃ inner : string,
    tag = "[" +:+ inner +:+ "]" ∧
    (1 ≤ Go.len inner)%nat ∧
    ∀ i c, String.get i inner = Some c → c ≠ "["%char ∧ c ≠ "]"%char.

(** Every live slot has a key the render loop visits. *)
Definition slotsInRange (c : ChatView) : Prop :=
∀ k, is_Some (inFlight c !! k) → 0 ≤ k < nextAnimID c.

(** The state of the view between two updates of the event loop. *)
Record wfView (c : ChatView) : Prop := {
wf_counter : 0 ≤ nextAnimID c;
wf_keys : slotsInRange c;
wf_shown : messageView c = composeText c;
}.

(** What holds of the view and of the slots handed to the animation
  goroutines between two updates. *)
Record inv (s : system) : Prop := {
inv_view : wfView (view s);
inv_handed : ∀ slot, slot ∈ handedOut s →
               id slot < nextAnimID (view s);
inv_order : ∀ i j si sj, (i < j)%nat →
               handedOut s !! i = Some si →
               handedOut s !! j = Some sj →
               0 ≤ id sj → id si < id sj;
}.

End views.

(** ** Package controllers: the long-poll client *)

Module controllers.

(** [time.Duration] counts nanoseconds. *)
Definition Millisecond : Z := 1000000.
Definition Second : Z := 1000 * Millisecond.

Definition serverAccessKey : string := "secure_chat_key_2024".

(** *** Wire types *)

Record sendRequest := {
  AccessKey : string;
  ClientID : string;
  req_Username : string;
  req_Content : string;
  req_Color : string;
}.

(** [sendResponse]; its fields are [Status], [ID] and [Time] in the source
    and carry a prefix here because [pollMessage] has an [ID] too. *)
Record sendResponse := {
  resp_Status : string;
  resp_ID : string;
  resp_Time : string;
}.

(** What the client uses of [encoding/json], [fmt] and [time], which are
    outside the sources.  A decoded JSON object is a Go map: it is given
    as the list of its entries in the order in which a [range] statement
    visits them, and is read by key with [lookupRaw]. *)
Record runtime := {
  (** [json.RawMessage], a value that is not decoded yet *)
  RawMessage : Type;
  (** [time.Time] and its zero value *)
  Time : Type;
  zeroTime : Time;
  (** [json.Unmarshal(data, &rawList)] with
      [rawList []map[string]json.RawMessage]; [None] when it fails *)
  unmarshalRawList : string → option (list (list (string * RawMessage)));
  (** [json.Unmarshal(v, &s)] with [s string]: the string it stores, or
      [None] when it leaves [s] as it was *)
  unmarshalString : RawMessage → option string;
  (** [json.Unmarshal(v, &t)] with [t time.Time] *)
  unmarshalTime : RawMessage → option Time;
  (** [json.NewDecoder(resp.Body).Decode(&sr)] with [sr sendResponse];
      [None] when it fails *)
  decodeSendResponse : string → option sendResponse;
  (** how [fmt] prints a [time.Duration] under the verb [%v] *)
  formatDuration : Z → string;
}.

Section Client.
Context (rt : runtime).

Record pollMessage := {
  Username : string;
  Content : string;
  Color : string;
  ID : string;
  Timestamp : Time rt;
}.

Definition knownPollKeys (key : string) : bool :=
  bool_decide (key = "color") || bool_decide (key = "id")
    || bool_decide (key = "timestamp").

(** [raw[key]] *)
Fixpoint lookupRaw (raw : list (string * RawMessage rt)) (key : string)
  : option (RawMessage rt) :=
  match raw with
  | [] => None
  | (k, v) :: rest => if decide (k = key) then Some v else lookupRaw rest key
  end.

(** The loop [for key, val := range raw] of [parsePollMessages]: the
    first key outside [knownPollKeys] is the author, then [break]. *)
Fixpoint rangeAuthor (raw : list (string * RawMessage rt)) (msg : pollMessage)
  : pollMessage :=
  match raw with
  | [] => msg
  | (key, val) :: rest =>
      if knownPollKeys key then rangeAuthor rest msg
      else
        {| Username := key;
           Content := default (Content msg) (unmarshalString rt val);
           Color := Color msg; ID := ID msg; Timestamp := Timestamp msg |}
  end.

(** The body of the loop over [rawList] up to the validity test. *)
Definition parseEntry (raw : list (string * RawMessage rt)) : pollMessage :=
  let msg := {| Username := ""; Content := ""; Color := ""; ID := "";
                Timestamp := zeroTime rt |} in
  let msg :=
    match lookupRaw raw "color" with
    | Some v =>
        {| Username := Username msg; Content := Content msg;
           Color := default (Color msg) (unmarshalString rt v);
           ID := ID msg; Timestamp := Timestamp msg |}
    | None => msg
    end in
  let msg :=
    match lookupRaw raw "id" with
    | Some v =>
        {| Username := Username msg; Content := Content msg;
           Color := Color msg;
           ID := default (ID msg) (unmarshalString rt v);
           Timestamp := Timestamp msg |}
    | None => msg
    end in
  let msg :=
    match lookupRaw raw "timestamp" with
    | Some v =>
        {| Username := Username msg; Content := Content msg;
           Color := Color msg; ID := ID msg;
           Timestamp := default (Timestamp msg) (unmarshalTime rt v) |}
    | None => msg
    end in
  rangeAuthor raw msg.

(** [msg.Username == "" || msg.Content == "" || msg.ID == ""] *)
Definition malformed (msg : pollMessage) : bool :=
  bool_decide (Username msg = "") || bool_decide (Content msg = "")
    || bool_decide (ID msg = "").

(** [parsePollMessages]; [None] is the error return. *)
Definition parsePollMessages (data : string) : option (list pollMessage) :=
  match unmarshalRawList rt data with
  | None => None
  | Some rawList =>
      Some (foldl (λ msgs raw,
                     let msg := parseEntry raw in
                     if malformed msg then msgs else msgs ++ [msg])
                  [] rawList)
  end.

(** *** NetworkClient *)

(** The two callbacks are recorded by whether they are non-nil; the
    calls made to them are the output of the operations below. *)
Record NetworkClient := {
  serverURL : string;
  clientID : string;
  stopped : bool;
  stopCh : bool;  (* true once closed *)
  lastID : string;
  sentIDs : gset string;
  onMessage : bool;
  onStatusChange : bool;
}.

Inductive call :=
| OnMessage (username content colorTag : string)
| OnStatusChange (connected : bool) (msg : string).

(** [NewNetworkClient]; [cid] is the result of [generateClientID()]. *)
Definition NewNetworkClient (serverURL cid : string)
    (onMessage onStatusChange : bool) : NetworkClient :=
  {| serverURL := serverURL; clientID := cid; stopped := false;
     stopCh := false; lastID := ""; sentIDs := ∅;
     onMessage := onMessage; onStatusChange := onStatusChange |}.

Definition setLastID (id : string) (nc : NetworkClient) : NetworkClient :=
  {| serverURL := serverURL nc; clientID := clientID nc;
     stopped := stopped nc; stopCh := stopCh nc; lastID := id;
     sentIDs := sentIDs nc; onMessage := onMessage nc;
     onStatusChange := onStatusChange nc |}.

Definition setSentIDs (ids : gset string) (nc : NetworkClient) : NetworkClient :=
  {| serverURL := serverURL nc; clientID := clientID nc;
     stopped := stopped nc; stopCh := stopCh nc; lastID := lastID nc;
     sentIDs := ids; onMessage := onMessage nc;
     onStatusChange := onStatusChange nc |}.

(** [Stop]: compare-and-swap of [stopped], then [close(nc.stopCh)]. *)
Definition Stop (nc : NetworkClient) : NetworkClient :=
  if stopped nc then nc
  else
    {| serverURL := serverURL nc; clientID := clientID nc;
       stopped := true; stopCh := true; lastID := lastID nc;
       sentIDs := sentIDs nc; onMessage := onMessage nc;
       onStatusChange := onStatusChange nc |}.

(** [notifyStatus] *)
Definition notifyStatus (nc : NetworkClient) (connected : bool) (msg : string)
  : list call :=
  if onStatusChange nc then [OnStatusChange connected msg] else [].

(** [handleIncoming] *)
Definition handleIncoming (nc : NetworkClient) (msg : pollMessage)
  : NetworkClient * list call :=
  let isMine := bool_decide (ID msg ∈ sentIDs nc) in
  let nc := if isMine then setSentIDs (sentIDs nc ∖ {[ID msg]}) nc else nc in
  if isMine then (nc, [])
  else
    (nc, if onMessage nc
         then [OnMessage (Username msg) (Content msg) (Color msg)]
         else []).

(** *** Send *)

(** The request [sendAsync] posts. *)
Definition buildSendRequest (nc : NetworkClient)
    (username content colorTag : string) : sendRequest :=
  {| AccessKey := serverAccessKey; ClientID := clientID nc;
     req_Username := username; req_Content := content;
     req_Color := colorTag |}.

(** Outcome of [nc.httpClient.Post]. *)
Inductive postOutcome :=
| PostError
| PostResponse (StatusCode : Z) (Body : string).

(** [sendAsync] from the return of [Post] on.  [json.Marshal] cannot
    fail on a struct of strings, so the request is always posted. *)
Definition sendAsync (nc : NetworkClient) (o : postOutcome)
  : NetworkClient * list call :=
  match o with
  | PostError =>
      (nc, notifyStatus nc false "Message send failed — server unreachable.")
  | PostResponse code body =>
      if decide (code = 401) then
        (nc, notifyStatus nc false "Server rejected access key.")
      else if decide (code = 200 ∨ code = 201) then
        match decodeSendResponse rt body with
        | Some sr =>
            if decide (resp_ID sr ≠ "")
            then (setSentIDs ({[resp_ID sr]} ∪ sentIDs nc) nc, [])
            else (nc, [])
        | None => (nc, [])
        end
      else (nc, [])
  end.

(** *** Poll *)

(** Outcome of the GET request of [poll]: [http.NewRequest] fails,
    [httpClient.Do] fails, or a response arrives, whose body [io.ReadAll]
    reads ([None] when reading fails). *)
Inductive httpOutcome :=
| NewRequestError
| DoError
| Response (StatusCode : Z) (Body : option string).

Inductive pollError :=
| ErrNewRequest
| ErrDo
| ErrRejected          (* "server rejected access key" *)
| ErrReadBody          (* "read poll body: ..." *)
| ErrParse             (* "parse poll array: ..." *)
| ErrUnexpected (StatusCode : Z).

(** The query of the GET request: [last_id] is set only when non-empty. *)
Definition pollParams (nc : NetworkClient) : list (string * string) :=
  [("access_key", serverAccessKey); ("client_id", clientID nc)]
    ++ (if decide (lastID nc ≠ "") then [("last_id", lastID nc)] else []).

(** [poll] from the outcome of the request on; the result is the pair
    [(msgs, err)], where [None] stands for [nil]. *)
Definition poll (nc : NetworkClient) (o : httpOutcome)
  : NetworkClient * (option (list pollMessage) * option pollError) :=
  match o with
  | NewRequestError => (nc, (None, Some ErrNewRequest))
  | DoError => (nc, (None, Some ErrDo))
  | Response code body =>
      if decide (code = 204) then (nc, (None, None))
      else if decide (code = 401) then (nc, (None, Some ErrRejected))
      else if decide (code = 200) then
        match body with
        | None => (nc, (None, Some ErrReadBody))
        | Some rawBody =>
            match parsePollMessages rawBody with
            | None => (nc, (None, Some ErrParse))
            | Some msgs =>
                let nc :=
                  if decide (0 < length msgs)%nat then
                    match list.last msgs with
                    | Some m => setLastID (ID m) nc
                    | None => nc   (* index out of range: excluded by the test *)
                    end
                  else nc in
                (nc, (Some msgs, None))
            end
        end
      else (nc, (None, Some (ErrUnexpected code)))
  end.

(** *** Poll loop *)

(** The local variables of [pollLoop] ([iteration] only feeds the log). *)
Record loopVars := {
  backoff : Z;
  firstConnect : bool;
  wasConnected : bool;
}.

Definition maxBackoff : Z := 30 * Second.

Definition initVars : loopVars :=
  {| backoff := 1 * Second; firstConnect := true; wasConnected := false |}.

(** [minDur] *)
Definition minDur (a b : Z) : Z := if decide (a < b) then a else b.

(** Where the goroutine of [pollLoop] stands. *)
Inductive control :=
| AtLoopTop     (* about to test [stopped] *)
| InPoll        (* inside [nc.poll()], waiting for the response *)
| InBackoff     (* in the [select] of the error branch *)
| Dispatching (rest : list pollMessage)
                (* in the loop over [msgs], about to handle the head of [rest] *)
| InPause       (* in the [select] after a poll that returned [nil] *)
| Returned.

(** Top of the loop: the test of [stopped]. *)
Definition loopTop (nc : NetworkClient) : control :=
  if stopped nc then Returned else InPoll.

(** The [for idx, msg := range msgs] loop. *)
Definition dispatch (nc : NetworkClient) (msgs : list pollMessage)
  : NetworkClient * list call :=
  foldl (λ '(nc, calls) msg,
           let '(nc, cs) := handleIncoming nc msg in (nc, calls ++ cs))
        (nc, []) msgs.

(** Where the loop goes once [msgs] is known: into the loop over [msgs],
    or past it when there is nothing to handle, to the pause when [msgs]
    is [nil] and to the top otherwise. *)
Definition toDispatch (msgs : option (list pollMessage)) : control :=
  match msgs with
  | None => InPause
  | Some [] => AtLoopTop
  | Some msgs => Dispatching msgs
  end.

(** From the return of [nc.poll()] to the loop over [msgs]. *)
Definition pollReturned (nc : NetworkClient) (v : loopVars) (o : httpOutcome)
  : NetworkClient * loopVars * control * list call :=
  let '(nc, (msgs, err)) := poll nc o in
  match err with
  | Some _ =>
      let calls :=
        if firstConnect v then
          notifyStatus nc false ("Cannot reach server at " +:+ serverURL nc)
        else if wasConnected v then
          notifyStatus nc false
            ("Connection lost — reconnecting in "
               +:+ formatDuration rt (backoff v) +:+ "…")
        else [] in
      let v := {| backoff := backoff v; firstConnect := firstConnect v;
                  wasConnected := false |} in
      (nc, v, InBackoff, calls)
  | None =>
      let calls :=
        if firstConnect v || negb (wasConnected v) then
          notifyStatus nc true ("Connected to relay at " +:+ serverURL nc)
        else [] in
      let v := {| backoff := 1 * Second; firstConnect := false;
                  wasConnected := true |} in
      (nc, v, toDispatch msgs, calls)
  end.

(** One turn of the loop over [msgs]. *)
Definition handleNext (nc : NetworkClient) (rest : list pollMessage)
  : NetworkClient * control * list call :=
  match rest with
  | [] => (nc, AtLoopTop, [])
  | msg :: rest =>
      let '(nc, calls) := handleIncoming nc msg in
      (nc, (if rest is [] then AtLoopTop else Dispatching rest), calls)
  end.

(** From the return of [nc.poll()] to the next suspension point, when no
    other goroutine runs in between. *)
Definition afterPoll (nc : NetworkClient) (v : loopVars) (o : httpOutcome)
  : NetworkClient * loopVars * control * list call :=
  let '(nc, v, ctl, calls) := pollReturned nc v o in
  match ctl with
  | Dispatching msgs =>
      let '(nc, delivered) := dispatch nc msgs in
      (nc, v, AtLoopTop, calls ++ delivered)
  | _ => (nc, v, ctl, calls)
  end.

(** The timer case of the [select] in the error branch, and the
    statement after it. *)
Definition afterBackoff (v : loopVars) : loopVars :=
  {| backoff := minDur (Go.wrapInt (backoff v * 2)) maxBackoff;
     firstConnect := firstConnect v; wasConnected := wasConnected v |}.

(** *** The client and its goroutines

    The poll goroutine, the [sendAsync] goroutines and the callers of
    [SendMessage] and [Stop] interleave.  Each of them touches the shared
    fields ([stopped], [stopCh], [lastID], [sentIDs]) only inside the steps
    below, so a run of the client is a sequence of these steps: the test at
    the top of the loop, the return of a poll, the handling of one entry,
    the end of a wait, the return of a [Post], a call of [Stop].
    [OnSendMessage] is the entry point of [AppController]: it shows the
    message at once ([chat.AddMessage]) and then calls [SendMessage]. *)
Record client := {
  nc : NetworkClient;
  vars : loopVars;
  pc : control;
  posting : list sendRequest;   (* [sendAsync] goroutines inside [Post] *)
}.

Inductive event :=
| EvLoopTop
| EvPollReturns (o : httpOutcome)
| EvHandleIncoming
| EvTimer
| EvStopCh
| EvOnSendMessage (username content colorTag : string)
| EvPostReturns (i : nat) (o : postOutcome)
| EvStop.

Inductive output :=
| Shown (username content colorTag : string)   (* the optimistic local commit *)
| Called (c : call).

(** [Start] on a fresh client. *)
Definition Start (nc : NetworkClient) : client :=
  {| nc := nc; vars := initVars; pc := AtLoopTop; posting := [] |}.

(** One step; [None] when the event cannot happen in this state. *)
Definition step (cl : client) (e : event) : option (client * list output) :=
  match e with
  | EvLoopTop =>
      if pc cl is AtLoopTop then
        Some ({| nc := nc cl; vars := vars cl; pc := loopTop (nc cl);
                 posting := posting cl |}, [])
      else None
  | EvPollReturns o =>
      if pc cl is InPoll then
        let '(nc', v, ctl, calls) := pollReturned (nc cl) (vars cl) o in
        Some ({| nc := nc'; vars := v; pc := ctl; posting := posting cl |},
              Called <$> calls)
      else None
  | EvHandleIncoming =>
      if pc cl is Dispatching rest then
        let '(nc', ctl, calls) := handleNext (nc cl) rest in
        Some ({| nc := nc'; vars := vars cl; pc := ctl; posting := posting cl |},
              Called <$> calls)
      else None
  | EvTimer =>
      match pc cl with
      | InBackoff =>
          Some ({| nc := nc cl; vars := afterBackoff (vars cl);
                   pc := AtLoopTop; posting := posting cl |}, [])
      | InPause =>
          Some ({| nc := nc cl; vars := vars cl; pc := AtLoopTop;
                   posting := posting cl |}, [])
      | _ => None
      end
  | EvStopCh =>
      match pc cl with
      | InBackoff | InPause =>
          if stopCh (nc cl) then
            Some ({| nc := nc cl; vars := vars cl; pc := Returned;
                     posting := posting cl |}, [])
          else None
      | _ => None
      end
  | EvOnSendMessage username content colorTag =>
      let started :=
        if stopped (nc cl) then []
        else [buildSendRequest (nc cl) username content colorTag] in
      Some ({| nc := nc cl; vars := vars cl; pc := pc cl;
               posting := posting cl ++ started |},
            [Shown username content colorTag])
  | EvPostReturns i o =>
      match posting cl !! i with
      | Some _ =>
          let '(nc', calls) := sendAsync (nc cl) o in
          Some ({| nc := nc'; vars := vars cl; pc := pc cl;
                   posting := delete i (posting cl) |},
                Called <$> calls)
      | None => None
      end
  | EvStop =>
      Some ({| nc := Stop (nc cl); vars := vars cl; pc := pc cl;
               posting := posting cl |}, [])
  end.

(** A run: the final state and, for each event, what it put out. *)
Fixpoint run (cl : client) (es : list event)
  : option (client * list (list output)) :=
  match es with
  | [] => Some (cl, [])
  | e :: es =>
      match step cl e with
      | Some (cl', out) =>
          match run cl' es with
          | Some (cl'', outs) => Some (cl'', out :: outs)
          | None => None
          end
      | None => None
      end
  end.

(** *** Poll cycles

    A cycle of the loop that no [Stop] interrupts: the poll and, after
    an error, the backoff wait. *)
Definition cycle (st : NetworkClient * loopVars) (o : httpOutcome)
  : NetworkClient * loopVars * list call :=
  let '(nc, v, ctl, calls) := afterPoll st.1 st.2 o in
  (nc, (if ctl is InBackoff then afterBackoff v else v), calls).

Definition cycles (st : NetworkClient * loopVars) (os : list httpOutcome)
  : NetworkClient * loopVars :=
  foldl (λ st o, (cycle st o).1) st os.

(** Did the cycle fail, that is, did [poll] return an error? *)
Definition failed (nc : NetworkClient) (o : httpOutcome) : bool :=
  if (poll nc o).2.2 is Some _ then true else false.

(** The status calls among the calls of a cycle. *)
Definition isStatus (c : call) : bool :=
  if c is OnStatusChange _ _ then true else false.

Definition statusCalls (calls : list call) : list call :=
  filter (λ c, Is_true (isStatus c)) calls.

(** *** Specification-side notions *)

(** The keys of an entry that are not reserved: its author names. *)
Definition authorKeys (raw : list (string * RawMessage rt)) : list string :=
  filter (λ k, knownPollKeys k = false) raw.*1.

(** The string stored under a key, if there is one. *)
Definition stringAt (raw : list (string * RawMessage rt)) (key : string)
  : option string :=
  lookupRaw raw key ≫= unmarshalString rt.

(** An entry as the wire contract expects it: one author key, not empty,
    with a non-empty string as body, and a non-empty string as id. *)
Definition wellFormedEntry (raw : list (string * RawMessage rt)) : Prop :=
  ∃ author body id,
    authorKeys raw = [author] ∧ author ≠ "" ∧
    stringAt raw author = Some body ∧ body ≠ "" ∧
    stringAt raw "id" = Some id ∧ id ≠ "".

(** An entry that lacks its author key, its body or its id. *)
Definition missingField (raw : list (string * RawMessage rt)) : Prop :=
  authorKeys raw = [] ∨
  (∃ author, authorKeys raw = [author] ∧
             (author = "" ∨ default "" (stringAt raw author) = "")) ∨
  default "" (stringAt raw "id") = "".

(** The messages a poll outcome carries. *)
Definition batch (o : httpOutcome) : list pollMessage :=
  match o with
  | Response code (Some body) =>
      if decide (code = 200) then default [] (parsePollMessages body) else []
  | _ => []
  end.

(** The id an event registers in [sentIDs], if any. *)
Definition ackedBy (e : event) : option string :=
  match e with
  | EvPostReturns _ (PostResponse code body) =>
      if decide (code = 200 ∨ code = 201) then
        match decodeSendResponse rt body with
        | Some sr => if decide (resp_ID sr ≠ "") then Some (resp_ID sr) else None
        | None => None
        end
      else None
  | _ => None
  end.

Definition ackedIDs (es : list event) : gset string :=
  list_to_set (omap ackedBy es).

(** The entry a step hands to [handleIncoming], and the entries a run
    hands to it. *)
Definition handledBy (cl : client) (e : event) : list pollMessage :=
  match e, pc cl with
  | EvHandleIncoming, Dispatching (msg :: _) => [msg]
  | _, _ => []
  end.

Fixpoint handled (cl : client) (es : list event) : list pollMessage :=
  match es with
  | [] => []
  | e :: es =>
      handledBy cl e
        ++ (if step cl e is Some (cl', _) then handled cl' es else [])
  end.

(** The calls of [onMessage] and the local commits among the outputs. *)
Definition onMessageCalls (outs : list (list output)) : list call :=
  omap (λ o, match o with
             | Called (OnMessage u c col) => Some (OnMessage u c col)
             | _ => None
             end) (concat outs).



End Client.

Arguments AtLoopTop {rt}.
Arguments InPoll {rt}.
Arguments InBackoff {rt}.
Arguments InPause {rt}.
Arguments Returned {rt}.
Arguments Dispatching {rt} _.
Arguments nc {rt} _.
Arguments vars {rt} _.
Arguments pc {rt} _.
Arguments posting {rt} _.
Arguments Username {rt} _.
Arguments Content {rt} _.
Arguments Color {rt} _.
Arguments ID {rt} _.
Arguments Timestamp {rt} _.

End controllers.

(** ** A runtime to run the client on

    A decoder for JSON texts and a printer of durations, to evaluate the
    client on concrete responses.  The decoder covers objects, arrays,
    strings with the two-character escapes, numbers and the three literals;
    it rejects [\u] escapes, does not repair invalid UTF-8, and matches the
    keys of a send response exactly rather than case-insensitively.  None of
    the general results below depends on it: they hold for every
    [controllers.runtime]. *)

Module json.

Inductive value :=
| Null
| Bool (b : bool)
| Number (literal : string)
| Str (s : string)
| Array (elements : list value)
| Object (members : list (string * value)).

Definition quote : ascii := "034"%char.
Definition backslash : ascii := "092"%char.

(** JSON texts are written here with an apostrophe where the text has a
    double quote. *)
Fixpoint text (s : string) : string :=
  match s with
  | EmptyString => EmptyString
  | String c rest =>
      String (if decide (c = "'"%char) then quote else c) (text rest)
  end.

Definition isSpace (c : ascii) : bool :=
  bool_decide (c ∈ [" "; "009"; "010"; "013"]%char).

Fixpoint skipSpace (s : string) : string :=
  match s with
  | EmptyString => EmptyString
  | String c rest => if isSpace c then skipSpace rest else s
  end.

Definition isDigit (c : ascii) : bool :=
  bool_decide (48 ≤ nat_of_ascii c ≤ 57)%nat.

(** The longest prefix of digits, and what follows it. *)
Fixpoint digits (s : string) : string * string :=
  match s with
  | EmptyString => (EmptyString, EmptyString)
  | String c rest =>
      if isDigit c then let '(d, r) := digits rest in (String c d, r)
      else (EmptyString, s)
  end.

Fixpoint stripPrefix (p s : string) : option string :=
  match p, s with
  | EmptyString, _ => Some s
  | String a p, String b s => if decide (a = b) then stripPrefix p s else None
  | _, _ => None
  end.

Definition unescape (c : ascii) : option ascii :=
  if decide (c = quote) then Some quote
  else if decide (c = backslash) then Some backslash
  else if decide (c = "/"%char) then Some "/"%char
  else if decide (c = "b"%char) then Some "008"%char
  else if decide (c = "f"%char) then Some "012"%char
  else if decide (c = "n"%char) then Some "010"%char
  else if decide (c = "r"%char) then Some "013"%char
  else if decide (c = "t"%char) then Some "009"%char
  else None.

(** A string from after its opening quote: its content and what follows
    the closing quote. *)
Fixpoint stringBody (s : string) : option (string * string) :=
  match s with
  | EmptyString => None
  | String c rest =>
      if decide (c = quote) then Some (EmptyString, rest)
      else if decide (c = backslash) then
        match rest with
        | EmptyString => None
        | String e rest' =>
            match unescape e, stringBody rest' with
            | Some d, Some (body, r) => Some (String d body, r)
            | _, _ => None
            end
        end
      else if bool_decide (nat_of_ascii c < 32)%nat then None
      else
        match stringBody rest with
        | Some (body, r) => Some (String c body, r)
        | None => None
        end
  end.

(** A number: its literal and what follows. *)
Definition number (s : string) : option (string * string) :=
  let '(sign, s) :=
    match stripPrefix "-" s with Some r => ("-", r) | None => ("", s) end in
  let '(int, s) := digits s in
  if decide (int = "") then None
  else if bool_decide (1 < String.length int)%nat && bool_decide (String.get 0 int = Some "0"%char)
  then None
  else
    let frac :=
      match stripPrefix "." s with
      | Some r =>
          let '(f, r') := digits r in
          if decide (f = "") then None else Some ("." +:+ f, r')
      | None => Some ("", s)
      end in
    match frac with
    | None => None
    | Some (f, s) =>
        let exp :=
          match s with
          | String c r =>
              if bool_decide (c = "e"%char ∨ c = "E"%char) then
                let '(sg, r) :=
                  match r with
                  | String g r' =>
                      if bool_decide (g = "+"%char ∨ g = "-"%char)
                      then (String g "", r') else ("", r)
                  | EmptyString => ("", r)
                  end in
                let '(d, r') := digits r in
                if decide (d = "") then None else Some (String c (sg +:+ d), r')
              else Some ("", s)
          | EmptyString => Some ("", s)
          end in
        match exp with
        | None => None
        | Some (e, s) => Some (sign +:+ int +:+ f +:+ e, s)
        end
    end.

Definition scalar (s : string) : option (value * string) :=
  match stripPrefix "null" s, stripPrefix "true" s, stripPrefix "false" s with
  | Some r, _, _ => Some (Null, r)
  | _, Some r, _ => Some (Bool true, r)
  | _, _, Some r => Some (Bool false, r)
  | _, _, _ =>
      match number s with
      | Some (n, r) => Some (Number n, r)
      | None => None
      end
  end.

(** A value, the elements of an array up to its closing bracket, and the
    members of an object up to its closing brace. *)
Fixpoint parseValue (fuel : nat) (s : string) : option (value * string) :=
  match fuel with
  | O => None
  | S fuel =>
      match skipSpace s with
      | EmptyString => None
      | String c rest =>
          if decide (c = quote) then
            match stringBody rest with
            | Some (x, r) => Some (Str x, r)
            | None => None
            end
          else if decide (c = "["%char) then
            match stripPrefix "]" (skipSpace rest) with
            | Some r => Some (Array [], r)
            | None =>
                match parseElements fuel rest with
                | Some (vs, r) => Some (Array vs, r)
                | None => None
                end
            end
          else if decide (c = "{"%char) then
            match stripPrefix "}" (skipSpace rest) with
            | Some r => Some (Object [], r)
            | None =>
                match parseMembers fuel rest with
                | Some (ms, r) => Some (Object ms, r)
                | None => None
                end
            end
          else scalar (String c rest)
      end
  end
with parseElements (fuel : nat) (s : string) : option (list value * string) :=
  match fuel with
  | O => None
  | S fuel =>
      match parseValue fuel s with
      | None => None
      | Some (v, r) =>
          match skipSpace r with
          | String c r' =>
              if decide (c = ","%char) then
                match parseElements fuel r' with
                | Some (vs, r'') => Some (v :: vs, r'')
                | None => None
                end
              else if decide (c = "]"%char) then Some ([v], r')
              else None
          | EmptyString => None
          end
      end
  end
with parseMembers (fuel : nat) (s : string)
  : option (list (string * value) * string) :=
  match fuel with
  | O => None
  | S fuel =>
      match stripPrefix (String quote "") (skipSpace s) with
      | None => None
      | Some r =>
          match stringBody r with
          | None => None
          | Some (key, r) =>
              match stripPrefix ":" (skipSpace r) with
              | None => None
              | Some r =>
                  match parseValue fuel r with
                  | None => None
                  | Some (v, r) =>
                      match skipSpace r with
                      | String c r' =>
                          if decide (c = ","%char) then
                            match parseMembers fuel r' with
                            | Some (ms, r'') => Some ((key, v) :: ms, r'')
                            | None => None
                            end
                          else if decide (c = "}"%char) then Some ([(key, v)], r')
                          else None
                      | EmptyString => None
                      end
                  end
              end
          end
      end
  end.

Definition fuelFor (s : string) : nat := S (S (2 * String.length s)).

(** A whole text: one value, then white space only. *)
Definition parse (s : string) : option value :=
  match parseValue (fuelFor s) s with
  | Some (v, r) => if decide (skipSpace r = "") then Some v else None
  | None => None
  end.

(** The first value of a stream, as a [json.Decoder] reads it. *)
Definition parseFirst (s : string) : option value :=
  match parseValue (fuelFor s) s with
  | Some (v, _) => Some v
  | None => None
  end.

(** The Go map an object decodes to: a later member replaces an earlier
    one that has the same key. *)
Fixpoint toMap (members : list (string * value)) : list (string * value) :=
  match members with
  | [] => []
  | (k, v) :: rest =>
      if bool_decide (k ∈ rest.*1) then toMap rest else (k, v) :: toMap rest
  end.

Fixpoint find (m : list (string * value)) (key : string) : option value :=
  match m with
  | [] => None
  | (k, v) :: rest => if decide (k = key) then Some v else find rest key
  end.

Definition unmarshalRawList (data : string)
  : option (list (list (string * value))) :=
  match parse data with
  | Some Null => Some []
  | Some (Array vs) =>
      mapM (λ v, match v with
                 | Object ms => Some (toMap ms)
                 | Null => Some []
                 | _ => None
                 end) vs
  | _ => None
  end.

Definition unmarshalString (v : value) : option string :=
  if v is Str s then Some s else None.

(** A string field of a struct: absent and [null] leave it empty, another
    type is an error. *)
Definition field (m : list (string * value)) (key : string) : option string :=
  match find m key with
  | None | Some Null => Some ""
  | Some (Str s) => Some s
  | Some _ => None
  end.

Definition decodeSendResponse (body : string) : option controllers.sendResponse :=
  match parseFirst body with
  | Some Null =>
      Some {| controllers.resp_Status := ""; controllers.resp_ID := "";
              controllers.resp_Time := "" |}
  | Some (Object ms) =>
      let m := toMap ms in
      match field m "status", field m "id", field m "time" with
      | Some st, Some id, Some t =>
          Some {| controllers.resp_Status := st; controllers.resp_ID := id;
                  controllers.resp_Time := t |}
      | _, _, _ => None
      end
  | _ => None
  end.

(** [Duration.String] on the whole numbers of seconds below one minute,
    the only values the backoff takes. *)
Definition formatDuration (d : Z) : string :=
  pretty (d `div` controllers.Second) +:+ "s".

(** The runtime; a timestamp is kept as the text received. *)
Definition runtime : controllers.runtime :=
  {| controllers.RawMessage := value;
     controllers.Time := string;
     controllers.zeroTime := "";
     controllers.unmarshalRawList := unmarshalRawList;
     controllers.unmarshalString := unmarshalString;
     controllers.unmarshalTime := unmarshalString;
     controllers.decodeSendResponse := decodeSendResponse;
     controllers.formatDuration := formatDuration |}.

End json.

(** ** Package views: the input field of the chat view *)

Module input.

(** The fields of [ChatView] behind nick mode, and the text of
    [inputField]. *)
Record state := {
  nickActive : bool;
  sentHistory : list string;
  historyIdx : Z;   (* -1 = not browsing *)
  fieldText : string;
}.

(** [NewChatView]: [historyIdx: -1], zero values elsewhere. *)
Definition init : state :=
  {| nickActive := false; sentHistory := []; historyIdx := -1; fieldText := "" |}.

Definition setHistory (h : list string) (c : state) : state :=
  {| nickActive := nickActive c; sentHistory := h;
     historyIdx := historyIdx c; fieldText := fieldText c |}.

(** [c.historyIdx = idx] followed by [c.inputField.SetText(text)] *)
Definition browse (idx : Z) (text : string) (c : state) : state :=
  {| nickActive := nickActive c; sentHistory := sentHistory c;
     historyIdx := idx; fieldText := text |}.

(** [ToggleNickMode] and the value it returns *)
Definition ToggleNickMode (c : state) : state * bool :=
  let c := {| nickActive := negb (nickActive c); sentHistory := sentHistory c;
              historyIdx := -1; fieldText := fieldText c |} in
  (c, nickActive c).

(** [AddToHistory] *)
Definition AddToHistory (msg : string) (c : state) : state :=
  if decide (msg = "") then c
  else if bool_decide (0 < length (sentHistory c))%nat
          && bool_decide (sentHistory c !! (length (sentHistory c) - 1)%nat = Some msg)
  then c
  else
    let h := sentHistory c ++ [msg] in
    let h := if decide (100 < length h)%nat then drop 1 h else h in
    setHistory h c.

(** [c.sentHistory[i]]; [None] is the run-time panic of an index out of
    range. *)
Definition historyAt (c : state) (i : Z) : option string :=
  if decide (0 ≤ i) then sentHistory c !! Z.to_nat i else None.

Inductive key := KeyLeft | KeyRight | KeyOther.

(** The function given to [SetInputCapture]: the state it leaves and
    whether it consumed the key ([return nil]); [None] when it panics. *)
Definition inputCapture (k : key) (c : state) : option (state * bool) :=
  if negb (nickActive c) then Some (c, false)
  else
    let fieldEmpty := bool_decide (fieldText c = "") in
    let inHistory := bool_decide (0 ≤ historyIdx c) in
    match k with
    | KeyLeft =>
        if negb fieldEmpty && negb inHistory then Some (c, false)
        else if decide (length (sentHistory c) = 0%nat) then Some (c, true)
        else
          let idx :=
            if decide (historyIdx c < 0) then
              Go.wrapInt (Z.of_nat (length (sentHistory c)) - 1)
            else if decide (0 < historyIdx c) then Go.wrapInt (historyIdx c - 1)
            else historyIdx c in
          match historyAt c idx with
          | Some text => Some (browse idx text c, true)
          | None => None
          end
    | KeyRight =>
        if negb fieldEmpty && negb inHistory then Some (c, false)
        else if decide (historyIdx c < 0) then Some (c, true)
        else
          let idx := Go.wrapInt (historyIdx c + 1) in
          if decide (Z.of_nat (length (sentHistory c)) ≤ idx) then
            Some (browse (-1) "" c, true)
          else
            match historyAt c idx with
            | Some text => Some (browse idx text c, true)
            | None => None
            end
    | KeyOther => Some (c, false)
    end.

Section Done.
(** Does [AppController.OnCommand], called with this text, reach its
    [nick] case?  ([OnCommand] splits and lowers the text with functions
    of package [strings]; of its cases only [nick] touches the fields
    above.) *)
Variable commandIsNick : string → bool.

(** The function given to [SetDoneFunc], on the Enter key, with the two
    callbacks [AppController] installs: [OnCommand] for a text that starts
    with a slash, [OnSendMessage] otherwise, which calls [AddToHistory]. *)
Definition doneEnter (c : state) : state :=
  let text := fieldText c in
  if decide (text ≠ "") then
    let c :=
      if Go.HasPrefix text "/" then
        if commandIsNick text then (ToggleNickMode c).1 else c
      else AddToHistory text c in
    browse (-1) "" c
  else c.

(** What happens to the input field: a key reaches the capture, the field
    edits its text (a key the capture let through), Enter. *)
Inductive event :=
| EvKey (k : key)
| EvEdit (text : string)
| EvEnter.

Definition step (c : state) (e : event) : option state :=
  match e with
  | EvKey k => fst <$> inputCapture k c
  | EvEdit text => Some (browse (historyIdx c) text c)
  | EvEnter => Some (doneEnter c)
  end.

Fixpoint run (c : state) (es : list event) : option state :=
  match es with
  | [] => Some c
  | e :: es => match step c e with Some c => run c es | None => None end
  end.
End Done.

(** *** Specification-side notions *)

(** A list without its consecutive repetitions. *)
Fixpoint compress (l : list string) : list string :=
  match l with
  | [] => []
  | x :: rest =>
      match rest with
      | y :: _ => if decide (x = y) then compress rest else x :: compress rest
      | [] => [x]
      end
  end.

(** The last [n] elements. *)
Definition lastN (n : nat) (l : list string) : list string :=
  drop (length l - n) l.

End input.

(** ** Package views: the display mode *)

Module mode.




End mode.

(** ** Package views: the login view *)

Module login.

(** [colorOption] *)
Record colorOption := { name : string; tag : string; display : string }.

Definition loginColors : list colorOption :=
  [ {| name := "red"; tag := "[red]"; display := "Red" |};
    {| name := "green"; tag := "[green]"; display := "Green" |};
    {| name := "yellow"; tag := "[yellow]"; display := "Yellow" |};
    {| name := "cyan"; tag := "[cyan]"; display := "Cyan" |};
    {| name := "magenta"; tag := "[magenta]"; display := "Magenta" |};
    {| name := "blue"; tag := "[blue]"; display := "Blue" |};
    {| name := "white"; tag := "[white]"; display := "White" |} ].

(** The fields of [LoginView] that [handleEnter] reads and writes. *)
Record LoginView := {
  currentStep : Z;
  username : string;
  chosenColor : string;
}.

(** [NewLoginView] *)
Definition NewLoginView : LoginView :=
  {| currentStep := 0; username := ""; chosenColor := "[cyan]" |}.

(** [fmt.Sprintf] with the verb [%d] *)
Definition decimal (n : Z) : string := pretty n.

(** What the view does to the outside: a text handed to [typewriterText],
    a call of [onSubmit]. *)
Inductive output :=
| Typed (text : string)
| Submitted (username color : string).

(** The text [showColorPicker] types. *)
Definition colorPicker : string :=
  foldl (λ sb ic,
           sb +:+ "  [dim]" +:+ decimal (Z.of_nat ic.1 + 1) +:+ ".[white]  "
              +:+ tag ic.2 +:+ "██[-]  " +:+ tag ic.2 +:+ display ic.2 +:+ "[-]"
              +:+ Go.nl)
        (Go.nl +:+ "[cyan]Choose your chat color:[white]" +:+ Go.nl +:+ Go.nl)
        (imap (λ i c, (i, c)) loginColors)
    +:+ Go.nl +:+ "[dim]Type a number (1-7) or a color name:[white] ".

Section Strings.
(** [strings.TrimSpace] and [strings.ToLower] *)
Variable TrimSpace : string → string.
Variable ToLower : string → string.

(** The loop of [parseColorInput] from index [i] on. *)
Fixpoint colorLoop (input : string) (i : nat) (cs : list colorOption)
  : option colorOption :=
  match cs with
  | [] => None
  | c :: rest =>
      if decide (input = decimal (Z.of_nat i + 1)) then Some c
      else if decide (input = name c) then Some c
      else colorLoop input (S i) rest
  end.

(** [parseColorInput]; [None] is [nil]. *)
Definition parseColorInput (input : string) : option colorOption :=
  let input := ToLower (TrimSpace input) in
  colorLoop input 0 loginColors.

(** [handleEnter]; [raw] is [l.inputField.GetText()]. *)
Definition handleEnter (raw : string) (l : LoginView) : LoginView * list output :=
  let text := TrimSpace raw in
  if decide (currentStep l = 0) then
    if decide (text = "") then (l, [])
    else
      ({| currentStep := 1; username := text; chosenColor := chosenColor l |},
       [Typed colorPicker])
  else if decide (currentStep l = 1) then
    match parseColorInput text with
    | None =>
        (l, [Typed (Go.nl +:+ "[red]Unknown choice '" +:+ text
                      +:+ "'. Enter a number (1-"
                      +:+ decimal (Z.of_nat (length loginColors))
                      +:+ ") or a color name.[white]" +:+ Go.nl)])
    | Some chosen =>
        ({| currentStep := 2; username := username l; chosenColor := tag chosen |},
         [Typed (Go.nl +:+ tag chosen +:+ "● " +:+ display chosen
                   +:+ "[-]  [dim]— your messages will appear in this color[-]"
                   +:+ Go.nl);
          Typed (Go.nl +:+ "[cyan]Enter a password[dim] (or press Enter to skip):[white] ")])
    end
  else if decide (currentStep l = 2) then
    (l, [Submitted (username l) (chosenColor l)])
  else (l, []).

(** [StartUsernamePrompt] *)
Definition StartUsernamePrompt (l : LoginView) : LoginView * list output :=
  ({| currentStep := 0; username := username l; chosenColor := chosenColor l |},
   [Typed ("[yellow]! Establishing secure connection...[white]" +:+ Go.nl
             +:+ "[green]✓ Connection established.[white]" +:+ Go.nl +:+ Go.nl
             +:+ "[cyan]Tell us your username:[white] ")]).

(** What reaches the login view: Enter in its input field, the entry of
    the login screen. *)
Inductive event :=
| EvEnter (raw : string)
| EvStart.

Definition step (l : LoginView) (e : event) : LoginView * list output :=
  match e with
  | EvEnter raw => handleEnter raw l
  | EvStart => StartUsernamePrompt l
  end.

(** A run: the final view and everything it put out, in order. *)
Fixpoint run (l : LoginView) (es : list event) : LoginView * list output :=
  match es with
  | [] => (l, [])
  | e :: es =>
      let '(l, out) := step l e in
      let '(l, outs) := run l es in
      (l, out ++ outs)
  end.
End Strings.

End login.
(** ** The bracket escape *)

Module tview.

(** The text that an escaped text stands for: the three bytes ["[[]"] are
    one literal opening bracket, as the comment of [sanitizeContent] has
    it; every other byte is itself. *)
Fixpoint unescape (s : string) : string :=
  match s with
  | EmptyString => EmptyString
  | String c rest =>
      if decide (c = "["%char) then
        match rest with
        | String a (String b rest') =>
            if decide (a = "["%char ∧ b = "]"%char)
            then String "["%char (unescape rest')
            else String c (unescape rest)
        | _ => String c (unescape rest)
        end
      else String c (unescape rest)
  end.

End tview.

(** * Properties *)

(** ** Strings *)

Lemma append_cons (a : ascii) (s t : string) :
  String a s +:+ t = String a (s +:+ t).
Proof. reflexivity. Qed.

Lemma append_nil_l (s : string) : "" +:+ s = s.
Proof. reflexivity. Qed.

Lemma append_nil_r (s : string) : s +:+ "" = s.
Proof. induction s as [|a s IH]; [done|]. by rewrite append_cons, IH. Qed.

Lemma append_assoc (s t u : string) : (s +:+ t) +:+ u = s +:+ (t +:+ u).
Proof.
  induction s as [|a s IH]; [done|]. by rewrite !append_cons, IH.
Qed.

Lemma length_append (s t : string) :
  String.length (s +:+ t) = (String.length s + String.length t)%nat.
Proof.
  induction s as [|a s IH]; [done|]. rewrite append_cons. simpl. by rewrite IH.
Qed.

(** A non-empty string is an initial part followed by its last byte. *)
Lemma string_snoc_inv (s : string) :
  (1 ≤ String.length s)%nat →
  ∃ init last, s = init +:+ String last "" ∧
               String.length init = (String.length s - 1)%nat.
Proof.
  induction s as [|a s IH]; simpl; [lia|]. intros _.
  destruct s as [|b s].
  - exists "", a. done.
  - destruct IH as (init & last & -> & Hlen); [simpl; lia|].
    exists (String a init), last. split; [done|].
    simpl in *. rewrite length_append in *. simpl in *. lia.
Qed.

Lemma get_append_last (s : string) (c : ascii) :
  String.get (String.length s) (s +:+ String c "") = Some c.
Proof. induction s as [|a s IH]; [done|]. rewrite append_cons. by simpl. Qed.

Lemma substring_append_prefix (s t : string) :
  String.substring 0 (String.length s) (s +:+ t) = s.
Proof.
  induction s as [|a s IH].
  - by destruct t.
  - rewrite append_cons. simpl. by rewrite IH.
Qed.

Lemma ContainsAny_false (s chars : string) :
  Go.ContainsAny s chars = false ↔
  ∀ i c, String.get i s = Some c → Go.hasByte c chars = false.
Proof.
  induction s as [|a s IH]; simpl.
  - split; [|done]. by intros _ [|i] c.
  - rewrite orb_false_iff, IH. split.
    + intros [Ha Hs] [|i] c Hc; [by simplify_eq|]. by eapply Hs.
    + intros H. split; [by apply (H 0%nat)|]. intros i c Hc. by apply (H (S i)).
Qed.

Lemma hasByte_brackets (c : ascii) :
  Go.hasByte c "[]" = false ↔ c ≠ "["%char ∧ c ≠ "]"%char.
Proof.
  simpl. destruct (decide (c = "["%char)), (decide (c = "]"%char));
    intuition congruence.
Qed.

(** ** The color tag guard *)

Lemma safeColorTag_reads_in_range (tag : string) :
  ¬ (Go.len tag < 3)%nat →
  is_Some (String.get 0 tag) ∧ is_Some (String.get (Go.len tag - 1) tag).
Proof.
  unfold Go.len. intros Hlen.
  destruct (string_snoc_inv tag) as (init & last & -> & Hinit); [lia|].
  split.
  - destruct init as [|a init]; simpl; eauto.
  - rewrite <-Hinit, get_append_last. eauto.
Qed.

Lemma safeColorTag_framed (first last : ascii) (inner : string) :
  (1 ≤ String.length inner)%nat →
  views.safeColorTag (String first (inner +:+ String last "")) =
    if decide (first ≠ "["%char ∨ last ≠ "]"%char) then "[white]"
    else if Go.ContainsAny inner "[]" then "[white]"
    else String first (inner +:+ String last "").
Proof.
  intros Hlen. unfold views.safeColorTag, Go.len.
  set (tag := String first (inner +:+ String last "")).
  assert (String.length tag = S (String.length inner + 1)) as Htag.
  { unfold tag. simpl. by rewrite length_append. }
  assert (String.get (String.length tag - 1) tag = Some last) as ->.
  { rewrite Htag. unfold tag.
    replace (S (String.length inner + 1) - 1)%nat with (S (String.length inner)) by lia.
    simpl. apply get_append_last. }
  assert (String.substring 1 (String.length tag - 2) tag = inner) as ->.
  { rewrite Htag. unfold tag.
    replace (S (String.length inner + 1) - 2)%nat with (String.length inner) by lia.
    simpl. apply substring_append_prefix. }
  rewrite Htag. case_decide; [lia|]. done.
Qed.

Lemma safeColorTag_keeps (tag : string) :
  views.wellFormedTag tag → views.safeColorTag tag = tag.
Proof.
  intros (inner & -> & Hlen & Hin).
  rewrite append_cons, append_nil_l, safeColorTag_framed by done.
  case_decide as Hb; [by destruct Hb|].
  assert (Go.ContainsAny inner "[]" = false) as ->; [|done].
  apply ContainsAny_false. intros i c Hc. apply hasByte_brackets. eauto.
Qed.

Lemma safeColorTag_cases (tag : string) :
  views.safeColorTag tag = "[white]" ∨
  (views.safeColorTag tag = tag ∧ views.wellFormedTag tag).
Proof.
  destruct (decide (Go.len tag < 3)%nat) as [Hlen|Hlen].
  { left. unfold views.safeColorTag. by case_decide. }
  unfold Go.len in Hlen.
  destruct (string_snoc_inv tag) as (init & last & -> & Hinit); [lia|].
  destruct init as [|first inner]; [simpl in *; lia|].
  rewrite append_cons in *.
  assert (1 ≤ String.length inner)%nat as Hinner.
  { simpl in Hlen. rewrite length_append in Hlen. simpl in Hlen. lia. }
  rewrite safeColorTag_framed by done.
  case_decide as Hb; [by left|].
  destruct (Go.ContainsAny inner "[]") eqn:Hany; [by left|].
  right. split; [done|].
  assert (first = "["%char ∧ last = "]"%char) as [-> ->].
  { destruct (decide (first = "["%char)), (decide (last = "]"%char)); tauto. }
  exists inner. split; [done|]. split; [done|].
  intros i c Hc. apply hasByte_brackets.
  by eapply (proj1 (ContainsAny_false inner "[]")).
Qed.

Lemma white_wellFormed : views.wellFormedTag "[white]".
Proof.
  exists "white". split; [done|]. split; [simpl; lia|].
  intros i c. do 6 (destruct i as [|i]; simpl; [intros; simplify_eq; done|]). done.
Qed.

Lemma safeColorTag_wellFormed (tag : string) :
  views.wellFormedTag (views.safeColorTag tag).
Proof.
  destruct (safeColorTag_cases tag) as [-> | [-> ?]]; [apply white_wellFormed | done].
Qed.

(** ** Machine integers *)

Lemma wrapInt_unfold (z : Z) :
  Go.wrapInt z =
  (z + 9223372036854775808) mod 18446744073709551616 - 9223372036854775808.
Proof. reflexivity. Qed.

Lemma maxInt_unfold : Go.maxInt = 9223372036854775807.
Proof. reflexivity. Qed.

Lemma minInt_unfold : Go.minInt = -9223372036854775808.
Proof. reflexivity. Qed.

Lemma wrapInt_id (z : Z) : Go.minInt ≤ z ≤ Go.maxInt → Go.wrapInt z = z.
Proof.
  rewrite wrapInt_unfold, maxInt_unfold, minInt_unfold. intros H.
  rewrite Z.mod_small; lia.
Qed.

Lemma wrapInt_range (z : Z) : Go.minInt ≤ Go.wrapInt z ≤ Go.maxInt.
Proof.
  rewrite wrapInt_unfold, maxInt_unfold, minInt_unfold.
  pose proof (Z.mod_pos_bound (z + 9223372036854775808) 18446744073709551616).
  lia.
Qed.

Lemma wrapInt_add_l (a b : Z) : Go.wrapInt (Go.wrapInt a + b) = Go.wrapInt (a + b).
Proof.
  rewrite !wrapInt_unfold. f_equal.
  replace (a + b + 9223372036854775808) with ((a + 9223372036854775808) + b) by lia.
  replace ((a + 9223372036854775808) mod 18446744073709551616
             - 9223372036854775808 + b + 9223372036854775808)
    with ((a + 9223372036854775808) mod 18446744073709551616 + b) by lia.
  by rewrite Zplus_mod_idemp_l.
Qed.

(** Two exact values that are less than [2^64] apart leave different
    register contents. *)
Lemma wrapInt_apart (a n : Z) :
  0 < n < 2 ^ Go.intSize → Go.wrapInt (a + n) ≠ Go.wrapInt a.
Proof.
  rewrite !wrapInt_unfold.
  change (2 ^ Go.intSize) with 18446744073709551616. intros Hn Heq.
  assert ((a + n + 9223372036854775808) mod 18446744073709551616 =
          (a + 9223372036854775808) mod 18446744073709551616) as Hmod by lia.
  apply Z.cong_iff_0 in Hmod.
  replace (a + n + 9223372036854775808 - (a + 9223372036854775808)) with n in Hmod by lia.
  rewrite Z.mod_small in Hmod; lia.
Qed.

(** ** The render buffer *)

Lemma seq_strongly_sorted (a n : nat) : StronglySorted lt (seq a n).
Proof.
  revert a. induction n as [|n IH]; intros a; simpl; constructor; [done|].
  apply Forall_forall. intros x Hx%elem_of_seq. lia.
Qed.

Lemma seqZ_strongly_sorted (m n : Z) : StronglySorted Z.le (seqZ m n).
Proof.
  unfold seqZ. eapply StronglySorted_fmap; [|apply seq_strongly_sorted].
  intros x y Hxy. simpl. lia.
Qed.

Lemma StronglySorted_filter {A} (R : relation A) (P : A → Prop)
    `{!∀ x, Decision (P x)} (l : list A) :
  StronglySorted R l → StronglySorted R (filter P l).
Proof.
  induction 1 as [|x l Hl IH Hx]; [constructor|].
  rewrite filter_cons. case_decide; [|done].
  constructor; [done|]. apply Forall_forall. intros y [_ Hy]%list_elem_of_filter.
  rewrite Forall_forall in Hx. auto.
Qed.

(** Skipping the absent keys while folding is folding over the present ones. *)
Lemma foldl_present (m : gmap Z string) (t : string) (l : list Z) :
  foldl (λ text i, match m !! i with Some line => text +:+ line | None => text end) t l
  = foldl (λ text k, text +:+ default "" (m !! k)) t (filter (λ i, is_Some (m !! i)) l).
Proof.
  revert t. induction l as [|i l IH]; intros t; [done|].
  rewrite filter_cons. simpl. destruct (m !! i) as [line|] eqn:Hi.
  - rewrite decide_True by eauto. simpl. by rewrite Hi, IH.
  - rewrite decide_False by (by intros [? ?]). apply IH.
Qed.

(** Scanning [0 .. n-1] meets the keys of a map that lie in that range in
    ascending order. *)
Lemma present_sorted_keys (m : gmap Z string) (n : Z) :
  (∀ k, is_Some (m !! k) → 0 ≤ k < n) →
  filter (λ i, is_Some (m !! i)) (seqZ 0 n) = merge_sort Z.le (elements (dom m)).
Proof.
  intros Hkeys. apply (Sorted_unique Z.le).
  - apply StronglySorted_Sorted, StronglySorted_filter, seqZ_strongly_sorted.
  - apply Sorted_merge_sort. apply _.
  - rewrite merge_sort_Permutation. apply NoDup_Permutation.
    + apply NoDup_filter, NoDup_seqZ.
    + apply NoDup_elements.
    + intros k. rewrite list_elem_of_filter, elem_of_seqZ, elem_of_elements, elem_of_dom.
      split; [by intros [? ?]|]. intros Hk. split; [done|].
      apply Hkeys in Hk. lia.
Qed.

Lemma composeText_transcript (c : views.ChatView) :
  views.slotsInRange c → views.composeText c = views.transcript c.
Proof.
  intros Hkeys. unfold views.composeText, views.transcript, views.liveSlots.
  by rewrite foldl_present, present_sorted_keys.
Qed.

Lemma liveSlots_spec (c : views.ChatView) :
  Sorted Z.le (views.liveSlots c) ∧ NoDup (views.liveSlots c) ∧
  ∀ k, k ∈ views.liveSlots c ↔ is_Some (views.inFlight c !! k).
Proof.
  unfold views.liveSlots. split; [apply Sorted_merge_sort; apply _|]. split.
  - rewrite merge_sort_Permutation. apply NoDup_elements.
  - intros k. by rewrite merge_sort_Permutation, elem_of_elements, elem_of_dom.
Qed.

Lemma renderMessages_wf (c : views.ChatView) :
  0 ≤ views.nextAnimID c → views.slotsInRange c → views.wfView (views.renderMessages c).
Proof. intros ??. by constructor. Qed.

Lemma wfView_new : views.wfView views.NewChatView.
Proof.
  constructor; [done| |done]. intros k [x Hx]. simpl in Hx.
  by rewrite lookup_empty in Hx.
Qed.

Lemma AddMessage_wf msg c : views.wfView c → views.wfView (views.AddMessage msg c).
Proof. intros [? ? _]. by apply renderMessages_wf. Qed.

Lemma staticDraw_wf prefix content c :
  views.wfView c → views.wfView (views.staticDraw prefix content c).
Proof.
  intros Hc. unfold views.staticDraw. destruct (views.stopped c); [done|].
  destruct Hc. by apply renderMessages_wf.
Qed.

Lemma animInit_wf prefix c :
  views.wfView c → views.nextAnimID c < Go.maxInt →
  views.wfView (views.animInit prefix c).1.
Proof.
  intros Hc Hmax. unfold views.animInit. destruct (views.stopped c); [done|].
  destruct Hc as [Hcnt Hkeys _]. pose proof minInt_unfold.
  apply renderMessages_wf; simpl; rewrite wrapInt_id by lia; [lia|].
  intros k. unfold views.slotsInRange in Hkeys. simpl.
  rewrite lookup_insert. case_decide as Hk; [subst; lia|].
  intros Hin%Hkeys. lia.
Qed.

Lemma wordTick_wf animID myGen prefix snapshot isLast c :
  views.wfView c → 0 ≤ animID < views.nextAnimID c →
  views.wfView (views.wordTick animID myGen prefix snapshot isLast c).
Proof.
  intros Hc Hid. unfold views.wordTick. destruct (views.stopped c); [done|].
  case_decide; [done|]. destruct Hc as [Hcnt Hkeys _].
  destruct isLast; apply renderMessages_wf; simpl; try done.
  - intros k. simpl. rewrite lookup_delete. case_decide; [by intros [? ?]|apply Hkeys].
  - intros k. simpl. rewrite lookup_insert. case_decide; [subst; done|apply Hkeys].
Qed.

Lemma empty_slotsInRange c :
  views.inFlight c = ∅ → views.slotsInRange c.
Proof. intros He k [x Hx]. by rewrite He, lookup_empty in Hx. Qed.

Lemma SetMessages_wf messages c : views.wfView c → views.wfView (views.SetMessages messages c).
Proof.
  intros Hc. unfold views.SetMessages. destruct (views.stopped c); [done|].
  destruct Hc. apply renderMessages_wf; [done|]. by apply empty_slotsInRange.
Qed.

Lemma ClearMessages_wf c : views.wfView c → views.wfView (views.ClearMessages c).
Proof.
  intros [? ? _]. apply renderMessages_wf; [done|]. by apply empty_slotsInRange.
Qed.

(** Only the anim-init closure moves the slot counter. *)
Lemma nextAnimID_other (s : views.system) (u : views.update) :
  views.allocations [u] = 0%nat →
  views.nextAnimID (views.view (views.step s u)) = views.nextAnimID (views.view s).
Proof.
  destruct u as [msg|pfx content|pfx|task pfx snapshot isLast|messages| |anim| ];
    simpl; try done; intros _.
  - unfold views.staticDraw. by destruct (views.stopped _).
  - destruct (views.handedOut s !! task) as [slot|]; [|done].
    case_decide; [done|]. simpl. unfold views.wordTick.
    destruct (views.stopped _); [done|]. case_decide; [done|]. by destruct isLast.
  - unfold views.SetMessages. by destruct (views.stopped _).
Qed.

Lemma nextAnimID_animInit (pfx : string) (c : views.ChatView) :
  0 ≤ views.nextAnimID c < Go.maxInt →
  views.nextAnimID (views.animInit pfx c).1 =
    if views.stopped c then views.nextAnimID c else views.nextAnimID c + 1.
Proof.
  intros Hrange. unfold views.animInit. destruct (views.stopped c); [done|]. simpl.
  apply wrapInt_id. pose proof minInt_unfold. lia.
Qed.

Lemma step_animInit (s : views.system) (pfx : string) :
  views.step s (views.UAnimInit pfx) =
    {| views.view := (views.animInit pfx (views.view s)).1;
       views.handedOut :=
         views.handedOut s ++ [(views.animInit pfx (views.view s)).2] |}.
Proof. simpl. by destruct (views.animInit pfx (views.view s)). Qed.

Lemma inv_start : views.inv views.start.
Proof.
  constructor; simpl.
  - apply wfView_new.
  - by intros slot ?%elem_of_nil.
  - intros i j si sj _ Hi. by rewrite lookup_nil in Hi.
Qed.

Lemma inv_withView (s : views.system) (c : views.ChatView) :
  views.inv s → views.wfView c → views.nextAnimID c = views.nextAnimID (views.view s) →
  views.inv (views.withView s c).
Proof.
  intros [Hv Hh Ho] Hc Hn. constructor; simpl; [done| |done].
  intros slot Hslot. rewrite Hn. by apply Hh.
Qed.

(** A slot appended to the record keeps it ordered when its id is negative
    (nothing was allocated) or is the old value of the counter. *)
Lemma inv_hand_out (s : views.system) (c : views.ChatView) (slot : views.animSlot) :
  views.inv s → views.wfView c →
  views.nextAnimID (views.view s) ≤ views.nextAnimID c →
  views.id slot < views.nextAnimID c →
  (0 ≤ views.id slot → views.id slot = views.nextAnimID (views.view s)) →
  views.inv {| views.view := c; views.handedOut := views.handedOut s ++ [slot] |}.
Proof.
  intros [Hv Hh Ho] Hc Hle Hlt Hnew. constructor; simpl; [done| |].
  - intros x [Hx%Hh| ->%list_elem_of_singleton]%elem_of_app; lia.
  - intros i j si sj Hij Hi Hj Hsj.
    destruct (decide (j < length (views.handedOut s))%nat).
    + rewrite lookup_app_l in Hi, Hj by lia. eauto.
    + rewrite lookup_app_r in Hj by lia.
      apply list_lookup_singleton_Some in Hj as [Hjl <-].
      rewrite lookup_app_l in Hi by lia. rewrite Hnew by done.
      apply Hh. by eapply list_elem_of_lookup_2.
Qed.

Lemma step_inv (s : views.system) (u : views.update) :
  views.inv s →
  views.nextAnimID (views.view s) + Z.of_nat (views.allocations [u]) ≤ Go.maxInt →
  views.inv (views.step s u) ∧
  views.nextAnimID (views.view s) ≤ views.nextAnimID (views.view (views.step s u))
    ≤ views.nextAnimID (views.view s) + Z.of_nat (views.allocations [u]).
Proof.
  intros Hs Hmax. pose proof (views.wf_counter _ (views.inv_view _ Hs)) as Hpos.
  destruct (decide (views.allocations [u] = 0%nat)) as [Hu|Hu].
  - pose proof (nextAnimID_other s u Hu) as Hnext. split; [|lia].
    destruct u as [msg|pfx content|pfx|task pfx snapshot isLast|messages| |anim| ];
      simpl in *; try done.
    + apply inv_withView; [done| |done]. apply AddMessage_wf, (views.inv_view _ Hs).
    + apply inv_withView; [done| |done]. apply staticDraw_wf, (views.inv_view _ Hs).
    + destruct (views.handedOut s !! task) as [slot|] eqn:Hslot; [|done].
      case_decide; [done|]. apply inv_withView; [done| |done].
      apply wordTick_wf; [apply (views.inv_view _ Hs)|]. split; [lia|].
      apply (views.inv_handed _ Hs). by eapply list_elem_of_lookup_2.
    + apply inv_withView; [done| |done]. apply SetMessages_wf, (views.inv_view _ Hs).
    + apply inv_withView; [done| |done]. apply ClearMessages_wf, (views.inv_view _ Hs).
    + apply inv_withView; [done| |done]. destruct Hs as [[? ? ?] _ _]. by constructor.
    + apply inv_withView; [done| |done]. destruct Hs as [[? ? ?] _ _]. by constructor.
  - destruct u as [msg|pfx content|pfx|task pfx snapshot isLast|messages| |anim| ];
      simpl in Hu; try done. simpl in Hmax.
    assert (0 ≤ views.nextAnimID (views.view s) < Go.maxInt) as Hrange by lia.
    pose proof (nextAnimID_animInit pfx _ Hrange) as Hnext.
    pose proof (animInit_wf pfx _ (views.inv_view _ Hs) (proj2 Hrange)) as Hwf.
    rewrite step_animInit. simpl.
    assert (views.id (views.animInit pfx (views.view s)).2
              < views.nextAnimID (views.animInit pfx (views.view s)).1 ∧
            (0 ≤ views.id (views.animInit pfx (views.view s)).2 →
             views.id (views.animInit pfx (views.view s)).2
               = views.nextAnimID (views.view s))) as [Hlt Hnew].
    { rewrite Hnext. unfold views.animInit.
      destruct (views.stopped (views.view s)); simpl; lia. }
    split.
    + apply inv_hand_out; try done. destruct (views.stopped _); lia.
    + destruct (views.stopped _); lia.
Qed.

Lemma allocations_cons (u : views.update) (us : list views.update) :
  views.allocations (u :: us) = (views.allocations [u] + views.allocations us)%nat.
Proof. by destruct u. Qed.

Lemma allocations_app (us1 us2 : list views.update) :
  views.allocations (us1 ++ us2) = (views.allocations us1 + views.allocations us2)%nat.
Proof.
  induction us1 as [|u us1 IH]; [done|].
  rewrite <-app_comm_cons, (allocations_cons u us1), allocations_cons, IH. lia.
Qed.

Lemma run_app (s : views.system) (us1 us2 : list views.update) :
  views.run s (us1 ++ us2) = views.run (views.run s us1) us2.
Proof. apply foldl_app. Qed.

(** The invariant along a run that does not exhaust the range of [int]. *)
Lemma run_inv (us : list views.update) (s : views.system) :
  views.inv s →
  views.nextAnimID (views.view s) + Z.of_nat (views.allocations us) ≤ Go.maxInt →
  views.inv (views.run s us) ∧
  views.nextAnimID (views.view s) ≤ views.nextAnimID (views.view (views.run s us))
    ≤ views.nextAnimID (views.view s) + Z.of_nat (views.allocations us).
Proof.
  revert s. induction us as [|u us IH]; intros s Hs Hmax.
  { simpl in *. split; [done|lia]. }
  rewrite allocations_cons in *.
  change (views.run s (u :: us)) with (views.run (views.step s u) us).
  destruct (step_inv s u) as [Hinv Hstep]; [done|lia|].
  destruct (IH (views.step s u)) as [Hinv' Hcnt]; [done|lia|].
  split; [done|lia].
Qed.

(** ** Generations *)

Lemma wordTick_stale animID myGen pfx snapshot isLast (c : views.ChatView) :
  views.inFlightGen c ≠ myGen →
  views.wordTick animID myGen pfx snapshot isLast c = c.
Proof.
  intros Hgen. unfold views.wordTick. destruct (views.stopped c); [done|].
  by rewrite decide_True.
Qed.

Lemma wrapInt_succ_ne (g : Z) : Go.wrapInt (g + 1) ≠ g.
Proof.
  intros Heq. pose proof (wrapInt_range (g + 1)) as Hr. rewrite Heq in Hr.
  apply (wrapInt_apart g 1); [done|]. by rewrite Heq, wrapInt_id.
Qed.

Lemma ClearMessages_gen (c : views.ChatView) :
  views.inFlightGen (views.ClearMessages c) = Go.wrapInt (views.inFlightGen c + 1).
Proof. done. Qed.

(** Only [ClearMessages] changes the generation. *)
Lemma inFlightGen_step (s : views.system) (u : views.update) :
  views.inFlightGen (views.view (views.step s u)) =
    match u with
    | views.UClearMessages => Go.wrapInt (views.inFlightGen (views.view s) + 1)
    | _ => views.inFlightGen (views.view s)
    end.
Proof.
  destruct u as [msg|pfx content|pfx|task pfx snapshot isLast|messages| |anim| ];
    try rewrite step_animInit; simpl; try done.
  - unfold views.staticDraw. by destruct (views.stopped _).
  - unfold views.animInit. by destruct (views.stopped _).
  - destruct (views.handedOut s !! task) as [slot|]; [|done].
    case_decide; [done|]. simpl. unfold views.wordTick.
    destruct (views.stopped _); [done|]. case_decide; [done|]. by destruct isLast.
  - unfold views.SetMessages. by destruct (views.stopped _).
Qed.

Lemma clears_cons (u : views.update) (us : list views.update) :
  views.clears (u :: us) = (views.clears [u] + views.clears us)%nat.
Proof. by destruct u. Qed.

(** After [n > 0] clears the register holds the wrapped sum. *)
Lemma inFlightGen_run (us : list views.update) (s : views.system) :
  views.inFlightGen (views.view (views.run s us)) =
    if decide (views.clears us = 0%nat) then views.inFlightGen (views.view s)
    else Go.wrapInt (views.inFlightGen (views.view s) + Z.of_nat (views.clears us)).
Proof.
  revert s. induction us as [|u us IH]; intros s; [done|].
  change (views.run s (u :: us)) with (views.run (views.step s u) us).
  rewrite IH, inFlightGen_step, clears_cons.
  destruct u as [msg|pfx content|pfx|task pfx snapshot isLast|messages| |anim| ];
    try done.
  change (views.clears [views.UClearMessages]) with 1%nat.
  rewrite (decide_False (P := (1 + _)%nat = 0%nat)) by lia.
  case_decide as Hus.
  - rewrite Hus. f_equal.
  - rewrite wrapInt_add_l. f_equal. lia.
Qed.

(** The record of handed-out slots only grows, at its end. *)
Lemma handedOut_step (s : views.system) (u : views.update) :
  ∃ new, views.handedOut (views.step s u) = views.handedOut s ++ new.
Proof.
  destruct u as [msg|pfx content|pfx|task pfx snapshot isLast|messages| |anim| ];
    try (exists []; simpl; by rewrite app_nil_r).
  - rewrite step_animInit. by eexists.
  - exists []. simpl. rewrite app_nil_r.
    destruct (views.handedOut s !! task) as [slot|]; [|done]. by case_decide.
Qed.

Lemma handedOut_run (us : list views.update) (s : views.system) :
  ∃ new, views.handedOut (views.run s us) = views.handedOut s ++ new.
Proof.
  revert s. induction us as [|u us IH]; intros s.
  { exists []. simpl. by rewrite app_nil_r. }
  change (views.run s (u :: us)) with (views.run (views.step s u) us).
  destruct (IH (views.step s u)) as [new2 ->].
  destruct (handedOut_step s u) as [new1 ->].
  exists (new1 ++ new2). by rewrite app_assoc.
Qed.

(** A word-tick of a task whose slot was allocated before [n] later clears,
    [0 < n < 2^64], finds another generation and changes nothing. *)
Lemma stale_task_tick (s : views.system) (pfx : string) (us : list views.update)
    (pfx' snapshot : string) (isLast : bool) :
  (0 < Z.of_nat (views.clears us) < 2 ^ Go.intSize) →
  let s' := views.run (views.step s (views.UAnimInit pfx)) us in
  views.step s' (views.UWordTick (length (views.handedOut s)) pfx' snapshot isLast) = s'.
Proof.
  intros Hn s'. simpl.
  destruct (handedOut_run us (views.step s (views.UAnimInit pfx))) as [new Hnew].
  fold s' in Hnew. rewrite step_animInit in Hnew. simpl in Hnew.
  assert (views.handedOut s' !! length (views.handedOut s)
          = Some (views.animInit pfx (views.view s)).2) as ->.
  { rewrite Hnew, <-app_assoc. rewrite lookup_app_r by done.
    by rewrite Nat.sub_diag. }
  case_decide as Hid; [done|].
  rewrite wordTick_stale; [by destruct s'|].
  unfold s'. rewrite inFlightGen_run, decide_False by lia.
  rewrite inFlightGen_step. unfold views.animInit in *.
  destruct (views.stopped (views.view s)); simpl in Hid |- *; [lia|].
  set (g := views.inFlightGen (views.view s)).
  destruct (decide (Go.minInt ≤ g ≤ Go.maxInt)) as [Hg|Hg].
  - rewrite <-(wrapInt_id g) at 2 by done. by apply wrapInt_apart.
  - intros Heq. apply Hg. rewrite <-Heq. apply wrapInt_range.
Qed.

(** ** Claims about the chat view *)

(** C9: [safeColorTag] is total; it returns its argument when the argument
    is an opening bracket, a non-empty interior free of brackets and a
    closing bracket, and ["[white]"] in every other case.  Hence the tag it
    returns is always well formed, and so is every color tag that
    [AddIncomingMessage] and [formatLine] interpolate into a line, whatever
    the wire supplied. *)
Theorem safeColorTag_only_wellformed_tags :
  (∀ tag,
     (views.wellFormedTag tag ∧ views.safeColorTag tag = tag) ∨
     (¬ views.wellFormedTag tag ∧ views.safeColorTag tag = "[white]")) ∧
  (∀ tag, views.wellFormedTag (views.safeColorTag tag)) ∧
  (∀ GetUsernameColor ParseColorToTag username colorTag,
     views.wellFormedTag
       (views.incomingColorTag GetUsernameColor ParseColorToTag username colorTag)) ∧
  (∀ msg,
     views.formatLine msg =
       if views.IsSystem msg then
         "[yellow]▸ " +:+ views.Content msg +:+ "[-]" +:+ Go.nl
       else
         let color := views.safeColorTag (views.Color msg) in
         "[gray][" +:+ views.FormattedTime msg +:+ "][-] " +:+ color +:+ "[[]"
           +:+ views.sanitizeContent (views.Username msg) +:+ "][-] " +:+ color
           +:+ views.sanitizeContent (views.Content msg) +:+ "[-]" +:+ Go.nl).
Proof.
  split; [|split; [|split]].
  - intros tag. destruct (decide (tag = "[white]")) as [->|Hne].
    { left. split; [apply white_wellFormed|done]. }
    destruct (safeColorTag_cases tag) as [Hw|[Hk Hwf]].
    + right. split; [|done]. intros Hwf%safeColorTag_keeps. congruence.
    + by left.
  - apply safeColorTag_wellFormed.
  - intros. apply safeColorTag_wellFormed.
  - intros msg. unfold views.formatLine. destruct (views.IsSystem msg); [done|].
    simpl. case_decide as He; [|done].
    pose proof (safeColorTag_wellFormed (views.Color msg)) as (inner & Hi & _).
    by rewrite He in Hi.
Qed.

(** C4: between any two updates of the event loop the text of the message
    view is the committed buffer followed by the text of every live
    in-flight slot in ascending slot-id order; every update (append, static
    draw, slot allocation, word update, commit, clear, bulk replace)
    re-establishes the equation, as long as the slot counter stays within
    the range of [int]. *)
Theorem visible_text_is_committed_then_slots (us : list views.update) :
  Z.of_nat (views.allocations us) ≤ Go.maxInt →
  let c := views.view (views.run views.start us) in
  views.messageView c = views.transcript c ∧
  Sorted Z.le (views.liveSlots c) ∧ NoDup (views.liveSlots c) ∧
  (∀ k, k ∈ views.liveSlots c ↔ is_Some (views.inFlight c !! k)).
Proof.
  intros Hmax c.
  destruct (run_inv us views.start inv_start) as [[[_ Hkeys Hshown] _ _] _];
    [simpl; lia|].
  split; [|apply liveSlots_spec].
  fold c in Hkeys, Hshown. by rewrite Hshown, composeText_transcript.
Qed.

(** C10: the slot counter never decreases along a run and no update resets
    it, [ClearMessages] and [SetMessages] included; the ids handed to the
    animation goroutines are therefore strictly increasing in allocation
    order, across clears as well, so that two animation tasks never share a
    slot key, and a word-tick touches no key but its own (as long as the
    counter stays within the range of [int]). *)
Theorem slot_ids_strictly_increase (us : list views.update) :
  Z.of_nat (views.allocations us) ≤ Go.maxInt →
  let s := views.run views.start us in
  (∀ us1 us2, us = us1 ++ us2 →
     views.nextAnimID (views.view (views.run views.start us1))
       ≤ views.nextAnimID (views.view s)) ∧
  (∀ c, views.nextAnimID (views.ClearMessages c) = views.nextAnimID c) ∧
  (∀ messages c, views.nextAnimID (views.SetMessages messages c) = views.nextAnimID c) ∧
  (∀ i j si sj, (i < j)%nat →
     views.handedOut s !! i = Some si → views.handedOut s !! j = Some sj →
     0 ≤ views.id sj → views.id si < views.id sj) ∧
  (∀ i j si sj, i ≠ j →
     views.handedOut s !! i = Some si → views.handedOut s !! j = Some sj →
     0 ≤ views.id si → 0 ≤ views.id sj → views.id si ≠ views.id sj) ∧
  (∀ animID myGen pfx snapshot isLast c k, k ≠ animID →
     views.inFlight (views.wordTick animID myGen pfx snapshot isLast c) !! k
       = views.inFlight c !! k).
Proof.
  intros Hmax s.
  destruct (run_inv us views.start inv_start) as [Hinv _]; [simpl; lia|].
  fold s in Hinv.
  assert (∀ i j si sj, (i < j)%nat →
     views.handedOut s !! i = Some si → views.handedOut s !! j = Some sj →
     0 ≤ views.id sj → views.id si < views.id sj) as Horder by apply Hinv.
  split; [|split; [|split; [|split; [|split]]]]; try done.
  - intros us1 us2 ->. unfold s. rewrite run_app. rewrite allocations_app in Hmax.
    destruct (run_inv us1 views.start inv_start) as [Hinv1 Hcnt1]; [simpl; lia|].
    change (views.nextAnimID (views.view views.start)) with 0 in Hcnt1.
    destruct (run_inv us2 (views.run views.start us1) Hinv1) as [_ Hcnt2]; lia.
  - intros messages c. unfold views.SetMessages. by destruct (views.stopped c).
  - intros i j si sj Hij Hi Hj Hsi Hsj.
    destruct (decide (i < j)%nat).
    + pose proof (Horder i j si sj ltac:(done) Hi Hj Hsj). lia.
    + pose proof (Horder j i sj si ltac:(lia) Hj Hi Hsi). lia.
  - intros animID myGen pfx snapshot isLast c k Hk. unfold views.wordTick.
    destruct (views.stopped c); [done|]. case_decide; [done|].
    destruct isLast; simpl.
    + by rewrite lookup_delete_ne.
    + by rewrite lookup_insert_ne.
Qed.

(** C2: a word-tick whose captured generation differs from the current one
    changes nothing, whether it is a slot update or the final commit;
    [ClearMessages] always changes the generation; and once a slot has been
    allocated, after any run of further updates that contains a clear
    (fewer than [2^64] of them), every word-tick of that task leaves the
    whole state, slot map, committed buffer and visible text, as it was. *)
Theorem stale_generation_ticks_are_noops :
  (∀ animID myGen pfx snapshot isLast c,
     views.inFlightGen c ≠ myGen →
     views.wordTick animID myGen pfx snapshot isLast c = c) ∧
  (∀ c, views.inFlightGen (views.ClearMessages c) ≠ views.inFlightGen c) ∧
  (∀ s pfx us pfx' snapshot isLast,
     0 < Z.of_nat (views.clears us) < 2 ^ Go.intSize →
     let s' := views.run (views.step s (views.UAnimInit pfx)) us in
     views.step s' (views.UWordTick (length (views.handedOut s)) pfx' snapshot isLast)
       = s').
Proof.
  split; [|split].
  - intros. by apply wordTick_stale.
  - intros c. rewrite ClearMessages_gen. apply wrapInt_succ_ne.
  - intros. by apply stale_task_tick.
Qed.


(** ** The poll loop *)

Section PollLoop.
Import controllers.
Context (rt : runtime).

Lemma minDur_min (a b : Z) : minDur a b = Z.min a b.
Proof. unfold minDur. case_decide; lia. Qed.

Lemma Second_unfold : Second = 1000000000.
Proof. reflexivity. Qed.

Lemma maxBackoff_unfold : maxBackoff = 30000000000.
Proof. reflexivity. Qed.

(** Whether [poll] fails depends on the outcome of the request only, and a
    failing poll leaves the client as it was. *)
Lemma failed_indep (c c' : NetworkClient) (o : httpOutcome) :
  failed rt c o = failed rt c' o.
Proof.
  unfold failed, poll. destruct o as [| |code [body|]]; try done;
    repeat case_decide; try done; by destruct (parsePollMessages rt body).
Qed.

Lemma poll_failed (c : NetworkClient) (o : httpOutcome) :
  failed rt c o = true → (poll rt c o).1 = c ∧ (poll rt c o).2.1 = None.
Proof.
  unfold failed, poll. destruct o as [| |code [body|]]; try done;
    repeat case_decide; try done; by destruct (parsePollMessages rt body).
Qed.

Lemma poll_result (c : NetworkClient) (o : httpOutcome) :
  (poll rt c o).2.2 = None ↔ failed rt c o = false.
Proof. unfold failed. by destruct ((poll rt c o).2.2). Qed.

Lemma poll_keeps (c : NetworkClient) (o : httpOutcome) :
  serverURL (poll rt c o).1 = serverURL c ∧
  onStatusChange (poll rt c o).1 = onStatusChange c ∧
  onMessage (poll rt c o).1 = onMessage c ∧
  sentIDs (poll rt c o).1 = sentIDs c ∧
  stopped (poll rt c o).1 = stopped c.
Proof.
  unfold poll. destruct o as [| |code [body|]]; try done; repeat case_decide; try done.
  destruct (parsePollMessages rt body) as [msgs|]; [|done]. simpl.
  case_decide; [|done]. by destruct (list.last msgs).
Qed.

Lemma handleIncoming_keeps (c : NetworkClient) (msg : pollMessage rt) :
  serverURL (handleIncoming rt c msg).1 = serverURL c ∧
  onStatusChange (handleIncoming rt c msg).1 = onStatusChange c ∧
  onMessage (handleIncoming rt c msg).1 = onMessage c ∧
  lastID (handleIncoming rt c msg).1 = lastID c ∧
  stopped (handleIncoming rt c msg).1 = stopped c.
Proof. unfold handleIncoming. by case_bool_decide. Qed.

Lemma handleIncoming_calls (c : NetworkClient) (msg : pollMessage rt) :
  statusCalls (handleIncoming rt c msg).2 = [].
Proof.
  unfold handleIncoming. case_bool_decide; [done|]. simpl.
  by destruct (onMessage c).
Qed.

(** The dispatch loop, one message at a time. *)
Lemma dispatch_acc (c : NetworkClient) (acc : list call) (msgs : list (pollMessage rt)) :
  foldl (λ '(c, calls) msg,
           let '(c, cs) := handleIncoming rt c msg in (c, calls ++ cs))
        (c, acc) msgs
  = ((dispatch rt c msgs).1, acc ++ (dispatch rt c msgs).2).
Proof.
  unfold dispatch. revert c acc. induction msgs as [|m msgs IH]; intros c acc; simpl.
  { by rewrite app_nil_r. }
  destruct (handleIncoming rt c m) as [c1 cs1]. simpl.
  rewrite (IH c1 cs1), (IH c1 (acc ++ cs1)). simpl. by rewrite app_assoc.
Qed.

Lemma dispatch_nil (c : NetworkClient) : dispatch rt c [] = (c, []).
Proof. done. Qed.

Lemma dispatch_cons (c : NetworkClient) (m : pollMessage rt) (msgs : list (pollMessage rt)) :
  dispatch rt c (m :: msgs) =
    ((dispatch rt (handleIncoming rt c m).1 msgs).1,
     (handleIncoming rt c m).2 ++ (dispatch rt (handleIncoming rt c m).1 msgs).2).
Proof.
  unfold dispatch at 1. simpl. destruct (handleIncoming rt c m) as [c1 cs1]. simpl.
  apply dispatch_acc.
Qed.

Lemma dispatch_keeps (c : NetworkClient) (msgs : list (pollMessage rt)) :
  serverURL (dispatch rt c msgs).1 = serverURL c ∧
  onStatusChange (dispatch rt c msgs).1 = onStatusChange c ∧
  onMessage (dispatch rt c msgs).1 = onMessage c ∧
  lastID (dispatch rt c msgs).1 = lastID c ∧
  stopped (dispatch rt c msgs).1 = stopped c.
Proof.
  revert c. induction msgs as [|m msgs IH]; intros c; [done|].
  rewrite dispatch_cons. simpl.
  destruct (IH (handleIncoming rt c m).1) as (-> & -> & -> & -> & ->).
  apply handleIncoming_keeps.
Qed.

Lemma statusCalls_app (l k : list call) :
  statusCalls (l ++ k) = statusCalls l ++ statusCalls k.
Proof. apply filter_app. Qed.

Lemma dispatch_calls (c : NetworkClient) (msgs : list (pollMessage rt)) :
  statusCalls (dispatch rt c msgs).2 = [].
Proof.
  revert c. induction msgs as [|m msgs IH]; intros c; [done|].
  rewrite dispatch_cons. simpl. by rewrite statusCalls_app, handleIncoming_calls, IH.
Qed.

Lemma statusCalls_notifyStatus (c : NetworkClient) (connected : bool) (msg : string) :
  statusCalls (notifyStatus c connected msg) = notifyStatus c connected msg.
Proof. unfold notifyStatus. by destruct (onStatusChange c). Qed.

(** A failed cycle: the client is untouched, the error is reported on the
    first connection attempt or when the connection was up, and the delay
    is doubled up to the cap once it has run out. *)
Lemma cycle_failed (c : NetworkClient) (v : loopVars) (o : httpOutcome) :
  failed rt c o = true →
  cycle rt (c, v) o =
    (c,
     {| backoff := minDur (Go.wrapInt (backoff v * 2)) maxBackoff;
        firstConnect := firstConnect v; wasConnected := false |},
     if firstConnect v then
       notifyStatus c false ("Cannot reach server at " +:+ serverURL c)
     else if wasConnected v then
       notifyStatus c false
         ("Connection lost — reconnecting in "
            +:+ formatDuration rt (backoff v) +:+ "…")
     else []).
Proof.
  intros Hf. destruct (poll_failed c o Hf) as [Hc Hm].
  unfold failed in Hf. unfold cycle, afterPoll, pollReturned. simpl.
  destruct (poll rt c o) as [c' [msgs [e|]]]; [|done]. simpl in *. by subst.
Qed.

(** A successful cycle: the delay is back at one second and the connection
    is reported unless it was already up. *)
Lemma cycle_succeeded (c : NetworkClient) (v : loopVars) (o : httpOutcome) :
  failed rt c o = false →
  (cycle rt (c, v) o).1.2 =
    {| backoff := 1 * Second; firstConnect := false; wasConnected := true |} ∧
  statusCalls (cycle rt (c, v) o).2 =
    (if firstConnect v || negb (wasConnected v) then
       notifyStatus c true ("Connected to relay at " +:+ serverURL c)
     else []) ∧
  serverURL (cycle rt (c, v) o).1.1 = serverURL c ∧
  onStatusChange (cycle rt (c, v) o).1.1 = onStatusChange c.
Proof.
  intros Hf. unfold failed in Hf. unfold cycle, afterPoll, pollReturned. simpl.
  destruct (poll_keeps c o) as (Hurl & Hst & _).
  destruct (poll rt c o) as [c' [msgs [e|]]]; [done|]. simpl in *.
  assert (∀ b m, notifyStatus c' b m = notifyStatus c b m) as Hn.
  { intros b m. unfold notifyStatus. by rewrite Hst. }
  rewrite Hurl, Hn.
  assert (statusCalls
            (if firstConnect v || negb (wasConnected v)
             then notifyStatus c true ("Connected to relay at " +:+ serverURL c)
             else [])
          = (if firstConnect v || negb (wasConnected v)
             then notifyStatus c true ("Connected to relay at " +:+ serverURL c)
             else [])) as Hs.
  { destruct (firstConnect v || negb (wasConnected v));
      [apply statusCalls_notifyStatus|done]. }
  destruct msgs as [[|m msgs]|]; simpl; try done.
  destruct (dispatch_keeps c' (m :: msgs)) as (Hurl' & Hst' & _).
  pose proof (dispatch_calls c' (m :: msgs)) as Hcalls.
  destruct (dispatch rt c' (m :: msgs)) as [c'' delivered]. simpl in *.
  rewrite statusCalls_app, Hcalls, app_nil_r, Hurl', Hst'. done.
Qed.

Lemma cycles_snoc (st : NetworkClient * loopVars) (os : list httpOutcome) (o : httpOutcome) :
  cycles rt st (os ++ [o]) = (cycle rt (cycles rt st os) o).1.
Proof. unfold cycles. by rewrite foldl_snoc. Qed.

(** What the loop variables record of the cycles so far. *)
Lemma cycles_history (c0 : NetworkClient) (os : list httpOutcome) :
  let st := cycles rt (c0, initVars) os in
  firstConnect st.2 = negb (existsb (λ p, negb (failed rt c0 p)) os) ∧
  wasConnected st.2 = from_option (λ p, negb (failed rt c0 p)) false (list.last os) ∧
  1 * Second ≤ backoff st.2 ≤ 30 * Second ∧
  serverURL st.1 = serverURL c0 ∧
  onStatusChange st.1 = onStatusChange c0.
Proof.
  induction os as [|o os IH] using rev_ind.
  { simpl. rewrite Second_unfold. repeat split; lia. }
  rewrite cycles_snoc, existsb_app, last_snoc. simpl.
  destruct (cycles rt (c0, initVars) os) as [c v]. simpl in IH.
  destruct IH as (Hfirst & Hwas & Hback & Hurl & Hst).
  rewrite (failed_indep c0 c o), orb_false_r.
  destruct (failed rt c o) eqn:Hf.
  - rewrite (cycle_failed c v o Hf). simpl. rewrite orb_false_r.
    repeat split; try done.
    + rewrite minDur_min, Second_unfold, maxBackoff_unfold in *.
      rewrite wrapInt_id by (rewrite minInt_unfold, maxInt_unfold; lia). lia.
    + rewrite minDur_min, Second_unfold, maxBackoff_unfold in *. lia.
  - destruct (cycle_succeeded c v o Hf) as (-> & _ & -> & ->). simpl.
    rewrite orb_true_r, Second_unfold. repeat split; try done; lia.
Qed.

(** C3: the reconnect delay starts at one second; a failed poll cycle
    doubles it, up to thirty seconds, so that it never decreases across
    consecutive failures and never exceeds the cap ([k] failures in a row
    multiply it by [2^k], up to the cap); a successful poll cycle sets it
    back to one second. *)
Theorem backoff_doubles_to_cap_and_resets (c0 : NetworkClient) (os : list httpOutcome) :
  let st := cycles rt (c0, initVars) os in
  backoff initVars = 1 * Second ∧
  1 * Second ≤ backoff st.2 ≤ 30 * Second ∧
  (∀ o, if failed rt c0 o then
          backoff (cycle rt st o).1.2 = Z.min (2 * backoff st.2) (30 * Second) ∧
          backoff st.2 ≤ backoff (cycle rt st o).1.2
        else backoff (cycle rt st o).1.2 = 1 * Second) ∧
  (∀ fs, Forall (λ o, failed rt c0 o = true) fs →
     backoff (cycles rt st fs).2
       = Z.min (2 ^ Z.of_nat (length fs) * backoff st.2) (30 * Second)).
Proof.
  intros st.
  assert (∀ os', 1 * Second ≤ backoff (cycles rt (c0, initVars) os').2 ≤ 30 * Second)
    as Hbound by (intros os'; apply cycles_history).
  split; [done|]. split; [apply Hbound|]. split.
  - intros o. pose proof (Hbound os) as Hb. pose proof (Hbound (os ++ [o])) as Hb'.
    rewrite cycles_snoc in Hb'. fold st in Hb, Hb'.
    destruct st as [c v] eqn:Hst. simpl in *.
    rewrite (failed_indep c0 c o). destruct (failed rt c o) eqn:Hf.
    + rewrite (cycle_failed c v o Hf) in *. simpl in *.
      rewrite minDur_min, Second_unfold, maxBackoff_unfold in *.
      rewrite wrapInt_id in * by (rewrite minInt_unfold, maxInt_unfold; lia). lia.
    + by destruct (cycle_succeeded c v o Hf) as (-> & _).
  - induction fs as [|o fs IH] using rev_ind; intros Hfs.
    { simpl. pose proof (Hbound os). fold st in H. lia. }
    apply Forall_app in Hfs as [Hfs Ho]. rewrite Forall_singleton in Ho.
    rewrite cycles_snoc, length_app, Nat2Z.inj_add, Z.pow_add_r by lia. simpl length.
    specialize (IH Hfs).
    pose proof (Hbound (os ++ fs)) as Hb. unfold cycles in Hb. rewrite foldl_app in Hb.
    pose proof (Hbound os) as Hb0. fold (cycles rt (c0, initVars) os) in Hb. fold st in Hb, Hb0.
    fold (cycles rt st fs) in Hb.
    destruct (cycles rt st fs) as [c v]. simpl in *.
    rewrite (failed_indep c0 c o) in Ho. rewrite (cycle_failed c v o Ho). simpl.
    rewrite minDur_min, Second_unfold, maxBackoff_unfold in *.
    rewrite wrapInt_id by (rewrite minInt_unfold, maxInt_unfold; lia).
    rewrite IH. change (2 ^ Z.of_nat 1) with 2.
    assert (0 < 2 ^ Z.of_nat (length fs)) by (apply Z.pow_pos_nonneg; lia). nia.
Qed.

(** C5, as the code has it: a successful cycle calls [onStatusChange]
    exactly when the cycle before it was not successful or there was none
    (the edge to connected); a failed cycle calls it when the cycle before
    it was successful (the edge to disconnected), and, as long as no poll
    has succeeded yet, on every failed cycle; no other cycle calls it. *)
Theorem status_fires_on_edges_or_before_first_connection
    (c0 : NetworkClient) (os : list httpOutcome) (o : httpOutcome) :
  let st := cycles rt (c0, initVars) os in
  let everConnected := existsb (λ p, negb (failed rt c0 p)) os in
  let connectedBefore :=
    from_option (λ p, negb (failed rt c0 p)) false (list.last os) in
  statusCalls (cycle rt st o).2 =
    if failed rt c0 o then
      if negb everConnected then
        notifyStatus c0 false ("Cannot reach server at " +:+ serverURL c0)
      else if connectedBefore then
        notifyStatus c0 false
          ("Connection lost — reconnecting in "
             +:+ formatDuration rt (backoff st.2) +:+ "…")
      else []
    else if connectedBefore then []
    else notifyStatus c0 true ("Connected to relay at " +:+ serverURL c0).
Proof.
  intros st everConnected connectedBefore.
  destruct (cycles_history c0 os) as (Hfirst & Hwas & _ & Hurl & Hst).
  fold st everConnected connectedBefore in Hfirst, Hwas, Hurl, Hst.
  destruct st as [c v]. simpl in *.
  assert (∀ b m, notifyStatus c b m = notifyStatus c0 b m) as Hn.
  { intros b m. unfold notifyStatus. by rewrite Hst. }
  rewrite (failed_indep c0 c o). destruct (failed rt c o) eqn:Hf.
  - rewrite (cycle_failed c v o Hf). simpl. rewrite Hfirst, Hwas, Hurl, !Hn.
    destruct (negb everConnected), connectedBefore;
      by rewrite ?statusCalls_notifyStatus.
  - destruct (cycle_succeeded c v o Hf) as (_ & -> & _).
    rewrite Hfirst, Hwas, Hurl, Hn.
    assert (connectedBefore = true → everConnected = true) as Himp.
    { unfold connectedBefore, everConnected. intros Hl.
      destruct (list.last os) as [p|] eqn:Hlast; [|done]. simpl in Hl.
      apply existsb_exists. exists p. split; [|done].
      apply list_elem_of_In. by apply last_Some_elem_of. }
    destruct connectedBefore; [by rewrite Himp|]. by rewrite orb_true_r.
Qed.

End PollLoop.

(** C5, as stated, fails: when the relay is unreachable from the start,
    two failed cycles in a row both call [onStatusChange]. *)
Lemma status_fires_on_consecutive_failures :
  ¬ (∀ (c0 : controllers.NetworkClient) (os : list controllers.httpOutcome)
       (o1 o2 : controllers.httpOutcome),
       let st := controllers.cycles json.runtime (c0, controllers.initVars) os in
       controllers.failed json.runtime c0 o1 = controllers.failed json.runtime c0 o2 →
       controllers.statusCalls
         (controllers.cycle json.runtime
            (controllers.cycle json.runtime st o1).1 o2).2 = []).
Proof.
  intros H.
  specialize (H (controllers.NewNetworkClient "http://relay" "client_1" true true)
                [] controllers.DoError controllers.DoError eq_refl).
  vm_compute in H. discriminate H.
Qed.

(** ** Poll responses *)

Section PollResponses.
Import controllers.
Context (rt : runtime).

(** The loop of [parsePollMessages] keeps the entries that pass the
    validity test, in order, each decided on its own. *)
Lemma parse_loop (acc : list (pollMessage rt)) (rawList : list (list (string * RawMessage rt))) :
  foldl (λ msgs raw,
           let msg := parseEntry rt raw in
           if malformed rt msg then msgs else msgs ++ [msg]) acc rawList
  = acc ++ filter (λ m, malformed rt m = false) (parseEntry rt <$> rawList).
Proof.
  revert acc. induction rawList as [|raw rawList IH]; intros acc; simpl.
  { by rewrite app_nil_r. }
  rewrite IH, filter_cons. destruct (malformed rt (parseEntry rt raw)) eqn:Hm.
  - by rewrite decide_False.
  - rewrite decide_True by done. by rewrite <-app_assoc.
Qed.

Lemma parsePollMessages_filter (body : string) (rawList : list (list (string * RawMessage rt))) :
  unmarshalRawList rt body = Some rawList →
  parsePollMessages rt body =
    Some (filter (λ m, malformed rt m = false) (parseEntry rt <$> rawList)).
Proof. intros H. unfold parsePollMessages. by rewrite H, parse_loop. Qed.

Lemma rangeAuthor_keeps (raw : list (string * RawMessage rt)) (msg : pollMessage rt) :
  Color (rangeAuthor rt raw msg) = Color msg ∧ ID (rangeAuthor rt raw msg) = ID msg.
Proof.
  induction raw as [|[k v] raw IH]; [done|]. simpl. by destruct (knownPollKeys k).
Qed.

Lemma authorKeys_cons (k : string) (v : RawMessage rt) (raw : list (string * RawMessage rt)) :
  authorKeys rt ((k, v) :: raw) =
    if knownPollKeys k then authorKeys rt raw else k :: authorKeys rt raw.
Proof.
  unfold authorKeys. simpl. rewrite filter_cons.
  destruct (knownPollKeys k); [by rewrite decide_False|by rewrite decide_True].
Qed.

Lemma rangeAuthor_none (raw : list (string * RawMessage rt)) (msg : pollMessage rt) :
  authorKeys rt raw = [] → rangeAuthor rt raw msg = msg.
Proof.
  induction raw as [|[k v] raw IH]; [done|]. rewrite authorKeys_cons. simpl.
  destruct (knownPollKeys k); [done|]. discriminate.
Qed.

Lemma rangeAuthor_one (raw : list (string * RawMessage rt)) (msg : pollMessage rt)
    (author : string) :
  authorKeys rt raw = [author] →
  Username (rangeAuthor rt raw msg) = author ∧
  Content (rangeAuthor rt raw msg) = default (Content msg) (stringAt rt raw author).
Proof.
  unfold stringAt.
  induction raw as [|[k v] raw IH]; [done|]. rewrite authorKeys_cons. simpl.
  destruct (knownPollKeys k) eqn:Hk.
  - intros Hraw. destruct (IH Hraw) as [Hu Hc]. split; [done|].
    rewrite decide_False; [done|]. intros ->.
    assert (author ∈ authorKeys rt raw) as Hin by (rewrite Hraw; apply list_elem_of_here).
    apply list_elem_of_filter in Hin as [Hin _]. congruence.
  - intros [= -> _]. simpl. by rewrite decide_True.
Qed.

Lemma parseEntry_id (raw : list (string * RawMessage rt)) :
  ID (parseEntry rt raw) = default "" (stringAt rt raw "id").
Proof.
  unfold parseEntry, stringAt. rewrite (proj2 (rangeAuthor_keeps _ _)).
  destruct (lookupRaw rt raw "timestamp"), (lookupRaw rt raw "id"),
    (lookupRaw rt raw "color"); done.
Qed.

Lemma parseEntry_color (raw : list (string * RawMessage rt)) :
  Color (parseEntry rt raw) = default "" (stringAt rt raw "color").
Proof.
  unfold parseEntry, stringAt. rewrite (proj1 (rangeAuthor_keeps _ _)).
  destruct (lookupRaw rt raw "timestamp"), (lookupRaw rt raw "id"),
    (lookupRaw rt raw "color"); done.
Qed.

Lemma parseEntry_author (raw : list (string * RawMessage rt)) (author : string) :
  authorKeys rt raw = [author] →
  Username (parseEntry rt raw) = author ∧
  Content (parseEntry rt raw) = default "" (stringAt rt raw author).
Proof.
  intros Hraw. unfold parseEntry.
  match goal with
  | |- context [rangeAuthor rt raw ?m] =>
      destruct (rangeAuthor_one raw m author Hraw) as [-> ->];
      assert (Content m = "") as ->
  end.
  { destruct (lookupRaw rt raw "timestamp"), (lookupRaw rt raw "id"),
      (lookupRaw rt raw "color"); done. }
  done.
Qed.

Lemma parseEntry_no_author (raw : list (string * RawMessage rt)) :
  authorKeys rt raw = [] → Username (parseEntry rt raw) = "".
Proof.
  intros Hraw. unfold parseEntry. rewrite rangeAuthor_none by done.
  destruct (lookupRaw rt raw "timestamp"), (lookupRaw rt raw "id"),
    (lookupRaw rt raw "color"); done.
Qed.

Lemma missingField_malformed (raw : list (string * RawMessage rt)) :
  missingField rt raw → malformed rt (parseEntry rt raw) = true.
Proof.
  unfold malformed. intros [Hnone|[(author & Hone & Hbad)|Hid]].
  - rewrite parseEntry_no_author by done. by rewrite bool_decide_true.
  - destruct (parseEntry_author raw author Hone) as [-> ->].
    destruct Hbad as [-> | ->].
    + by rewrite bool_decide_true.
    + rewrite (bool_decide_true ("" = "")) by done. by rewrite orb_true_r.
  - rewrite parseEntry_id, Hid. rewrite (bool_decide_true ("" = "")) by done.
    by rewrite orb_true_r.
Qed.

Lemma wellFormedEntry_kept (raw : list (string * RawMessage rt)) (author body id : string) :
  authorKeys rt raw = [author] → author ≠ "" →
  stringAt rt raw author = Some body → body ≠ "" →
  stringAt rt raw "id" = Some id → id ≠ "" →
  malformed rt (parseEntry rt raw) = false ∧
  Username (parseEntry rt raw) = author ∧
  Content (parseEntry rt raw) = body ∧
  ID (parseEntry rt raw) = id ∧
  Color (parseEntry rt raw) = default "" (stringAt rt raw "color").
Proof.
  intros Hone Ha Hbody Hb Hid Hi. unfold malformed.
  destruct (parseEntry_author raw author Hone) as [-> ->].
  rewrite parseEntry_id, parseEntry_color, Hbody, Hid. simpl.
  by rewrite !bool_decide_false.
Qed.

Lemma poll_unparseable (c : NetworkClient) (body : string) :
  unmarshalRawList rt body = None →
  poll rt c (Response 200 (Some body)) = (c, (None, Some ErrParse)).
Proof. intros H. unfold poll, parsePollMessages. simpl. by rewrite H. Qed.

Lemma handleIncoming_foreign (c : NetworkClient) (msg : pollMessage rt) :
  ID msg ∉ sentIDs c →
  handleIncoming rt c msg =
    (c, if onMessage c then [OnMessage (Username msg) (Content msg) (Color msg)]
        else []).
Proof. intros H. unfold handleIncoming. by rewrite bool_decide_false. Qed.

Lemma handleIncoming_mine (c : NetworkClient) (msg : pollMessage rt) :
  ID msg ∈ sentIDs c →
  handleIncoming rt c msg = (setSentIDs (sentIDs c ∖ {[ID msg]}) c, []).
Proof. intros H. unfold handleIncoming. by rewrite bool_decide_true. Qed.

(** C7: a body that does not decode as an array of entries fails the whole
    poll: no entry is handled, the cursor keeps its value, and the loop
    treats the cycle as it treats a transport failure, backoff included.  A
    body that decodes is filtered entry by entry: an entry that lacks its
    author key, its body or its id is dropped, a well-formed entry is kept
    with its author, body, id and color, and the entries around an entry do
    not change its fate.  In particular one well-formed and one malformed
    entry, in either order, give exactly one message, delivered by one call
    of [onMessage] unless the id is a pending own send. *)
Theorem malformed_entries_are_dropped_individually :
  (∀ c v body,
     unmarshalRawList rt body = None →
     poll rt c (Response 200 (Some body)) = (c, (None, Some ErrParse)) ∧
     pollReturned rt c v (Response 200 (Some body)) = pollReturned rt c v DoError ∧
     (pollReturned rt c v (Response 200 (Some body))).1.2 = InBackoff ∧
     statusCalls (pollReturned rt c v (Response 200 (Some body))).2
       = (pollReturned rt c v (Response 200 (Some body))).2 ∧
     cycle rt (c, v) (Response 200 (Some body)) = cycle rt (c, v) DoError) ∧
  (∀ body rawList,
     unmarshalRawList rt body = Some rawList →
     parsePollMessages rt body =
       Some (filter (λ m, malformed rt m = false) (parseEntry rt <$> rawList))) ∧
  (∀ raw, missingField rt raw → malformed rt (parseEntry rt raw) = true) ∧
  (∀ raw author body id,
     authorKeys rt raw = [author] → author ≠ "" →
     stringAt rt raw author = Some body → body ≠ "" →
     stringAt rt raw "id" = Some id → id ≠ "" →
     malformed rt (parseEntry rt raw) = false ∧
     Username (parseEntry rt raw) = author ∧
     Content (parseEntry rt raw) = body ∧
     ID (parseEntry rt raw) = id ∧
     Color (parseEntry rt raw) = default "" (stringAt rt raw "color")) ∧
  (∀ body before raw after,
     unmarshalRawList rt body = Some (before ++ raw :: after) →
     ∃ msgs1 msgs2,
       parsePollMessages rt body =
         Some (msgs1 ++ (if malformed rt (parseEntry rt raw) then []
                         else [parseEntry rt raw]) ++ msgs2) ∧
       (∀ body', unmarshalRawList rt body' = Some (before ++ after) →
                 parsePollMessages rt body' = Some (msgs1 ++ msgs2))) ∧
  (∀ body good bad c,
     wellFormedEntry rt good → missingField rt bad →
     unmarshalRawList rt body = Some [good; bad] ∨
     unmarshalRawList rt body = Some [bad; good] →
     parsePollMessages rt body = Some [parseEntry rt good] ∧
     (onMessage c = true → ID (parseEntry rt good) ∉ sentIDs c →
      (dispatch rt c [parseEntry rt good]).2 =
        [OnMessage (Username (parseEntry rt good)) (Content (parseEntry rt good))
           (Color (parseEntry rt good))])).
Proof.
  split; [|split; [|split; [|split; [|split]]]].
  - intros c v body H. pose proof (poll_unparseable c body H) as Hp.
    assert (pollReturned rt c v (Response 200 (Some body))
            = pollReturned rt c v DoError) as Heq.
    { unfold pollReturned. by rewrite Hp. }
    split; [done|]. split; [done|]. rewrite Heq. split; [done|]. split.
    + simpl. destruct (firstConnect v); [apply statusCalls_notifyStatus|].
      destruct (wasConnected v); [apply statusCalls_notifyStatus|done].
    + unfold cycle, afterPoll. simpl fst. simpl snd. by rewrite Heq.
  - apply parsePollMessages_filter.
  - apply missingField_malformed.
  - apply wellFormedEntry_kept.
  - intros body before raw after H.
    exists (filter (λ m, malformed rt m = false) (parseEntry rt <$> before)),
           (filter (λ m, malformed rt m = false) (parseEntry rt <$> after)).
    split.
    + rewrite (parsePollMessages_filter _ _ H), fmap_app, filter_app, fmap_cons,
        filter_cons.
      by destruct (malformed rt (parseEntry rt raw)).
    + intros body' H'. by rewrite (parsePollMessages_filter _ _ H'), fmap_app, filter_app.
  - intros body good bad c (author & text & id & H1 & H2 & H3 & H4 & H5 & H6) Hbad Hbody.
    destruct (wellFormedEntry_kept good author text id) as (Hgood & _); try done.
    pose proof (missingField_malformed bad Hbad) as Hdrop.
    split.
    + destruct Hbody as [H|H]; rewrite (parsePollMessages_filter _ _ H); simpl;
        rewrite !filter_cons, filter_nil, Hgood, Hdrop; done.
    + intros Hcb Hid. rewrite dispatch_cons, handleIncoming_foreign by done.
      simpl. by rewrite Hcb.
Qed.

(** *** The cursor *)

Lemma poll_lastID (c : NetworkClient) (o : httpOutcome) :
  lastID (poll rt c o).1 =
    match (poll rt c o).2.1 with
    | Some msgs => from_option ID (lastID c) (list.last msgs)
    | None => lastID c
    end.
Proof.
  unfold poll. destruct o as [| |code [body|]]; try done; repeat case_decide; try done.
  destruct (parsePollMessages rt body) as [msgs|]; [|done]. simpl.
  case_decide as Hlen.
  - by destruct (list.last msgs).
  - destruct msgs; [done|simpl in Hlen; lia].
Qed.

Lemma poll_batch (c : NetworkClient) (o : httpOutcome) :
  default [] (poll rt c o).2.1 = batch rt o.
Proof.
  unfold poll, batch. destruct o as [| |code [body|]]; try done.
  - case_decide; [by rewrite decide_False by lia|].
    case_decide; [by rewrite decide_False by lia|].
    case_decide; [|done]. by destruct (parsePollMessages rt body).
  - by repeat case_decide.
Qed.

Lemma batch_wellformed (o : httpOutcome) (m : pollMessage rt) :
  m ∈ batch rt o → malformed rt m = false.
Proof.
  unfold batch. destruct o as [| |code [body|]]; try by intros ?%elem_of_nil.
  case_decide; [|by intros ?%elem_of_nil]. unfold parsePollMessages.
  destruct (unmarshalRawList rt body) as [rawList|]; [|by intros ?%elem_of_nil].
  simpl. rewrite parse_loop. simpl. by intros [? _]%list_elem_of_filter.
Qed.

Lemma wellformed_id (m : pollMessage rt) : malformed rt m = false → ID m ≠ "".
Proof.
  unfold malformed. intros H Hid. rewrite Hid in H.
  rewrite (bool_decide_true ("" = "")) in H by done. by rewrite orb_true_r in H.
Qed.

Lemma poll_advance (c : NetworkClient) (o : httpOutcome) :
  lastID (poll rt c o).1 ≠ lastID c →
  ∃ msgs m, (poll rt c o).2 = (Some (msgs ++ [m]), None) ∧ batch rt o = msgs ++ [m] ∧
            lastID (poll rt c o).1 = ID m ∧ ID m ≠ "".
Proof.
  rewrite poll_lastID. pose proof (poll_batch c o) as Hb.
  pose proof (poll_result rt c o) as Hr. unfold failed in Hr.
  pose proof (poll_failed rt c o) as Hf. unfold failed in Hf.
  destruct (poll rt c o) as [c' [[msgs|] err]]; simpl in *; [|done].
  destruct err as [e|]; [by destruct Hf|].
  destruct (list.last msgs) as [m|] eqn:Hlast; [|done]. intros _.
  apply last_Some in Hlast as [msgs' ->]. exists msgs', m. repeat split; try done.
  apply wellformed_id, (batch_wellformed o). rewrite <-Hb.
  apply elem_of_app. right. apply list_elem_of_here.
Qed.

Lemma sendAsync_lastID (c : NetworkClient) (o : postOutcome) :
  lastID (sendAsync rt c o).1 = lastID c.
Proof.
  unfold sendAsync. destruct o as [|code body]; [done|]. repeat case_decide; try done.
  destruct (decodeSendResponse rt body); [|done]. by case_decide.
Qed.

Lemma cycle_lastID (c : NetworkClient) (v : loopVars) (o : httpOutcome) :
  lastID (cycle rt (c, v) o).1.1 = lastID (poll rt c o).1.
Proof.
  unfold cycle, afterPoll, pollReturned. simpl.
  destruct (poll rt c o) as [c' [msgs [e|]]]; [done|]. simpl.
  destruct msgs as [[|m msgs]|]; simpl; try done.
  pose proof (dispatch_keeps rt c' (m :: msgs)) as (_ & _ & _ & Hl & _).
  by destruct (dispatch rt c' (m :: msgs)) as [c'' delivered].
Qed.

(** The cursor is the initial one or the id of an entry received so far. *)
Lemma cycles_lastID (c0 : NetworkClient) (v0 : loopVars) (os : list httpOutcome) :
  lastID (cycles rt (c0, v0) os).1 = lastID c0 ∨
  lastID (cycles rt (c0, v0) os).1 ∈ ID <$> (os ≫= batch rt).
Proof.
  induction os as [|o os IH] using rev_ind; [by left|].
  rewrite (cycles_snoc rt), bind_app, fmap_app. simpl. rewrite app_nil_r.
  destruct (cycles rt (c0, v0) os) as [c v]. simpl in IH. rewrite cycle_lastID.
  destruct (decide (lastID (poll rt c o).1 = lastID c)) as [->|Hne].
  - destruct IH as [?|?]; [by left|]. right. apply elem_of_app. by left.
  - destruct (poll_advance c o Hne) as (msgs & m & _ & -> & -> & _).
    right. apply elem_of_app. right. rewrite fmap_app.
    apply elem_of_app. right. apply list_elem_of_here.
Qed.

(** When the cursor moves, and the relay has never sent the same id twice,
    it moves to a value it did not have at any earlier point of the run. *)
Lemma cursor_never_returns (c0 : NetworkClient) (v0 : loopVars)
    (os0 os1 : list httpOutcome) (o : httpOutcome) :
  lastID c0 = "" →
  NoDup (ID <$> ((os1 ++ [o]) ≫= batch rt)) →
  os0 `prefix_of` os1 →
  lastID (cycle rt (cycles rt (c0, v0) os1) o).1.1 ≠ lastID (cycles rt (c0, v0) os1).1 →
  lastID (cycle rt (cycles rt (c0, v0) os1) o).1.1 ≠ lastID (cycles rt (c0, v0) os0).1.
Proof.
  intros Hinit Hnodup [k ->] Hmove.
  destruct (cycles rt (c0, v0) (os0 ++ k)) as [c v] eqn:Hst. simpl in Hmove.
  rewrite cycle_lastID in *.
  destruct (poll_advance c o Hmove) as (msgs & m & _ & Hbatch & -> & Hid).
  rewrite bind_app, fmap_app in Hnodup. simpl in Hnodup. rewrite app_nil_r in Hnodup.
  apply NoDup_app in Hnodup as (_ & Hdisj & _).
  destruct (cycles_lastID c0 v0 os0) as [->|Hin]; [congruence|].
  intros Heq. apply (Hdisj (ID m)).
  - rewrite Heq, bind_app, fmap_app. apply elem_of_app. by left.
  - rewrite Hbatch, fmap_app. apply elem_of_app. right. apply list_elem_of_here.
Qed.

(** C8, as the code has it: after a poll that returned messages the cursor
    is the id of the last of them, that is, of the last well-formed entry
    of the batch; a batch without well-formed entry, an empty response and
    a failed poll leave it as it was.  Nothing else writes it: entries being
    handled, sends and [Stop] do not.  It is never set back to the empty
    initial value, and, the relay never sending an id twice, never returns
    to a value it had before. *)
Theorem cursor_is_last_accepted_entry :
  (∀ c o,
     lastID (poll rt c o).1 =
       match (poll rt c o).2.1 with
       | Some msgs => from_option ID (lastID c) (list.last msgs)
       | None => lastID c
       end) ∧
  (∀ c body rawList,
     unmarshalRawList rt body = Some rawList →
     (poll rt c (Response 200 (Some body))).2 =
       (Some (filter (λ m, malformed rt m = false) (parseEntry rt <$> rawList)),
        None)) ∧
  (∀ c o,
     lastID (poll rt c o).1 ≠ lastID c →
     ∃ msgs m, (poll rt c o).2 = (Some (msgs ++ [m]), None) ∧
               lastID (poll rt c o).1 = ID m ∧ ID m ≠ "") ∧
  (∀ c o, lastID c ≠ "" → lastID (poll rt c o).1 ≠ "") ∧
  (∀ c msg, lastID (handleIncoming rt c msg).1 = lastID c) ∧
  (∀ c o, lastID (sendAsync rt c o).1 = lastID c) ∧
  (∀ c, lastID (Stop c) = lastID c) ∧
  (∀ c0 v0 os0 os1 o,
     lastID c0 = "" →
     NoDup (ID <$> ((os1 ++ [o]) ≫= batch rt)) →
     os0 `prefix_of` os1 →
     lastID (cycle rt (cycles rt (c0, v0) os1) o).1.1
       ≠ lastID (cycles rt (c0, v0) os1).1 →
     lastID (cycle rt (cycles rt (c0, v0) os1) o).1.1
       ≠ lastID (cycles rt (c0, v0) os0).1).
Proof.
  split; [|split; [|split; [|split; [|split; [|split; [|split]]]]]].
  - apply poll_lastID.
  - intros c body rawList H. unfold poll. simpl.
    rewrite (parsePollMessages_filter _ _ H). done.
  - intros c o Hne. destruct (poll_advance c o Hne) as (msgs & m & ? & _ & ? & ?).
    by exists msgs, m.
  - intros c o Hc. destruct (decide (lastID (poll rt c o).1 = lastID c)) as [->|Hne]; [done|].
    destruct (poll_advance c o Hne) as (msgs & m & _ & _ & -> & ?). done.
  - intros c msg. apply handleIncoming_keeps.
  - apply sendAsync_lastID.
  - intros c. unfold Stop. by destruct (stopped c).
  - apply cursor_never_returns.
Qed.

End PollResponses.

(** C8, as stated, fails when the last entry of the batch is malformed: the
    cursor is the id of the last entry that was accepted. *)
Lemma cursor_is_not_the_last_entry_of_the_batch :
  ¬ (∀ (c : controllers.NetworkClient) (body : string)
       (rawList : list (list (string * json.value))) (lastRaw : list (string * json.value)),
       controllers.unmarshalRawList json.runtime body = Some rawList →
       list.last rawList = Some lastRaw →
       controllers.lastID
         (controllers.poll json.runtime c (controllers.Response 200 (Some body))).1
         = default "" (controllers.stringAt json.runtime lastRaw "id")).
Proof.
  intros H.
  specialize (H (controllers.NewNetworkClient "http://relay" "client_1" true true)
                (json.text "[{'alice':'hi','id':'m1'},{'id':'m2'}]")
                [[("alice", json.Str "hi"); ("id", json.Str "m1")];
                 [("id", json.Str "m2")]]
                [("id", json.Str "m2")] eq_refl eq_refl).
  vm_compute in H. discriminate H.
Qed.

(** ** Deduplication of own messages *)

Section Dedup.
Import controllers.
Context (rt : runtime).


Lemma ackedIDs_cons (e : event) (es : list event) :
  ackedIDs rt (e :: es) = ackedIDs rt [e] ∪ ackedIDs rt es.
Proof. unfold ackedIDs. simpl. destruct (ackedBy rt e); set_solver. Qed.

Lemma ackedIDs_nil : ackedIDs rt [] = ∅.
Proof. done. Qed.

Lemma handled_cons (cl cl1 : client rt) (e : event) (es : list event)
    (out : list output) :
  step rt cl e = Some (cl1, out) →
  handled rt cl (e :: es) = handledBy rt cl e ++ handled rt cl1 es.
Proof. intros H. simpl. by rewrite H. Qed.





(** The return of a poll reports the connection and touches neither
    [sentIDs] nor the callbacks. *)
Lemma pollReturned_effect (c : NetworkClient) (v : loopVars) (o : httpOutcome) :
  onMessage (pollReturned rt c v o).1.1.1 = onMessage c ∧
  sentIDs (pollReturned rt c v o).1.1.1 = sentIDs c ∧
  statusCalls (pollReturned rt c v o).2 = (pollReturned rt c v o).2.
Proof.
  destruct (poll_keeps rt c o) as (_ & _ & Hcb & Hids & _).
  unfold pollReturned. destruct (poll rt c o) as [c' [msgs [e|]]]; simpl in *.
  - repeat split; try done.
    destruct (firstConnect v); [apply statusCalls_notifyStatus|].
    destruct (wasConnected v); [apply statusCalls_notifyStatus|done].
  - repeat split; try done.
    destruct (firstConnect v || negb (wasConnected v));
      [apply statusCalls_notifyStatus|done].
Qed.

Lemma sendAsync_effect (c : NetworkClient) (i : nat) (o : postOutcome) :
  onMessage (sendAsync rt c o).1 = onMessage c ∧
  sentIDs (sendAsync rt c o).1 = sentIDs c ∪ ackedIDs rt [EvPostReturns i o] ∧
  statusCalls (sendAsync rt c o).2 = (sendAsync rt c o).2.
Proof.
  unfold sendAsync, ackedIDs. simpl. destruct o as [|code body].
  { split; [done|]. split; [set_solver|apply statusCalls_notifyStatus]. }
  destruct (decide (code = 401)) as [->|H401].
  { rewrite decide_False by lia.
    split; [done|]. split; [set_solver|apply statusCalls_notifyStatus]. }
  case_decide; [|split; [done|split; [set_solver|done]]].
  destruct (decodeSendResponse rt body) as [sr|];
    [|split; [done|split; [set_solver|done]]].
  case_decide; simpl; (split; [done|split; [set_solver|done]]).
Qed.






End Dedup.

(** ** Runs of the client on concrete responses *)

(** An echo that is handled before the send is acknowledged is delivered:
    the message is on screen twice, and its id stays in [sentIDs]. *)
Example echo_handled_before_acknowledgement :
  let c0 := controllers.NewNetworkClient "http://relay" "client_1" true true in
  let echo := json.text "[{'bob':'hi','id':'m1','color':'[red]'}]" in
  let ack := json.text "{'status':'ok','id':'m1','time':'12:00'}" in
  (λ r, (controllers.sentIDs (controllers.nc r.1), r.2)) <$>
    controllers.run json.runtime (controllers.Start json.runtime c0)
      [controllers.EvLoopTop;
       controllers.EvOnSendMessage "bob" "hi" "[red]";
       controllers.EvPollReturns (controllers.Response 200 (Some echo));
       controllers.EvHandleIncoming;
       controllers.EvPostReturns 0 (controllers.PostResponse 201 ack)]
  = Some ({["m1"]},
          [[];
           [controllers.Shown "bob" "hi" "[red]"];
           [controllers.Called
              (controllers.OnStatusChange true "Connected to relay at http://relay")];
           [controllers.Called (controllers.OnMessage "bob" "hi" "[red]")];
           []]).
Proof. by vm_compute. Qed.

(** The same echo handled after the acknowledgement is suppressed. *)
Example echo_handled_after_acknowledgement :
  let c0 := controllers.NewNetworkClient "http://relay" "client_1" true true in
  let echo := json.text "[{'bob':'hi','id':'m1','color':'[red]'}]" in
  let ack := json.text "{'status':'ok','id':'m1','time':'12:00'}" in
  (λ r, (controllers.sentIDs (controllers.nc r.1), r.2)) <$>
    controllers.run json.runtime (controllers.Start json.runtime c0)
      [controllers.EvLoopTop;
       controllers.EvOnSendMessage "bob" "hi" "[red]";
       controllers.EvPollReturns (controllers.Response 200 (Some echo));
       controllers.EvPostReturns 0 (controllers.PostResponse 201 ack);
       controllers.EvHandleIncoming]
  = Some (∅,
          [[];
           [controllers.Shown "bob" "hi" "[red]"];
           [controllers.Called
              (controllers.OnStatusChange true "Connected to relay at http://relay")];
           [];
           []]).
Proof. by vm_compute. Qed.


(** C6: callbacks after [Stop].  A poll that is in flight when [Stop] is
    called still reports the connection when it returns, and its batch is
    still handed to [onMessage]; a send that is in flight still reports its
    failure: the stop flag is read at the top of the loop and in the two
    waits, not after [poll] returns nor in [sendAsync]. *)
Theorem callbacks_fire_after_stop :
  let c0 := controllers.NewNetworkClient "http://relay" "client_1" true true in
  let batch := json.text "[{'alice':'hi','id':'m1','color':'[green]'}]" in
  (λ r, (controllers.stopped (controllers.nc r.1), r.2)) <$>
    controllers.run json.runtime (controllers.Start json.runtime c0)
      [controllers.EvLoopTop;
       controllers.EvStop;
       controllers.EvPollReturns (controllers.Response 200 (Some batch));
       controllers.EvHandleIncoming]
  = Some (true,
          [[]; [];
           [controllers.Called
              (controllers.OnStatusChange true "Connected to relay at http://relay")];
           [controllers.Called (controllers.OnMessage "alice" "hi" "[green]")]]) ∧
  (λ r, (controllers.stopped (controllers.nc r.1), r.2)) <$>
    controllers.run json.runtime (controllers.Start json.runtime c0)
      [controllers.EvOnSendMessage "bob" "hi" "[red]";
       controllers.EvStop;
       controllers.EvPostReturns 0 controllers.PostError]
  = Some (true,
          [[controllers.Shown "bob" "hi" "[red]"]; [];
           [controllers.Called
              (controllers.OnStatusChange false
                 "Message send failed — server unreachable.")]]).
Proof. split; by vm_compute. Qed.

(** ** Instances *)

(** C4 on a run with two animations, a commit and a clear. *)
Lemma visible_text_after_animations :
  let us := [views.UAddMessage
               {| views.IsSystem := true; views.Username := "";
                  views.Content := "Connected"; views.Color := "";
                  views.FormattedTime := "10:48" |};
             views.UAnimInit "[gray][10:48][-] [green][[]alice][-] [green]";
             views.UAnimInit "[gray][10:48][-] [red][[]bob][-] [red]";
             views.UWordTick 1 "[gray][10:48][-] [red][[]bob][-] [red]" "hi" true;
             views.UWordTick 0 "[gray][10:48][-] [green][[]alice][-] [green]" "a" false;
             views.UClearMessages;
             views.UAnimInit "[gray][10:49][-] [green][[]alice][-] [green]"] in
  Z.of_nat (views.allocations us) ≤ Go.maxInt ∧
  views.messageView (views.view (views.run views.start us))
    = views.transcript (views.view (views.run views.start us)).
Proof.
  intros us. assert (Z.of_nat (views.allocations us) ≤ Go.maxInt) as H by (by vm_compute).
  exact (conj H (proj1 (visible_text_is_committed_then_slots us H))).
Defined.

(** C10 on a run that allocates before and after a clear. *)
Lemma slot_ids_across_a_clear :
  let us := [views.UAnimInit "a"; views.UAnimInit "b"; views.UClearMessages;
             views.USetMessages []; views.UAnimInit "c"] in
  Z.of_nat (views.allocations us) ≤ Go.maxInt ∧
  ∀ i j si sj, (i < j)%nat →
    views.handedOut (views.run views.start us) !! i = Some si →
    views.handedOut (views.run views.start us) !! j = Some sj →
    0 ≤ views.id sj → views.id si < views.id sj.
Proof.
  intros us. assert (Z.of_nat (views.allocations us) ≤ Go.maxInt) as H by (by vm_compute).
  exact (conj H (proj1 (proj2 (proj2 (proj2 (slot_ids_strictly_increase us H)))))).
Defined.

(** C2 on a task that is cleared away after its slot was allocated. *)
Lemma tick_after_clear_changes_nothing :
  0 < Z.of_nat (views.clears [views.UAddMessage
                                {| views.IsSystem := true; views.Username := "";
                                   views.Content := "x"; views.Color := "";
                                   views.FormattedTime := "" |};
                              views.UClearMessages]) < 2 ^ Go.intSize ∧
  views.step
    (views.run (views.step views.start (views.UAnimInit "p"))
       [views.UAddMessage
          {| views.IsSystem := true; views.Username := "";
             views.Content := "x"; views.Color := "";
             views.FormattedTime := "" |};
        views.UClearMessages])
    (views.UWordTick 0 "p" "hello" true)
  = views.run (views.step views.start (views.UAnimInit "p"))
      [views.UAddMessage
         {| views.IsSystem := true; views.Username := "";
            views.Content := "x"; views.Color := "";
            views.FormattedTime := "" |};
       views.UClearMessages].
Proof.
  assert (0 < Z.of_nat (views.clears
                          [views.UAddMessage
                             {| views.IsSystem := true; views.Username := "";
                                views.Content := "x"; views.Color := "";
                                views.FormattedTime := "" |};
                           views.UClearMessages]) < 2 ^ Go.intSize) as H
    by (by vm_compute).
  exact (conj H (proj2 (proj2 stale_generation_ticks_are_noops)
                   views.start "p" _ "p" "hello" true H)).
Defined.


(** C3 on three failures in a row from the start: one, two, four and then
    eight seconds. *)
Lemma backoff_after_three_failures :
  let c0 := controllers.NewNetworkClient "http://relay" "client_1" true true in
  let fs := [controllers.DoError;
             controllers.Response 500 (Some "oops");
             controllers.Response 200 (Some "not json")] in
  Forall (λ o, controllers.failed json.runtime c0 o = true) fs ∧
  controllers.backoff
    (controllers.cycles json.runtime
       (controllers.cycles json.runtime (c0, controllers.initVars) []) fs).2
    = 8 * controllers.Second.
Proof.
  intros c0 fs.
  assert (Forall (λ o, controllers.failed json.runtime c0 o = true) fs) as H
    by (repeat constructor).
  exact (conj H (proj2 (proj2 (proj2
    (backoff_doubles_to_cap_and_resets json.runtime c0 []))) fs H)).
Defined.

(** C7 on a batch of one well-formed entry and one entry without author:
    one message, one call of [onMessage]. *)
Lemma one_good_one_bad_entry :
  let c := controllers.NewNetworkClient "http://relay" "client_1" true true in
  let body := json.text "[{'alice':'hi','id':'m1','color':'[green]'},{'id':'m2'}]" in
  let good := [("alice", json.Str "hi"); ("id", json.Str "m1");
               ("color", json.Str "[green]")] in
  let bad := [("id", json.Str "m2")] in
  controllers.wellFormedEntry json.runtime good ∧
  controllers.missingField json.runtime bad ∧
  controllers.unmarshalRawList json.runtime body = Some [good; bad] ∧
  controllers.parsePollMessages json.runtime body
    = Some [controllers.parseEntry json.runtime good] ∧
  (controllers.dispatch json.runtime c [controllers.parseEntry json.runtime good]).2
    = [controllers.OnMessage "alice" "hi" "[green]"].
Proof.
  intros c body good bad.
  assert (controllers.wellFormedEntry json.runtime good) as Hgood.
  { exists "alice", "hi", "m1". by repeat split. }
  assert (controllers.missingField json.runtime bad) as Hbad by (by left).
  assert (controllers.unmarshalRawList json.runtime body = Some [good; bad]) as Hbody
    by reflexivity.
  destruct (proj2 (proj2 (proj2 (proj2 (proj2
              (malformed_entries_are_dropped_individually json.runtime)))))
              body good bad c Hgood Hbad (or_introl Hbody)) as [Hparse Hcall].
  assert (controllers.ID (controllers.parseEntry json.runtime good)
          ∉ controllers.sentIDs c) as Hid.
  { apply (bool_decide_unpack _). by vm_compute. }
  exact (conj Hgood (conj Hbad (conj Hbody (conj Hparse (Hcall eq_refl Hid))))).
Defined.

(** C8 on three polls: the cursor takes the values [m1], [m1] and [m3]. *)
Lemma cursor_moves_forward :
  let c0 := controllers.NewNetworkClient "http://relay" "client_1" true true in
  let first := controllers.Response 200
                 (Some (json.text "[{'alice':'hi','id':'m1'}]")) in
  let nothing := controllers.Response 204 None in
  let more := controllers.Response 200
                (Some (json.text "[{'bob':'yo','id':'m2'},{'alice':'re','id':'m3'},{'id':'m4'}]")) in
  controllers.lastID
    (controllers.cycle json.runtime
       (controllers.cycles json.runtime (c0, controllers.initVars) [first; nothing])
       more).1.1
  ≠ controllers.lastID
      (controllers.cycles json.runtime (c0, controllers.initVars) [first]).1.
Proof.
  intros c0 first nothing more.
  apply (proj2 (proj2 (proj2 (proj2 (proj2 (proj2 (proj2
           (cursor_is_last_accepted_entry json.runtime)))))))
         c0 controllers.initVars [first] [first; nothing] more).
  - done.
  - apply (bool_decide_unpack _). by vm_compute.
  - by exists [nothing].
  - by vm_compute.
Defined.

(** * Further properties of the code *)

(** ** Escaping of message text *)

Lemma sanitizeContent_app (s t : string) :
  views.sanitizeContent (s +:+ t)
  = views.sanitizeContent s +:+ views.sanitizeContent t.
Proof.
  induction s as [|c s IH]; [done|]. rewrite append_cons. simpl.
  destruct (decide (c = "["%char)); rewrite IH; [|done].
  by rewrite <- append_assoc.
Qed.

Lemma unescape_escape (s : string) :
  tview.unescape ("[[]" +:+ s) = String "["%char (tview.unescape s).
Proof. reflexivity. Qed.

Lemma unescape_other (c : ascii) (s : string) :
  c ≠ "["%char → tview.unescape (String c s) = String c (tview.unescape s).
Proof. intros Hc. simpl. by rewrite decide_False. Qed.

Lemma unescape_sanitizeContent (s : string) :
  tview.unescape (views.sanitizeContent s) = s.
Proof.
  induction s as [|c s IH]; [done|].
  change (views.sanitizeContent (String c s)) with
    (if decide (c = "["%char) then "[[]" +:+ views.sanitizeContent s
     else String c (views.sanitizeContent s)).
  destruct (decide (c = "["%char)) as [->|Hc].
  - by rewrite unescape_escape, IH.
  - by rewrite unescape_other, IH.
Qed.

(** X1: [sanitizeContent] escapes each opening bracket on its own: it
    distributes over concatenation, the text it stands for is the text it
    was given, so no two texts are escaped alike, and it returns a text
    without opening bracket as it is. *)
Theorem sanitizeContent_escapes_each_bracket :
  (∀ s t, views.sanitizeContent (s +:+ t)
          = views.sanitizeContent s +:+ views.sanitizeContent t) ∧
  (∀ s, tview.unescape (views.sanitizeContent s) = s) ∧
  (∀ s t, views.sanitizeContent s = views.sanitizeContent t → s = t) ∧
  (∀ s, Go.ContainsAny s "[" = false ↔ views.sanitizeContent s = s).
Proof.
  split; [apply sanitizeContent_app|]. split; [apply unescape_sanitizeContent|].
  split.
  - intros s t H. apply (f_equal tview.unescape) in H.
    by rewrite !unescape_sanitizeContent in H.
  - intros s. induction s as [|c s IH]; [done|]. simpl.
    destruct (decide (c = "["%char)) as [->|Hc].
    + split; [done|]. intros H. apply (f_equal String.length) in H.
      rewrite length_append in H. simpl in H. exfalso.
      assert (String.length s ≤ String.length (views.sanitizeContent s))%nat; [|lia].
      clear. induction s as [|c s IH]; [done|]. simpl.
      destruct (decide (c = "["%char)); rewrite ?length_append; simpl; lia.
    + simpl. rewrite IH. split; [by intros ->|]. by intros [= ->].
Qed.

(** ** One line format *)

Lemma safeColorTag_nonempty (tag : string) : views.safeColorTag tag ≠ "".
Proof.
  destruct (safeColorTag_wellFormed tag) as (inner & -> & _). done.
Qed.

(** X2: A message of the local user and a message that arrives are drawn in one
    format: [formatLine] gives the prefix of [incomingPrefix] for the same
    time, color and name, followed by the escaped body and the closing tag,
    so that what [AddMessage] commits for a message is what the static draw
    commits for the same fields.  The test for an empty color in
    [formatLine] never fires, and [safeColorTag] applied twice is
    [safeColorTag] applied once. *)
Theorem own_and_incoming_lines_share_one_format :
  (∀ msg, views.IsSystem msg = false →
     views.formatLine msg
     = views.incomingPrefix (views.FormattedTime msg)
         (views.safeColorTag (views.Color msg)) (views.Username msg)
         +:+ views.sanitizeContent (views.Content msg) +:+ "[-]" +:+ Go.nl) ∧
  (∀ ts user content col c,
     views.stopped c = false →
     views.staticDraw (views.incomingPrefix ts (views.safeColorTag col) user) content c
     = views.AddMessage
         {| views.IsSystem := false; views.Username := user;
            views.Content := content; views.Color := col;
            views.FormattedTime := ts |} c) ∧
  (∀ tag, views.safeColorTag (views.safeColorTag tag) = views.safeColorTag tag).
Proof.
  assert (∀ msg, views.IsSystem msg = false →
     views.formatLine msg
     = views.incomingPrefix (views.FormattedTime msg)
         (views.safeColorTag (views.Color msg)) (views.Username msg)
         +:+ views.sanitizeContent (views.Content msg) +:+ "[-]" +:+ Go.nl) as Hline.
  { intros msg Hsys. unfold views.formatLine, views.incomingPrefix. rewrite Hsys.
    rewrite decide_False by apply safeColorTag_nonempty.
    by rewrite !append_assoc. }
  split; [done|]. split.
  - intros ts user content col c Hs. unfold views.staticDraw, views.AddMessage.
    by rewrite Hs, Hline.
  - intros tag. apply safeColorTag_keeps, safeColorTag_wellFormed.
Qed.

(** ** The color of an incoming message *)

(** X18: The color tag [AddIncomingMessage] draws with: a well-formed tag from
    the wire is used as it is, whatever package [models] would have chosen
    for the user; a wire color that opens with a bracket but is not a
    well-formed tag gives [[white]]; and in every case, whatever [models]
    returns, the tag drawn is well-formed. *)
Theorem incoming_color_is_the_wire_tag_or_a_safe_one
    (GetUsernameColor ParseColorToTag : string → string)
    (username colorTag : string) :
  (views.wellFormedTag colorTag →
   views.incomingColorTag GetUsernameColor ParseColorToTag username colorTag
   = colorTag) ∧
  (Go.HasPrefix colorTag "[" = true → ¬ views.wellFormedTag colorTag →
   views.incomingColorTag GetUsernameColor ParseColorToTag username colorTag
   = "[white]") ∧
  views.wellFormedTag
    (views.incomingColorTag GetUsernameColor ParseColorToTag username colorTag).
Proof.
  unfold views.incomingColorTag. split; [|split].
  - intros Hwf. pose proof Hwf as (inner & -> & _).
    rewrite decide_False by done.
    assert (Go.HasPrefix ("[" +:+ inner +:+ "]") "[" = true) as ->.
    { change ("[" +:+ inner +:+ "]") with (String "[" (inner +:+ "]")).
      unfold Go.HasPrefix. simpl. by destruct (inner +:+ "]"). }
    simpl negb. cbv iota. by apply safeColorTag_keeps.
  - intros Hpre Hnwf.
    assert (colorTag ≠ "") as Hne by (by intros ->).
    rewrite decide_False by done. rewrite Hpre. simpl negb. cbv iota.
    by destruct (safeColorTag_cases colorTag) as [?|[_ ?]].
  - apply safeColorTag_wellFormed.
Qed.

(** ** The history of sent messages *)

Section History.
Import input.

Lemma compress_cons_cons (x y : string) (l : list string) :
  compress (x :: y :: l)
  = if decide (x = y) then compress (y :: l) else x :: compress (y :: l).
Proof. reflexivity. Qed.

Lemma compress_nonempty (x : string) (l : list string) : compress (x :: l) ≠ [].
Proof.
  revert x. induction l as [|y l IH]; intros x; [done|].
  rewrite compress_cons_cons. destruct (decide (x = y)); [apply IH|done].
Qed.

Lemma last_cons_nonempty {A} (x : A) (l : list A) : l ≠ [] → last (x :: l) = last l.
Proof. by destruct l. Qed.

Lemma last_compress (l : list string) : last (compress l) = last l.
Proof.
  induction l as [|x l IH]; [done|]. destruct l as [|y l]; [done|].
  rewrite compress_cons_cons. destruct (decide (x = y)); [done|].
  rewrite last_cons_nonempty by apply compress_nonempty. done.
Qed.

Lemma compress_snoc (l : list string) (m : string) :
  compress (l ++ [m])
  = if decide (last l = Some m) then compress l else compress l ++ [m].
Proof.
  induction l as [|x l IH]; [done|]. destruct l as [|y l].
  - simpl. destruct (decide (x = m)) as [->|Hne].
    + by rewrite decide_True.
    + rewrite decide_False by congruence. done.
  - change ((x :: y :: l) ++ [m]) with (x :: y :: (l ++ [m])).
    rewrite !compress_cons_cons. change (y :: l ++ [m]) with ((y :: l) ++ [m]).
    rewrite IH. change (last (x :: y :: l)) with (last (y :: l)).
    destruct (decide (x = y)), (decide (last (y :: l) = Some m)); done.
Qed.

Lemma last_lastN (n : nat) (l : list string) :
  (0 < n)%nat → last (lastN n l) = last l.
Proof.
  intros Hn. unfold lastN. destruct l as [|x l]; [done|].
  rewrite !last_lookup, lookup_drop, length_drop. f_equal. simpl. lia.
Qed.

Lemma length_lastN (n : nat) (l : list string) :
  length (lastN n l) = (length l `min` n)%nat.
Proof. unfold lastN. rewrite length_drop. lia. Qed.

Lemma lastN_snoc (n : nat) (l : list string) (m : string) :
  lastN (S n) (l ++ [m])
  = (if decide (S n < length (lastN (S n) l ++ [m]))%nat
     then drop 1 (lastN (S n) l ++ [m]) else lastN (S n) l ++ [m]).
Proof.
  rewrite length_app, length_lastN. simpl. unfold lastN.
  rewrite length_app. simpl. case_decide.
  - rewrite (drop_app_le (drop _ l)) by (rewrite length_drop; lia).
    rewrite drop_drop, drop_app_le by lia. f_equal. f_equal. lia.
  - replace (length l + 1 - S n)%nat with 0%nat by lia.
    by replace (length l - S n)%nat with 0%nat by lia.
Qed.

Lemma AddToHistory_history (msg : string) (c : state) :
  sentHistory (AddToHistory msg c)
  = if decide (msg = "" ∨ last (sentHistory c) = Some msg) then sentHistory c
    else
      let h := sentHistory c ++ [msg] in
      if decide (100 < length h)%nat then drop 1 h else h.
Proof.
  unfold AddToHistory. rewrite last_lookup.
  replace (Init.Nat.pred (length (sentHistory c)))
    with (length (sentHistory c) - 1)%nat by lia.
  destruct (decide (msg = "" ∨ _)) as [[->|Hlast]|Hn].
  - done.
  - destruct (decide (msg = "")); [done|].
    rewrite (bool_decide_eq_true_2 _ Hlast), bool_decide_eq_true_2; [done|].
    apply lookup_lt_Some in Hlast. lia.
  - destruct (decide (msg = "")); [tauto|].
    rewrite (bool_decide_eq_false_2 (_ !! _ = _)), andb_false_r by tauto. done.
Qed.

Lemma AddToHistory_keeps (msg : string) (c : state) :
  nickActive (AddToHistory msg c) = nickActive c ∧
  historyIdx (AddToHistory msg c) = historyIdx c ∧
  fieldText (AddToHistory msg c) = fieldText c.
Proof.
  unfold AddToHistory. destruct (decide (msg = "")); [done|].
  by destruct (_ && _).
Qed.

(** X3: The history holds the last hundred of the messages it was given, the
    empty ones and the immediate repetitions left out; it never holds more
    than a hundred entries. *)
Theorem history_is_last_hundred_distinct_sends (msgs : list string) :
  let c := foldl (λ c msg, AddToHistory msg c) init msgs in
  sentHistory c = lastN 100 (compress (filter (λ msg, msg ≠ "") msgs)) ∧
  (length (sentHistory c) ≤ 100)%nat.
Proof.
  intros c.
  assert (sentHistory c = lastN 100 (compress (filter (λ msg, msg ≠ "") msgs)))
    as Hc; [|split; [done|rewrite Hc, length_lastN; lia]].
  subst c. induction msgs as [|msg msgs IH] using rev_ind; [done|].
  rewrite foldl_app. simpl. rewrite AddToHistory_history, IH, filter_app.
  rewrite last_lastN, last_compress by lia.
  rewrite filter_cons, filter_nil. destruct (decide (msg = "")) as [->|Hne].
  { destruct (decide (_ ∨ _)); [|tauto]. destruct (decide (_ ≠ _)); [done|].
    by rewrite app_nil_r. }
  destruct (decide (msg ≠ "")); [|done]. rewrite compress_snoc.
  destruct (decide (last (filter (λ m, m ≠ "") msgs) = Some msg)) as [Hl|Hl].
  - by destruct (decide (_ ∨ _)); [|tauto].
  - destruct (decide (_ ∨ _)); [tauto|]. cbv zeta. by rewrite lastN_snoc.
Qed.

(** *** Browsing the history with the arrow keys *)

Lemma wrapInt_small (z : Z) : -1 ≤ z ≤ 101 → Go.wrapInt z = z.
Proof. intros H. apply wrapInt_id. rewrite minInt_unfold, maxInt_unfold. lia. Qed.

Lemma AddToHistory_length (msg : string) (c : state) :
  (length (sentHistory c) ≤ 100)%nat →
  (length (sentHistory (AddToHistory msg c)) ≤ 100)%nat.
Proof.
  intros H. rewrite AddToHistory_history. destruct (decide (_ ∨ _)); [done|].
  cbv zeta. case_decide; rewrite ?length_drop; rewrite length_app in *;
    simpl in *; lia.
Qed.

Lemma historyAt_in_range (c : state) (i : Z) :
  0 ≤ i < Z.of_nat (length (sentHistory c)) →
  ∃ text, historyAt c i = Some text ∧ sentHistory c !! Z.to_nat i = Some text.
Proof.
  intros H. unfold historyAt. rewrite decide_True by lia.
  destruct (lookup_lt_is_Some_2 (sentHistory c) (Z.to_nat i)) as [text Ht]; [lia|].
  by exists text.
Qed.

(** Between two events the index is [-1] or a position of the history,
    which holds at most a hundred entries. *)
Lemma step_in_range (commandIsNick : string → bool) (c : state) (e : event) :
  (historyIdx c = -1 ∨ 0 ≤ historyIdx c < Z.of_nat (length (sentHistory c))) →
  (length (sentHistory c) ≤ 100)%nat →
  ∃ c', step commandIsNick c e = Some c' ∧
        (historyIdx c' = -1 ∨ 0 ≤ historyIdx c' < Z.of_nat (length (sentHistory c'))) ∧
        (length (sentHistory c') ≤ 100)%nat.
Proof.
  intros Hidx Hlen. destruct e as [k|text|]; simpl.
  - unfold inputCapture. destruct (nickActive c); simpl; [|by exists c].
    destruct k; [| |by exists c].
    + destruct (negb _ && negb _); simpl; [by exists c|].
      case_decide; simpl; [by exists c|].
      set (idx := if decide (historyIdx c < 0) then _ else _).
      assert (0 ≤ idx < Z.of_nat (length (sentHistory c))) as Hin.
      { subst idx. repeat case_decide; rewrite ?wrapInt_small by lia; lia. }
      destruct (historyAt_in_range c idx Hin) as (text & -> & _). simpl.
      eexists. split; [done|]. simpl. split; [by right|done].
    + destruct (negb _ && negb _); simpl; [by exists c|].
      case_decide; simpl; [by exists c|].
      rewrite wrapInt_small by lia. case_decide; simpl.
      { eexists. split; [done|]. simpl. split; [by left|done]. }
      destruct (historyAt_in_range c (historyIdx c + 1)) as (text & -> & _); [lia|].
      simpl. eexists. split; [done|]. simpl. split; [by right; lia|done].
  - eexists. split; [done|]. by simpl.
  - unfold doneEnter. case_decide; [|by exists c].
    eexists. split; [done|]. simpl. split; [by left|].
    destruct (Go.HasPrefix _ _); [by destruct (commandIsNick _)|].
    by apply AddToHistory_length.
Qed.

(** X4: No sequence of keys, edits and sends makes the arrow-key handler read
    outside [sentHistory]: every run of the input field goes through, and
    leaves the index at [-1] or at a position of the history. *)
Theorem history_navigation_stays_in_range (commandIsNick : string → bool)
    (es : list event) :
  ∃ c, run commandIsNick init es = Some c ∧
       (historyIdx c = -1 ∨ 0 ≤ historyIdx c < Z.of_nat (length (sentHistory c))) ∧
       (length (sentHistory c) ≤ 100)%nat.
Proof.
  assert (∀ c, (historyIdx c = -1 ∨
                0 ≤ historyIdx c < Z.of_nat (length (sentHistory c))) →
               (length (sentHistory c) ≤ 100)%nat →
               ∃ c', run commandIsNick c es = Some c' ∧
                     (historyIdx c' = -1 ∨
                      0 ≤ historyIdx c' < Z.of_nat (length (sentHistory c'))) ∧
                     (length (sentHistory c') ≤ 100)%nat) as Hrun.
  { induction es as [|e es IH]; intros c Hidx Hlen; [by exists c|].
    destruct (step_in_range commandIsNick c e Hidx Hlen) as (c1 & Hstep & H1 & H2).
    simpl. rewrite Hstep. by apply IH. }
  apply Hrun; simpl; [by left|lia].
Qed.

Lemma run_snoc (commandIsNick : string → bool) (c : state) (es : list event)
    (e : event) :
  run commandIsNick c (es ++ [e])
  = run commandIsNick c es ≫= λ c', step commandIsNick c' e.
Proof.
  revert c. induction es as [|e' es IH]; intros c; simpl.
  - by destruct (step commandIsNick c e).
  - destruct (step commandIsNick c e'); [apply IH|done].
Qed.

Lemma run_app_input (commandIsNick : string → bool) (c : state)
    (es1 es2 : list event) :
  run commandIsNick c (es1 ++ es2)
  = run commandIsNick c es1 ≫= λ c', run commandIsNick c' es2.
Proof.
  revert c. induction es1 as [|e es1 IH]; intros c; simpl; [done|].
  destruct (step commandIsNick c e); [apply IH|done].
Qed.

Lemma replicate_snoc {A} (n : nat) (x : A) :
  replicate (S n) x = replicate n x ++ [x].
Proof. induction n as [|n IH]; [done|]. simpl in *. by rewrite <- IH. Qed.

(** [k] times the left arrow, from the empty field. *)
Lemma lefts (commandIsNick : string → bool) (c : state) (k : nat) :
  nickActive c = true → historyIdx c = -1 → fieldText c = "" →
  (length (sentHistory c) ≤ 100)%nat →
  (1 ≤ k ≤ length (sentHistory c))%nat →
  ∃ text, sentHistory c !! (length (sentHistory c) - k)%nat = Some text ∧
          run commandIsNick c (replicate k (EvKey KeyLeft))
          = Some (browse (Z.of_nat (length (sentHistory c) - k)) text c).
Proof.
  intros Hnick Hidx Hfield Hlen. induction k as [|k IH]; [lia|]. intros Hk.
  destruct (decide (k = 0%nat)) as [->|Hk0].
  - destruct (historyAt_in_range c (Z.of_nat (length (sentHistory c) - 1)))
      as (text & Hat & Htext); [lia|].
    rewrite Nat2Z.id in Htext. exists text. split; [done|].
    simpl. unfold inputCapture. rewrite Hnick, Hfield, Hidx. simpl.
    rewrite decide_False by lia. rewrite wrapInt_small by lia.
    replace (Z.of_nat (length (sentHistory c)) - 1)
      with (Z.of_nat (length (sentHistory c) - 1)) by lia.
    by rewrite Hat.
  - destruct IH as (prev & _ & Hrun); [lia|].
    destruct (historyAt_in_range c (Z.of_nat (length (sentHistory c) - S k)))
      as (text & Hat & Htext); [lia|].
    rewrite Nat2Z.id in Htext. exists text. split; [done|].
    rewrite replicate_snoc, run_snoc, Hrun. simpl.
    unfold inputCapture. simpl. rewrite Hnick. simpl.
    rewrite (bool_decide_eq_true_2 (0 ≤ _)) by lia.
    rewrite andb_false_r. rewrite decide_False by lia.
    rewrite decide_False by lia. rewrite decide_True by lia.
    rewrite wrapInt_small by lia.
    replace (Z.of_nat (length (sentHistory c) - k) - 1)
      with (Z.of_nat (length (sentHistory c) - S k)) by lia.
    change (historyAt (browse _ prev c)) with (historyAt c). by rewrite Hat.
Qed.

(** [j] times the right arrow, from position [i] of the history. *)
Lemma rights (commandIsNick : string → bool) (c : state) (i j : nat) (shown : string) :
  nickActive c = true → historyIdx c = -1 → fieldText c = "" →
  (length (sentHistory c) ≤ 100)%nat →
  (i + j = length (sentHistory c))%nat → (1 ≤ j)%nat →
  run commandIsNick (browse (Z.of_nat i) shown c) (replicate j (EvKey KeyRight))
  = Some c.
Proof.
  intros Hnick Hidx Hfield Hlen. revert i shown.
  induction j as [|j IH]; intros i shown Hij Hj; [lia|].
  simpl. unfold inputCapture. simpl. rewrite Hnick. simpl.
  rewrite (bool_decide_eq_true_2 (0 ≤ _)) by lia. rewrite andb_false_r.
  rewrite decide_False by lia. rewrite wrapInt_small by lia.
  destruct (decide (j = 0%nat)) as [->|Hj0].
  - rewrite decide_True by lia. simpl. f_equal.
    destruct c; simpl in *; by subst.
  - rewrite decide_False by lia.
    destruct (historyAt_in_range c (Z.of_nat i + 1)) as (text & Hat & _); [lia|].
    change (historyAt (browse _ shown c)) with (historyAt c). rewrite Hat. simpl.
    replace (Z.of_nat i + 1) with (Z.of_nat (S i)) by lia.
    change (browse (Z.of_nat (S i)) text (browse (Z.of_nat i) shown c))
      with (browse (Z.of_nat (S i)) text c).
    apply IH; lia.
Qed.

(** X5: In nick mode, from the empty field, the left arrow pressed [k] times
    shows the [k]-th most recent entry of the history, and the right arrow
    pressed as many times then leads back to the empty field. *)
Theorem arrow_keys_walk_the_history (commandIsNick : string → bool)
    (c : state) (k : nat) :
  nickActive c = true → historyIdx c = -1 → fieldText c = "" →
  (length (sentHistory c) ≤ 100)%nat →
  (1 ≤ k ≤ length (sentHistory c))%nat →
  (∃ text, sentHistory c !! (length (sentHistory c) - k)%nat = Some text ∧
           run commandIsNick c (replicate k (EvKey KeyLeft))
           = Some (browse (Z.of_nat (length (sentHistory c) - k)) text c)) ∧
  run commandIsNick c
    (replicate k (EvKey KeyLeft) ++ replicate k (EvKey KeyRight)) = Some c.
Proof.
  intros Hnick Hidx Hfield Hlen Hk.
  destruct (lefts commandIsNick c k Hnick Hidx Hfield Hlen Hk) as (text & Ht & Hrun).
  split; [by exists text|].
  rewrite run_app_input, Hrun. simpl. apply rights; try done; lia.
Qed.

End History.

(** ** The display mode *)


(** ** The login view *)

Section Login.
Import login.
Variable TrimSpace : string → string.
Variable ToLower : string → string.

Lemma colorLoop_elem (input : string) (i : nat) (cs : list colorOption)
    (c : colorOption) :
  colorLoop input i cs = Some c → c ∈ cs.
Proof.
  revert i. induction cs as [|c' cs IH]; intros i; simpl; [done|].
  repeat case_decide.
  - intros [= ->]. by left.
  - intros [= ->]. by left.
  - intros Hl. right. by eapply IH.
Qed.

(** X7: [parseColorInput] accepts the numbers of the palette and the names of
    its colors, after trimming and lowering, and nothing else; a number and
    the name at its position select the same color. *)
Theorem parseColorInput_accepts_numbers_and_names (input : string) :
  let norm := ToLower (TrimSpace input) in
  (∀ i c, loginColors !! i = Some c →
          norm = decimal (Z.of_nat i + 1) ∨ norm = name c →
          parseColorInput TrimSpace ToLower input = Some c) ∧
  (∀ c, parseColorInput TrimSpace ToLower input = Some c →
        ∃ i, loginColors !! i = Some c ∧
             (norm = decimal (Z.of_nat i + 1) ∨ norm = name c)) ∧
  (parseColorInput TrimSpace ToLower input = None ↔
   ∀ i c, loginColors !! i = Some c →
          norm ≠ decimal (Z.of_nat i + 1) ∧ norm ≠ name c).
Proof.
  intros norm.
  assert (∀ i c, loginColors !! i = Some c →
                 norm = decimal (Z.of_nat i + 1) ∨ norm = name c →
                 parseColorInput TrimSpace ToLower input = Some c) as Hsel.
  { intros i c Hi Hn. unfold parseColorInput. fold norm.
    do 7 (destruct i as [|i]; [simpl in Hi; simplify_eq;
                               destruct Hn as [-> | ->]; reflexivity|]).
    done. }
  assert (∀ c, parseColorInput TrimSpace ToLower input = Some c →
               ∃ i, loginColors !! i = Some c ∧
                    (norm = decimal (Z.of_nat i + 1) ∨ norm = name c)) as Hinv.
  { intros c. unfold parseColorInput. fold norm. unfold loginColors.
    unfold colorLoop. 
    repeat (case_decide;
            [intros [= <-];
             first [by exists 0%nat; split; [done|auto]
                   |by exists 1%nat; split; [done|auto]
                   |by exists 2%nat; split; [done|auto]
                   |by exists 3%nat; split; [done|auto]
                   |by exists 4%nat; split; [done|auto]
                   |by exists 5%nat; split; [done|auto]
                   |by exists 6%nat; split; [done|auto]]|]).
    done. }
  split; [done|]. split; [done|]. split.
  - intros Hnone i c Hi. split; intros Hn.
    + by rewrite (Hsel i c Hi (or_introl Hn)) in Hnone.
    + by rewrite (Hsel i c Hi (or_intror Hn)) in Hnone.
  - intros Hall. destruct (parseColorInput TrimSpace ToLower input) as [c|] eqn:Hp;
      [|done].
    destruct (Hinv c eq_refl) as (i & Hi & Hn).
    destruct (Hall i c Hi) as [H1 H2]. tauto.
Qed.

(** The palette: every tag is one [safeColorTag] returns as it is, and one
    that passes the test of [OnLoginSubmit]. *)
Lemma palette_tags (c : colorOption) :
  c ∈ loginColors →
  views.safeColorTag (tag c) = tag c ∧ tag c ≠ "" ∧ Go.HasPrefix (tag c) "[" = true.
Proof.
  unfold loginColors. rewrite !elem_of_cons, elem_of_nil.
  intros [->|[->|[->|[->|[->|[->|[->|[]]]]]]]]; by vm_compute.
Qed.

Lemma step_login (l : LoginView) (e : event) :
  (currentStep l = 0 ∨ (currentStep l = 1 ∨ currentStep l = 2) ∧ username l ≠ "") →
  (∃ c, c ∈ loginColors ∧ chosenColor l = tag c) →
  let l' := (step TrimSpace ToLower l e).1 in
  (currentStep l' = 0 ∨ (currentStep l' = 1 ∨ currentStep l' = 2) ∧ username l' ≠ "") ∧
  (∃ c, c ∈ loginColors ∧ chosenColor l' = tag c) ∧
  ∀ u col, Submitted u col ∈ (step TrimSpace ToLower l e).2 →
           u ≠ "" ∧ ∃ c, c ∈ loginColors ∧ col = tag c.
Proof.
  intros Hstep Hcol. destruct e as [raw|]; simpl.
  - unfold handleEnter. repeat case_decide.
    + split; [by left|]. split; [done|]. intros u col Hin. by apply elem_of_nil in Hin.
    + simpl. split; [right; by split; [left|]|]. split; [done|].
      intros u col Hin. apply list_elem_of_singleton in Hin. done.
    + destruct (parseColorInput TrimSpace ToLower (TrimSpace raw)) as [chosen|] eqn:Hp;
        simpl.
      * split; [right; split; [by right|]; destruct Hstep as [?|[_ ?]]; [lia|done]|].
        split; [exists chosen; split; [|done]; by eapply colorLoop_elem|].
        intros u col Hin. rewrite !elem_of_cons, elem_of_nil in Hin.
        by destruct Hin as [?|[?|[]]].
      * split; [done|]. split; [done|].
        intros u col Hin. apply list_elem_of_singleton in Hin. done.
    + split; [done|]. split; [done|]. intros u col Hin.
      apply list_elem_of_singleton in Hin. injection Hin as -> ->.
      split; [destruct Hstep as [?|[_ ?]]; [lia|done]|done].
    + split; [done|]. split; [done|]. intros u col Hin. by apply elem_of_nil in Hin.
  - split; [by left|]. split; [done|]. intros u col Hin.
    apply list_elem_of_singleton in Hin. done.
Qed.

(** X8: Whatever is typed into the login view, [onSubmit] is only ever called
    with a username that is not empty and with the tag of a palette color,
    which [safeColorTag] returns as it is and which passes the test of
    [OnLoginSubmit] (not empty, opening bracket first). *)
Theorem login_submits_a_name_and_a_palette_color (es : list event) (u col : string) :
  Submitted u col ∈ (run TrimSpace ToLower NewLoginView es).2 →
  u ≠ "" ∧ (∃ c, c ∈ loginColors ∧ col = tag c) ∧
  views.safeColorTag col = col ∧ col ≠ "" ∧ Go.HasPrefix col "[" = true.
Proof.
  assert (∀ l,
    (currentStep l = 0 ∨ (currentStep l = 1 ∨ currentStep l = 2) ∧ username l ≠ "") →
    (∃ c, c ∈ loginColors ∧ chosenColor l = tag c) →
    Submitted u col ∈ (run TrimSpace ToLower l es).2 →
    u ≠ "" ∧ ∃ c, c ∈ loginColors ∧ col = tag c) as Hrun.
  { induction es as [|e es IH]; intros l H1 H2; simpl.
    { intros H. by apply elem_of_nil in H. }
    destruct (step_login l e H1 H2) as (H1' & H2' & Hout).
    destruct (step TrimSpace ToLower l e) as [l1 out]. simpl in *.
    specialize (IH l1 H1' H2').
    destruct (run TrimSpace ToLower l1 es) as [l2 outs]. simpl in *.
    intros H. apply elem_of_app in H as [H|H]; [by apply Hout|by apply IH]. }
  intros H. destruct (Hrun NewLoginView) as (Hu & c & Hc & ->); try done.
  { by left. }
  { exists {| name := "cyan"; tag := "[cyan]"; display := "Cyan" |}.
    split; [|done]. unfold loginColors. rewrite !elem_of_cons. tauto. }
  split; [done|]. split; [by exists c|]. by apply palette_tags.
Qed.

End Login.

(** ** Animations from start to end *)

Lemma wordTick_last (animID : Z) (pfx snapshot : string) (c : views.ChatView) :
  views.stopped c = false →
  views.wordTick animID (views.inFlightGen c) pfx snapshot true c
  = views.renderMessages
      (views.setCommittedText
         (views.committedText c +:+ pfx +:+ views.sanitizeContent snapshot
            +:+ "[-]" +:+ Go.nl)
         (views.setInFlight (delete animID (views.inFlight c)) c)).
Proof.
  intros Hs. unfold views.wordTick. rewrite Hs. by rewrite decide_False by (by intros ?).
Qed.

Lemma wordTick_more (animID : Z) (pfx snapshot : string) (c : views.ChatView) :
  views.stopped c = false →
  views.wordTick animID (views.inFlightGen c) pfx snapshot false c
  = views.renderMessages
      (views.setInFlight
         (<[animID := pfx +:+ views.sanitizeContent snapshot +:+ " [dim]▋[-]"]>
            (views.inFlight c)) c).
Proof.
  intros Hs. unfold views.wordTick. rewrite Hs. by rewrite decide_False by (by intros ?).
Qed.

Lemma wordLoop_cons (i n : nat) (built word : string) (rest : list string) :
  views.wordLoop i n built (word :: rest)
  = (let built := if decide (i = 0%nat) then word else built +:+ " " +:+ word in
     (built, bool_decide (i = (n - 1)%nat)) :: views.wordLoop (S i) n built rest).
Proof. reflexivity. Qed.

Lemma concat_cons_cons (w w2 : string) (ws : list string) :
  String.concat " " (w :: w2 :: ws) = w +:+ " " +:+ String.concat " " (w2 :: ws).
Proof. reflexivity. Qed.

(** The word-ticks of one animation, run to the end without a clear or a
    stop in between: the slot is gone and the line is committed. *)
Lemma wordTicks_commit (animID : Z) (pfx : string) (words : list string) :
  ∀ (i n : nat) (built : string) (c : views.ChatView),
    words ≠ [] → (i + length words = n)%nat →
    views.stopped c = false →
    let final := if decide (i = 0%nat) then String.concat " " words
                 else built +:+ " " +:+ String.concat " " words in
    let c' := foldl (λ c t, views.wordTick animID (views.inFlightGen c) pfx t.1 t.2 c)
                    c (views.wordLoop i n built words) in
    views.committedText c'
    = views.committedText c +:+ pfx +:+ views.sanitizeContent final
        +:+ "[-]" +:+ Go.nl ∧
    views.inFlight c' = delete animID (views.inFlight c) ∧
    views.nextAnimID c' = views.nextAnimID c ∧
    views.stopped c' = false ∧
    views.inFlightGen c' = views.inFlightGen c ∧
    views.animMode c' = views.animMode c ∧
    views.messageView c' = views.composeText c'.
Proof.
  induction words as [|w words IH]; intros i n built c Hne Hlen Hs; [done|].
  destruct words as [|w2 ws].
  - rewrite wordLoop_cons. cbv zeta. simpl in Hlen.
    rewrite bool_decide_eq_true_2 by lia. simpl foldl.
    rewrite wordTick_last by done. simpl.
    split; [|done]. by destruct (decide (i = 0%nat)).
  - rewrite wordLoop_cons. cbv zeta. simpl in Hlen.
    rewrite bool_decide_eq_false_2 by lia.
    change (foldl ?f c (?t :: ?l)) with (foldl f (f c t) l).
    cbn [fst snd]. rewrite wordTick_more by done.
    set (built' := if decide (i = 0%nat) then w else built +:+ " " +:+ w).
    set (c1 := views.renderMessages _).
    destruct (IH (S i) n built' c1) as (H1 & H2 & H3 & H4 & H5 & H6 & H7);
      [done|simpl; lia|done|].
    rewrite decide_False in H1 by lia.
    split; [|split; [|done]].
    + rewrite H1. subst c1. simpl. do 2 f_equal. f_equal. subst built'.
      destruct (decide (i = 0%nat)); [done|]. by rewrite !append_assoc.
    + rewrite H2. subst c1. simpl. apply delete_insert_eq.
Qed.

Lemma run_wordTicks (task : nat) (slot : views.animSlot) (pfx : string)
    (ticks : list (string * bool)) (s : views.system) :
  views.handedOut s !! task = Some slot → 0 ≤ views.id slot →
  views.run s ((λ t, views.UWordTick task pfx t.1 t.2) <$> ticks)
  = views.withView s
      (foldl (λ c t, views.wordTick (views.id slot) (views.gen slot) pfx t.1 t.2 c)
             (views.view s) ticks).
Proof.
  intros Hslot Hid. revert s Hslot.
  induction ticks as [|t ticks IH]; intros s Hslot; [by destruct s|].
  rewrite fmap_cons.
  change (views.run s (?u :: ?us)) with (views.run (views.step s u) us).
  simpl views.step. rewrite Hslot. rewrite decide_False by lia.
  rewrite IH by done. done.
Qed.

Lemma wordTick_gen (animID myGen : Z) (pfx snapshot : string) (isLast : bool)
    (c : views.ChatView) :
  views.inFlightGen (views.wordTick animID myGen pfx snapshot isLast c)
  = views.inFlightGen c.
Proof.
  unfold views.wordTick. destruct (views.stopped c); [done|].
  case_decide; [done|]. by destruct isLast.
Qed.

Lemma foldl_wordTick_gen (animID g : Z) (pfx : string) (l : list (string * bool))
    (c : views.ChatView) :
  views.inFlightGen c = g →
  foldl (λ c t, views.wordTick animID g pfx t.1 t.2 c) c l
  = foldl (λ c t, views.wordTick animID (views.inFlightGen c) pfx t.1 t.2 c) c l.
Proof.
  revert c. induction l as [|t l IH]; intros c Hg; [done|]. simpl.
  rewrite Hg. apply IH. by rewrite wordTick_gen.
Qed.

Lemma transcript_ext (c1 c2 : views.ChatView) :
  views.committedText c1 = views.committedText c2 →
  views.inFlight c1 = views.inFlight c2 →
  views.transcript c1 = views.transcript c2.
Proof. intros H1 H2. unfold views.transcript, views.liveSlots. by rewrite H1, H2. Qed.

(** X9: An animation that runs to its end, with no clear and no stop in
    between, leaves what static mode leaves for the words joined by single
    spaces: the line is committed after the text committed before, the slot
    is freed, and the visible text is the same. *)
Theorem animation_ends_as_the_static_line (us : list views.update)
    (pfx : string) (words : list string) :
  let s := views.run views.start us in
  let ticks := (λ t, views.UWordTick (length (views.handedOut s)) pfx t.1 t.2)
                 <$> views.animTicks words in
  let animated := views.view (views.run s (views.UAnimInit pfx :: ticks)) in
  let static :=
    views.view (views.step s (views.UStaticDraw pfx (String.concat " " words))) in
  Z.of_nat (views.allocations us) < Go.maxInt →
  views.stopped (views.view s) = false →
  words ≠ [] →
  views.committedText animated
  = views.committedText (views.view s) +:+ pfx
      +:+ views.sanitizeContent (String.concat " " words) +:+ "[-]" +:+ Go.nl ∧
  views.inFlight animated = views.inFlight (views.view s) ∧
  views.committedText animated = views.committedText static ∧
  views.inFlight animated = views.inFlight static ∧
  views.messageView animated = views.messageView static.
Proof.
  intros s ticks animated static Hmax Hs Hne.
  destruct (run_inv us views.start inv_start) as [Hinv Hnext]; [simpl; lia|].
  fold s in Hinv, Hnext. simpl in Hnext.
  pose proof (views.inv_view _ Hinv) as [Hpos Hkeys Hshown].
  set (slot := {| views.id := views.nextAnimID (views.view s);
                  views.gen := views.inFlightGen (views.view s) |}).
  assert (views.step s (views.UAnimInit pfx)
          = {| views.view := (views.animInit pfx (views.view s)).1;
               views.handedOut := views.handedOut s ++ [slot] |}) as Hinit.
  { rewrite step_animInit. unfold views.animInit. by rewrite Hs. }
  set (c1 := (views.animInit pfx (views.view s)).1) in *.
  assert (views.stopped c1 = false ∧
          views.inFlightGen c1 = views.inFlightGen (views.view s) ∧
          views.committedText c1 = views.committedText (views.view s) ∧
          views.inFlight c1
          = <[views.nextAnimID (views.view s) := pfx +:+ "[dim]▋[-]"]>
              (views.inFlight (views.view s)) ∧
          views.nextAnimID c1 = views.nextAnimID (views.view s) + 1)
    as (Hs1 & Hg1 & Hc1 & Hf1 & Hn1).
  { pose proof (nextAnimID_animInit pfx (views.view s)) as Hn.
    rewrite Hs in Hn. fold c1 in Hn. rewrite Hn by lia.
    subst c1. unfold views.animInit. rewrite Hs. by simpl. }
  assert (animated
          = foldl (λ c t, views.wordTick (views.id slot) (views.inFlightGen c)
                            pfx t.1 t.2 c)
                  c1 (views.animTicks words)) as Hrun.
  { subst animated.
    change (views.run s (?u :: ?l)) with (views.run (views.step s u) l).
    rewrite Hinit. subst ticks.
    rewrite (run_wordTicks _ slot); [|simpl; by rewrite lookup_app_r, Nat.sub_diag by lia|done].
    simpl. by apply foldl_wordTick_gen. }
  destruct (wordTicks_commit (views.id slot) pfx words 0 (length words) "" c1)
    as (H1 & H2 & H3 & H4 & H5 & H6 & H7); [done|done|done|].
  unfold views.animTicks in Hrun. rewrite <- Hrun in *. simpl in H1.
  assert (views.inFlight animated = views.inFlight (views.view s)) as Hfree.
  { rewrite H2, Hf1. simpl. apply delete_insert_id.
    destruct (views.inFlight (views.view s) !! views.nextAnimID (views.view s))
      eqn:Hl; [|done].
    destruct (Hkeys (views.nextAnimID (views.view s))); [by eexists|lia]. }
  assert (views.committedText static = views.committedText animated ∧
          views.inFlight static = views.inFlight (views.view s) ∧
          views.messageView static = views.composeText static ∧
          views.nextAnimID static = views.nextAnimID (views.view s))
    as (Hsc & Hsf & Hsm & Hsn).
  { subst static. simpl. unfold views.staticDraw. rewrite Hs. simpl.
    by rewrite H1, Hc1. }
  rewrite H1, Hc1. split; [done|]. split; [done|].
  split; [by rewrite Hsc, H1, Hc1|]. split; [by rewrite Hsf|].
  rewrite H7, Hsm, !composeText_transcript.
  - apply transcript_ext; [done|by rewrite Hsf].
  - intros k Hk. rewrite Hsf in Hk. rewrite Hsn. by apply Hkeys.
  - intros k Hk. rewrite Hfree in Hk. rewrite H3, Hn1.
    specialize (Hkeys k Hk). lia.
Qed.

(** ** Bulk replace, stop, and what an update may touch *)

Lemma step_wordTick (s : views.system) (task : nat) (slot : views.animSlot)
    (pfx snapshot : string) (isLast : bool) :
  views.handedOut s !! task = Some slot → 0 ≤ views.id slot →
  views.step s (views.UWordTick task pfx snapshot isLast)
  = views.withView s
      (views.wordTick (views.id slot) (views.gen slot) pfx snapshot isLast
         (views.view s)).
Proof. intros Hslot Hid. simpl. rewrite Hslot. by rewrite decide_False by lia. Qed.

(** X10: [SetMessages] empties the slot map but leaves the generation as it is:
    a word-tick of an animation that was running before the bulk replace
    still takes effect after it.  A tick that is not the last one puts the
    slot back, and the last one commits its line after the loaded
    messages. *)
Theorem SetMessages_keeps_animations_running (s : views.system) (task : nat)
    (slot : views.animSlot) (messages : list views.Message)
    (pfx snapshot : string) :
  views.handedOut s !! task = Some slot → 0 ≤ views.id slot →
  views.gen slot = views.inFlightGen (views.view s) →
  views.stopped (views.view s) = false →
  let loaded := foldl (λ b msg, b +:+ views.formatLine msg) "" messages in
  let more := views.view (views.run s [views.USetMessages messages;
                                       views.UWordTick task pfx snapshot false]) in
  let last := views.view (views.run s [views.USetMessages messages;
                                       views.UWordTick task pfx snapshot true]) in
  views.inFlightGen (views.view (views.step s (views.USetMessages messages)))
  = views.inFlightGen (views.view s) ∧
  views.inFlight more
  = {[ views.id slot := pfx +:+ views.sanitizeContent snapshot +:+ " [dim]▋[-]" ]} ∧
  views.committedText more = loaded ∧
  views.inFlight last = ∅ ∧
  views.committedText last
  = loaded +:+ pfx +:+ views.sanitizeContent snapshot +:+ "[-]" +:+ Go.nl.
Proof.
  intros Hslot Hid Hgen Hs loaded more last.
  set (s1 := views.step s (views.USetMessages messages)).
  assert (views.view s1
          = views.renderMessages
              (views.setInFlight ∅ (views.setCommittedText loaded (views.view s))))
    as Hview.
  { subst s1. simpl. unfold views.SetMessages. by rewrite Hs. }
  assert (views.handedOut s1 !! task = Some slot) as Hslot1 by done.
  assert (views.gen slot = views.inFlightGen (views.view s1)) as Hgen1
    by (by rewrite Hview).
  assert (views.stopped (views.view s1) = false) as Hs1 by (by rewrite Hview).
  split; [by rewrite Hview|].
  subst more last.
  change (views.run s [?u; ?v]) with (views.step (views.step s u) v).
  fold s1. rewrite !(step_wordTick s1 task slot) by done.
  rewrite Hgen1, wordTick_more, wordTick_last by done. rewrite Hview. simpl.
  split; [by rewrite insert_empty|]. split; [done|]. split; [apply delete_empty|done].
Qed.

Lemma stopped_step (s : views.system) (u : views.update) :
  views.stopped (views.view s) = true →
  views.stopped (views.view (views.step s u)) = true.
Proof.
  intros Hs.
  destruct u as [msg|pfx content|pfx|task pfx snapshot isLast|messages| |anim| ];
    simpl; try done.
  - unfold views.staticDraw. by rewrite Hs.
  - unfold views.animInit. by rewrite Hs.
  - destruct (views.handedOut s !! task); [|done]. case_decide; [done|]. simpl.
    unfold views.wordTick. by rewrite Hs.
  - unfold views.SetMessages. by rewrite Hs.
Qed.

Lemma stopped_step_guarded (s : views.system) (u : views.update) :
  views.stopped (views.view s) = true →
  match u with
  | views.UAddMessage _ | views.UClearMessages | views.USetAnimationMode _ => False
  | _ => True
  end →
  views.view (views.step s u) = views.view s ∧
  views.handedOut (views.step s u)
  = views.handedOut s
      ++ replicate (views.allocations [u]) {| views.id := -1; views.gen := -1 |}.
Proof.
  intros Hs Hu.
  destruct u as [msg|pfx content|pfx|task pfx snapshot isLast|messages| |anim| ];
    simpl; try done.
  - unfold views.staticDraw. rewrite Hs. by rewrite app_nil_r.
  - unfold views.animInit. by rewrite Hs.
  - rewrite app_nil_r. destruct (views.handedOut s !! task); [|done].
    case_decide; [done|]. simpl. unfold views.wordTick. by rewrite Hs.
  - unfold views.SetMessages. rewrite Hs. by rewrite app_nil_r.
  - rewrite app_nil_r. unfold views.Stop. destruct s as [[] ?]. simpl in *. by subst.
Qed.

(** X11: Once [Stop] was called on the view, it stays stopped, and the closures
    queued on the event loop and [SetMessages] leave it as it is: no line is
    drawn, no slot is allocated (a new animation is handed the slot [-1] and
    makes no tick), no tick takes effect.  [AddIncomingMessage] queues
    nothing.  ([AddMessage], [ClearMessages] and [SetAnimationMode] do not
    read the flag.) *)
Theorem stopped_view_ignores_queued_updates (s : views.system)
    (us : list views.update) :
  views.stopped (views.view s) = true →
  views.stopped (views.view (views.run s us)) = true ∧
  (Forall (λ u, match u with
                | views.UAddMessage _ | views.UClearMessages
                | views.USetAnimationMode _ => False
                | _ => True
                end) us →
   views.view (views.run s us) = views.view s ∧
   views.handedOut (views.run s us)
   = views.handedOut s
       ++ replicate (views.allocations us) {| views.id := -1; views.gen := -1 |}) ∧
  (∀ GetUsernameColor ParseColorToTag Fields ts username content colorTag,
     views.AddIncomingMessage GetUsernameColor ParseColorToTag Fields
       ts username content colorTag (views.view (views.run s us))
     = views.Nothing).
Proof.
  intros Hs.
  assert (views.stopped (views.view (views.run s us)) = true) as Hrun.
  { revert s Hs. induction us as [|u us IH]; intros s Hs; [done|].
    apply (IH (views.step s u)). by apply stopped_step. }
  split; [done|]. split.
  - clear Hrun. revert s Hs. induction us as [|u us IH]; intros s Hs Hus.
    { simpl. by rewrite app_nil_r. }
    apply Forall_cons in Hus as [Hu Hus].
    destruct (stopped_step_guarded s u Hs Hu) as [Hv Hh].
    change (views.run s (u :: us)) with (views.run (views.step s u) us).
    destruct (IH (views.step s u)) as [-> ->]; [by rewrite Hv|done|].
    split; [done|]. rewrite Hh, (allocations_cons u us), replicate_add.
    by rewrite app_assoc.
  - intros. unfold views.AddIncomingMessage. by rewrite Hrun.
Qed.

Lemma committed_step (s : views.system) (u : views.update) :
  match u with
  | views.USetMessages _ | views.UClearMessages => False
  | _ => True
  end →
  ∃ suffix, views.committedText (views.view (views.step s u))
            = views.committedText (views.view s) +:+ suffix.
Proof.
  intros Hu.
  destruct u as [msg|pfx content|pfx|task pfx snapshot isLast|messages| |anim| ];
    simpl; try done; try (by exists ""; rewrite append_nil_r).
  - by eexists.
  - unfold views.staticDraw. destruct (views.stopped _).
    + exists "". by rewrite append_nil_r.
    + by eexists.
  - unfold views.animInit. destruct (views.stopped _); exists ""; by rewrite append_nil_r.
  - destruct (views.handedOut s !! task); [|by exists ""; rewrite append_nil_r].
    case_decide; [by exists ""; rewrite append_nil_r|]. simpl.
    unfold views.wordTick. destruct (views.stopped _); [by exists ""; rewrite append_nil_r|].
    case_decide; [by exists ""; rewrite append_nil_r|].
    destruct isLast; simpl; [by eexists|by exists ""; rewrite append_nil_r].
Qed.

(** X12: Between two clears or bulk replaces the committed text only grows at
    its end, and an update touches no slot but its own: an anim-init only
    the slot it allocates, a word-tick only the slot of its task, the
    others none. *)
Theorem updates_append_and_touch_one_slot :
  (∀ s us,
     Forall (λ u, match u with
                  | views.USetMessages _ | views.UClearMessages => False
                  | _ => True
                  end) us →
     ∃ suffix, views.committedText (views.view (views.run s us))
               = views.committedText (views.view s) +:+ suffix) ∧
  (∀ s u k,
     match u with
     | views.USetMessages _ | views.UClearMessages => False
     | views.UAnimInit _ => k ≠ views.nextAnimID (views.view s)
     | views.UWordTick task _ _ _ =>
         ∀ slot, views.handedOut s !! task = Some slot → k ≠ views.id slot
     | _ => True
     end →
     views.inFlight (views.view (views.step s u)) !! k
     = views.inFlight (views.view s) !! k).
Proof.
  split.
  - intros s us. revert s. induction us as [|u us IH]; intros s Hus.
    { exists "". by rewrite append_nil_r. }
    apply Forall_cons in Hus as [Hu Hus].
    change (views.run s (u :: us)) with (views.run (views.step s u) us).
    destruct (IH (views.step s u) Hus) as [suffix2 ->].
    destruct (committed_step s u Hu) as [suffix1 ->].
    exists (suffix1 +:+ suffix2). by rewrite append_assoc.
  - intros s u k Hu.
    destruct u as [msg|pfx content|pfx|task pfx snapshot isLast|messages| |anim| ];
      simpl; try done.
    + unfold views.staticDraw. by destruct (views.stopped _).
    + unfold views.animInit. destruct (views.stopped _); [done|]. simpl.
      by rewrite lookup_insert_ne.
    + destruct (views.handedOut s !! task) as [slot|] eqn:Hslot; [|done].
      case_decide; [done|]. simpl. unfold views.wordTick.
      destruct (views.stopped _); [done|]. case_decide; [done|].
      specialize (Hu slot eq_refl).
      destruct isLast; simpl; [by rewrite lookup_delete_ne|by rewrite lookup_insert_ne].
Qed.

(** ** The client after [Stop], between polls, and its pending set *)

Section ClientRuns.
Import controllers.
Context (rt : runtime).

Lemma sendAsync_stopped (c : NetworkClient) (o : postOutcome) :
  stopped (sendAsync rt c o).1 = stopped c.
Proof.
  unfold sendAsync. destruct o as [|code body]; [done|].
  repeat case_decide; try done.
  destruct (decodeSendResponse rt body) as [sr|]; [|done]. by case_decide.
Qed.

Lemma pollReturned_stopped (c : NetworkClient) (v : loopVars) (o : httpOutcome) :
  stopped (pollReturned rt c v o).1.1.1 = stopped c.
Proof.
  destruct (poll_keeps rt c o) as (_ & _ & _ & _ & Hs).
  unfold pollReturned. by destruct (poll rt c o) as [c' [msgs [e|]]].
Qed.

(** Where the loop stands after a poll: in the backoff wait after a
    failure, in the pause after a 204, and otherwise in the loop over the
    messages or, when there are none, at the top again. *)
Lemma pollReturned_control (c : NetworkClient) (v : loopVars) (o : httpOutcome) :
  (pollReturned rt c v o).1.2
  = if failed rt c o then InBackoff else toDispatch rt (poll rt c o).2.1.
Proof.
  unfold pollReturned, failed. by destruct (poll rt c o) as [c' [msgs [e|]]].
Qed.

Lemma step_stopped (cl cl1 : client rt) (e : event) (out : list output) :
  stopped (nc cl) = true → step rt cl e = Some (cl1, out) →
  stopped (nc cl1) = true ∧
  (length (posting cl1) ≤ length (posting cl))%nat ∧
  (pc cl ≠ InPoll → pc cl1 ≠ InPoll ∧ ∀ o, e ≠ EvPollReturns o) ∧
  (pc cl = InPoll →
   (∃ o, e = EvPollReturns o) ∧ pc cl1 ≠ InPoll ∨
   (∀ o, e ≠ EvPollReturns o) ∧ pc cl1 = InPoll).
Proof.
  intros Hs Hstep. destruct e as [|o| | | |u c col|i o|]; simpl in Hstep.
  - destruct (pc cl); simplify_eq. simpl. unfold loopTop. rewrite Hs.
    repeat split; try done.
  - destruct (pc cl) eqn:Hpc; try done.
    pose proof (pollReturned_stopped (nc cl) (vars cl) o) as Hs'.
    pose proof (pollReturned_control (nc cl) (vars cl) o) as Hctl.
    destruct (pollReturned rt (nc cl) (vars cl) o) as [[[c' v'] ctl] calls].
    simpl in Hs', Hctl.
    assert (ctl ≠ InPoll) as Hne.
    { rewrite Hctl. destruct (failed rt (nc cl) o); [done|].
      by destruct ((poll rt (nc cl) o).2.1) as [[|]|]. }
    clear Hctl. simplify_eq. simpl.
    split; [congruence|]. split; [done|]. split; [done|]. intros _. left. eauto.
  - destruct (pc cl) as [| | |[|m rest]| |] eqn:Hpc; try done; simpl in Hstep.
    { simplify_eq. simpl. repeat split; try done. }
    destruct (handleIncoming_keeps rt (nc cl) m) as (_ & _ & _ & _ & Hs').
    destruct (handleIncoming rt (nc cl) m) as [c' calls]. simpl in *. simplify_eq.
    simpl. split; [congruence|]. split; [done|].
    split; [intros _; split; [by destruct rest|done]|done].
  - destruct (pc cl); simplify_eq; simpl; repeat split; try done.
  - destruct (pc cl); try done; destruct (stopCh (nc cl)); simplify_eq; simpl;
      repeat split; try done.
  - simplify_eq. simpl. rewrite Hs, app_nil_r.
    repeat split; try done. intros Hpc. right. by split.
  - destruct (posting cl !! i) eqn:Hi; [|done].
    pose proof (sendAsync_stopped (nc cl) o) as Hs'.
    destruct (sendAsync rt (nc cl) o) as [c' calls]. simpl in *. simplify_eq. simpl.
    split; [congruence|]. split; [rewrite length_delete by eauto; lia|].
    split; [done|]. intros Hpc. right. by split.
  - simplify_eq. simpl. unfold Stop. rewrite Hs.
    repeat split; try done. intros Hpc. right. by split.
Qed.

Lemma pollReturns_cons (e : event) (es : list event) :
  length (omap (λ e, if e is EvPollReturns o then Some o else None) (e :: es))
  = ((if e is EvPollReturns _ then 1 else 0)
     + length (omap (λ e, if e is EvPollReturns o then Some o else None) es))%nat.
Proof. by destruct e. Qed.

(** X13: Once [Stop] was called, the client stays stopped, the loop starts no
    further poll (the only poll to return is the one that was in flight),
    no further send is started, and the loop returns when it comes to the
    top.  A loop that has returned takes no further step. *)
Theorem after_Stop_no_poll_and_no_send_starts (cl cl' : client rt)
    (es : list event) (outs : list (list output)) :
  stopped (nc cl) = true →
  run rt cl es = Some (cl', outs) →
  stopped (nc cl') = true ∧
  (length (omap (λ e, if e is EvPollReturns o then Some o else None) es)
   ≤ if pc cl is InPoll then 1 else 0)%nat ∧
  (length (posting cl') ≤ length (posting cl))%nat ∧
  (pc cl ≠ InPoll → pc cl' ≠ InPoll) ∧
  (pc cl' = AtLoopTop →
   ∃ cl'', step rt cl' EvLoopTop = Some (cl'', []) ∧ pc cl'' = Returned) ∧
  (pc cl' = Returned →
   ∀ e, e = EvLoopTop ∨ (∃ o, e = EvPollReturns o) ∨ e = EvHandleIncoming ∨
        e = EvTimer ∨ e = EvStopCh →
        step rt cl' e = None).
Proof.
  intros Hs Hrun.
  assert (∀ ctl : control rt, ctl = InPoll ∨ ctl ≠ InPoll) as Hdec
    by (intros []; auto).
  assert (stopped (nc cl') = true ∧
          (length (omap (λ e, if e is EvPollReturns o then Some o else None) es)
           ≤ if pc cl is InPoll then 1 else 0)%nat ∧
          (length (posting cl') ≤ length (posting cl))%nat ∧
          (pc cl ≠ InPoll → pc cl' ≠ InPoll)) as (H1 & H2 & H3 & H4).
  { revert cl outs Hs Hrun. induction es as [|e es IH]; intros cl outs Hs Hrun.
    { simpl in *. simplify_eq. repeat split; try done. simpl.
      destruct (pc cl'); lia. }
    simpl in Hrun. destruct (step rt cl e) as [[cl1 out]|] eqn:Hstep; [|done].
    destruct (run rt cl1 es) as [[cl2 outs']|] eqn:Hrun'; [|done]. simplify_eq.
    destruct (step_stopped cl cl1 e out Hs Hstep) as (Hs1 & Hp & Hout & Hin).
    destruct (IH cl1 outs' Hs1 Hrun') as (I1 & I2 & I3 & I4).
    split; [done|]. split; [|split; [lia|]].
    - destruct (Hdec (pc cl)) as [Hpc|Hpc].
      + rewrite Hpc, pollReturns_cons. clear Hstep Hrun' IH.
        destruct (Hin Hpc) as [[[o ->] Hne]|[He Heq]].
        * revert I2. destruct (pc cl1); try done; intros; lia.
        * rewrite Heq in I2. revert I2.
          destruct e; try (by exfalso; eapply He); intros; lia.
      + destruct (Hout Hpc) as [Hne He]. clear Hstep Hrun' IH.
        assert (length (omap (λ e, if e is EvPollReturns o then Some o else None)
                          (e :: es)) = 0%nat) as ->; [|lia].
        rewrite pollReturns_cons. revert I2. destruct (pc cl1); try done;
          destruct e; try (by exfalso; eapply He); intros; lia.
    - intros Hpc. apply I4. by apply Hout. }
  split; [done|]. split; [done|]. split; [done|]. split; [done|]. split.
  - intros Hpc. simpl. rewrite Hpc. eexists. split; [done|]. simpl.
    unfold loopTop. by rewrite H1.
  - intros Hpc e He. destruct He as [-> | [[o ->] | [-> | [-> | ->]]]]; simpl;
      by rewrite Hpc.
Qed.

(** X14: A 200 response whose array yields no message is taken as a success and
    is followed by the next poll at once: the loop is back inside [poll]
    without having waited, with the cursor where it was and nothing
    delivered.  After a 204 the loop waits in the 500 ms pause, and the top
    of the loop is reached only over the timer or the stop channel. *)
Theorem empty_batch_is_polled_again_at_once (cl : client rt) (body : string)
    (rawList : list (list (string * RawMessage rt))) :
  pc cl = InPoll → stopped (nc cl) = false →
  unmarshalRawList rt body = Some rawList →
  Forall (λ raw, malformed rt (parseEntry rt raw) = true) rawList →
  (∃ cl' outs,
     run rt cl [EvPollReturns (Response 200 (Some body)); EvLoopTop]
     = Some (cl', outs) ∧
     pc cl' = InPoll ∧ lastID (nc cl') = lastID (nc cl) ∧
     backoff (vars cl') = 1 * Second ∧ onMessageCalls outs = []) ∧
  (∀ b, ∃ cl' out,
     step rt cl (EvPollReturns (Response 204 b)) = Some (cl', out) ∧
     pc cl' = InPause ∧ step rt cl' EvLoopTop = None).
Proof.
  intros Hpc Hs Hbody Hbad.
  assert (parsePollMessages rt body = Some []) as Hparse.
  { rewrite (parsePollMessages_filter rt body rawList Hbody). f_equal.
    clear Hbody. induction Hbad as [|raw rawList Hraw _ IH]; [done|].
    rewrite fmap_cons, filter_cons. by rewrite decide_False by congruence. }
  split.
  - simpl. rewrite Hpc. unfold pollReturned, poll. simpl. rewrite Hparse. simpl.
    unfold loopTop. rewrite Hs. eexists _, _. split; [done|]. simpl.
    repeat split; try done.
    unfold onMessageCalls. simpl.
    destruct (firstConnect (vars cl) || negb (wasConnected (vars cl)));
      unfold notifyStatus; by destruct (onStatusChange (nc cl)).
  - intros b. simpl. rewrite Hpc. unfold pollReturned, poll. simpl.
    eexists _, _. split; [done|]. by simpl.
Qed.

(** *** The pending set *)

Lemma step_sentIDs (cl cl1 : client rt) (e : event) (out : list output) :
  step rt cl e = Some (cl1, out) →
  sentIDs (nc cl1)
  = (sentIDs (nc cl) ∖ list_to_set (ID <$> handledBy rt cl e)) ∪ ackedIDs rt [e].
Proof.
  intros Hstep. unfold handledBy.
  destruct e as [|o| | | |u c col|i o|]; simpl in Hstep.
  - destruct (pc cl); simplify_eq. simpl. set_solver.
  - destruct (pc cl); try done.
    destruct (pollReturned_effect rt (nc cl) (vars cl) o) as (_ & Hids & _).
    destruct (pollReturned rt (nc cl) (vars cl) o) as [[[c' v'] ctl] calls].
    simpl in *. simplify_eq. simpl. rewrite Hids. set_solver.
  - destruct (pc cl) as [| | |[|m rest]| |]; try done; simpl in Hstep.
    { simplify_eq. simpl. set_solver. }
    destruct (decide (ID m ∈ sentIDs (nc cl))) as [Hin|Hout].
    + rewrite handleIncoming_mine in Hstep by done. simplify_eq. simpl. set_solver.
    + rewrite handleIncoming_foreign in Hstep by done. simplify_eq. simpl.
      set_solver.
  - destruct (pc cl); simplify_eq; simpl; set_solver.
  - destruct (pc cl); try done; destruct (stopCh (nc cl)); simplify_eq; simpl;
      set_solver.
  - simplify_eq. simpl. destruct (pc cl); set_solver.
  - destruct (posting cl !! i); [|done].
    destruct (sendAsync_effect rt (nc cl) i o) as (_ & Hids & _).
    destruct (sendAsync rt (nc cl) o) as [c' calls]. simpl in *. simplify_eq. simpl.
    destruct (pc cl); rewrite Hids; set_solver.
  - simplify_eq. simpl. unfold Stop.
    destruct (stopped (nc cl)), (pc cl); simpl; set_solver.
Qed.

Lemma ackedIDs_nonempty (es : list event) : "" ∉ ackedIDs rt es.
Proof.
  unfold ackedIDs. rewrite elem_of_list_to_set, list_elem_of_omap.
  intros (e & _ & He). destruct e as [|o| | | |u c col|i [|code body]|]; try done.
  simpl in He. case_decide; [|done].
  destruct (decodeSendResponse rt body) as [sr|]; [|done].
  case_decide; [|done]. congruence.
Qed.

(** X15: [sentIDs] holds nothing but ids that the relay acknowledged for a send
    of this client, none of them empty; an acknowledged id stays in it
    until an entry with that id is handled, and for good when none is. *)
Theorem sentIDs_holds_acknowledged_ids (cl cl' : client rt) (es : list event)
    (outs : list (list output)) :
  run rt cl es = Some (cl', outs) →
  sentIDs (nc cl') ⊆ sentIDs (nc cl) ∪ ackedIDs rt es ∧
  (sentIDs (nc cl) ∪ ackedIDs rt es) ∖ list_to_set (ID <$> handled rt cl es)
    ⊆ sentIDs (nc cl') ∧
  ("" ∉ sentIDs (nc cl) → "" ∉ sentIDs (nc cl')).
Proof.
  intros Hrun.
  assert (sentIDs (nc cl') ⊆ sentIDs (nc cl) ∪ ackedIDs rt es ∧
          (sentIDs (nc cl) ∪ ackedIDs rt es)
            ∖ list_to_set (ID <$> handled rt cl es) ⊆ sentIDs (nc cl'))
    as [Hup Hlow].
  { revert cl outs Hrun. induction es as [|e es IH]; intros cl outs Hrun.
    { simpl in Hrun. simplify_eq. rewrite ackedIDs_nil. set_solver. }
    simpl in Hrun. destruct (step rt cl e) as [[cl1 out]|] eqn:Hstep; [|done].
    destruct (run rt cl1 es) as [[cl2 outs']|] eqn:Hrun'; [|done]. simplify_eq.
    destruct (IH cl1 outs' Hrun') as [IH1 IH2].
    pose proof (step_sentIDs cl cl1 e out Hstep) as Hset.
    rewrite (handled_cons rt cl cl1 e es out Hstep), fmap_app, list_to_set_app_L.
    rewrite (ackedIDs_cons rt e es). rewrite Hset in IH1, IH2.
    clear -IH1 IH2. set_solver. }
  split; [done|]. split; [done|]. intros Hne Hin.
  apply Hup in Hin. apply elem_of_union in Hin as [Hin|Hin]; [done|].
  by apply ackedIDs_nonempty in Hin.
Qed.

End ClientRuns.

(** ** What a poll entry becomes *)

Section Entries.
Import controllers.
Context (rt : runtime).

Lemma rangeAuthor_username (raw : list (string * RawMessage rt)) (msg : pollMessage rt) :
  knownPollKeys (Username msg) = false →
  knownPollKeys (Username (rangeAuthor rt raw msg)) = false.
Proof.
  intros Hmsg. induction raw as [|[k v] raw IH]; [done|]. simpl.
  by destruct (knownPollKeys k) eqn:Hk.
Qed.

Lemma parseEntry_username (raw : list (string * RawMessage rt)) :
  knownPollKeys (Username (parseEntry rt raw)) = false.
Proof.
  unfold parseEntry. apply rangeAuthor_username.
  by destruct (lookupRaw rt raw "timestamp"), (lookupRaw rt raw "id"),
    (lookupRaw rt raw "color").
Qed.

(** A message that [poll] returns is complete, and its author is not one
    of the reserved keys. *)
Lemma batch_complete (o : httpOutcome) (m : pollMessage rt) :
  m ∈ batch rt o →
  malformed rt m = false ∧ knownPollKeys (Username m) = false.
Proof.
  intros Hm. split; [by eapply batch_wellformed|]. revert Hm.
  unfold batch. destruct o as [| |code [body|]]; try by intros ?%elem_of_nil.
  case_decide; [|by intros ?%elem_of_nil]. unfold parsePollMessages.
  destruct (unmarshalRawList rt body) as [rawList|]; [|by intros ?%elem_of_nil].
  simpl. rewrite parse_loop. simpl.
  intros [_ (raw & -> & _)%list_elem_of_fmap]%list_elem_of_filter.
  apply parseEntry_username.
Qed.

Lemma complete_fields (m : pollMessage rt) :
  malformed rt m = false → knownPollKeys (Username m) = false →
  Username m ≠ "" ∧ Content m ≠ "" ∧ ID m ≠ "" ∧
  Username m ≠ "color" ∧ Username m ≠ "id" ∧ Username m ≠ "timestamp".
Proof.
  unfold malformed, knownPollKeys. rewrite !orb_false_iff.
  intros [[?%bool_decide_eq_false ?%bool_decide_eq_false] ?%bool_decide_eq_false].
  intros [[?%bool_decide_eq_false ?%bool_decide_eq_false] ?%bool_decide_eq_false].
  done.
Qed.

Lemma step_complete (cl cl1 : client rt) (e : event) (out : list output) :
  (∀ rest, pc cl = Dispatching rest →
           Forall (λ m, malformed rt m = false ∧ knownPollKeys (Username m) = false)
                  rest) →
  step rt cl e = Some (cl1, out) →
  (∀ rest, pc cl1 = Dispatching rest →
           Forall (λ m, malformed rt m = false ∧ knownPollKeys (Username m) = false)
                  rest) ∧
  Forall (λ m, malformed rt m = false ∧ knownPollKeys (Username m) = false)
         (handledBy rt cl e) ∧
  ∀ u c col, Called (OnMessage u c col) ∈ out →
             ∃ m, m ∈ handledBy rt cl e ∧ u = Username m ∧ c = Content m.
Proof.
  intros Hinv Hstep. unfold handledBy.
  destruct e as [|o| | | |u0 c0 col0|i o|]; simpl in Hstep.
  - destruct (pc cl) eqn:Hpc; simplify_eq. simpl. unfold loopTop.
    split; [by destruct (stopped (nc cl))|]. split; [done|].
    intros ??? H. by apply elem_of_nil in H.
  - destruct (pc cl) eqn:Hpc; try done.
    pose proof (pollReturned_control rt (nc cl) (vars cl) o) as Hctl.
    destruct (pollReturned_effect rt (nc cl) (vars cl) o) as (_ & _ & Hstatus).
    pose proof (poll_batch rt (nc cl) o) as Hbatch.
    destruct (pollReturned rt (nc cl) (vars cl) o) as [[[c' v'] ctl] calls].
    simpl in Hctl, Hstatus. simplify_eq. simpl. split; [|split; [done|]].
    + intros rest Hrest. apply Forall_forall. intros m Hm.
      apply (batch_complete o). rewrite <- Hbatch.
      destruct (failed rt (nc cl) o); [done|].
      destruct ((poll rt (nc cl) o).2.1) as [[|m' msgs]|]; try done.
      simpl in Hrest. by simplify_eq.
    + intros u c col Hin. exfalso.
      apply list_elem_of_fmap in Hin as (call & [= <-] & Hin).
      rewrite <- Hstatus in Hin. unfold statusCalls in Hin.
      by apply list_elem_of_filter in Hin as [Hin _].
  - destruct (pc cl) as [| | |[|m rest]| |] eqn:Hpc; try done; simpl in Hstep.
    { simplify_eq. simpl. split; [done|]. split; [done|].
      intros ??? H. by apply elem_of_nil in H. }
    specialize (Hinv (m :: rest) eq_refl). apply Forall_cons in Hinv as [Hm Hrest].
    assert (∀ u c col,
              OnMessage u c col ∈ (handleIncoming rt (nc cl) m).2 →
              u = Username m ∧ c = Content m) as Hcalls.
    { intros u c col. unfold handleIncoming. case_bool_decide; simpl.
      - by intros ?%elem_of_nil.
      - destruct (onMessage (nc cl)); [|by intros ?%elem_of_nil].
        by intros [= -> -> ->]%list_elem_of_singleton. }
    destruct (handleIncoming rt (nc cl) m) as [c' calls]. simpl in *. simplify_eq.
    simpl. split; [|split; [by apply Forall_singleton|]].
    + intros rest' Hrest'. destruct rest; [done|]. by simplify_eq.
    + intros u c col Hin. apply list_elem_of_fmap in Hin as (call & [= <-] & Hin).
      exists m. split; [apply list_elem_of_here|]. by apply (Hcalls u c col).
  - destruct (pc cl) eqn:Hpc; simplify_eq; simpl;
      (split; [done|]; split; [done|]; intros ??? H; by apply elem_of_nil in H).
  - destruct (pc cl) eqn:Hpc; try done; destruct (stopCh (nc cl)); simplify_eq; simpl;
      (split; [done|]; split; [done|]; intros ??? H; by apply elem_of_nil in H).
  - simplify_eq. simpl. split; [done|]. split; [by destruct (pc cl)|].
    intros ??? H. by apply list_elem_of_singleton in H.
  - destruct (posting cl !! i); [|done].
    destruct (sendAsync_effect rt (nc cl) i o) as (_ & _ & Hstatus).
    destruct (sendAsync rt (nc cl) o) as [c' calls]. simpl in *. simplify_eq. simpl.
    split; [done|]. split; [by destruct (pc cl)|].
    intros u c col Hin. exfalso.
    apply list_elem_of_fmap in Hin as (call & [= <-] & Hin).
    rewrite <- Hstatus in Hin. unfold statusCalls in Hin.
    by apply list_elem_of_filter in Hin as [Hin _].
  - simplify_eq. simpl. split; [done|]. split; [by destruct (pc cl)|].
    intros ??? H. by apply elem_of_nil in H.
Qed.

(** X16: Whatever the relay answers and however the goroutines interleave,
    [onMessage] is never called with an empty author or an empty body, nor
    with [color], [id] or [timestamp] as the author; and every entry handed
    to [handleIncoming] has an id. *)
Theorem delivered_messages_are_complete (c0 : NetworkClient) (es : list event)
    (cl : client rt) (outs : list (list output)) :
  run rt (Start rt c0) es = Some (cl, outs) →
  (∀ u c col, Called (OnMessage u c col) ∈ concat outs →
              u ≠ "" ∧ c ≠ "" ∧ u ≠ "color" ∧ u ≠ "id" ∧ u ≠ "timestamp") ∧
  Forall (λ m, ID m ≠ "") (handled rt (Start rt c0) es).
Proof.
  assert (∀ cl0 : client rt,
    (∀ rest, pc cl0 = Dispatching rest →
             Forall (λ m, malformed rt m = false ∧ knownPollKeys (Username m) = false)
                    rest) →
    run rt cl0 es = Some (cl, outs) →
    (∀ u c col, Called (OnMessage u c col) ∈ concat outs →
                u ≠ "" ∧ c ≠ "" ∧ u ≠ "color" ∧ u ≠ "id" ∧ u ≠ "timestamp") ∧
    Forall (λ m, ID m ≠ "") (handled rt cl0 es)) as Hrun.
  { revert outs. induction es as [|e es IH]; intros outs cl0 Hinv Hrun.
    { simpl in *. simplify_eq. split; [|done]. intros ??? H. by apply elem_of_nil in H. }
    simpl in Hrun. destruct (step rt cl0 e) as [[cl1 out]|] eqn:Hstep; [|done].
    destruct (run rt cl1 es) as [[cl2 outs']|] eqn:Hrun'; [|done]. simplify_eq.
    destruct (step_complete cl0 cl1 e out Hinv Hstep) as (Hinv1 & Hh & Hout).
    destruct (IH outs' cl1 Hinv1 Hrun') as [IH1 IH2]. split.
    - intros u c col Hin. simpl in Hin. apply elem_of_app in Hin as [Hin|Hin].
      + destruct (Hout u c col Hin) as (m & Hm & -> & ->).
        rewrite Forall_forall in Hh. destruct (Hh m Hm) as [H1 H2].
        destruct (complete_fields m H1 H2) as (? & ? & ? & ? & ? & ?). done.
      + by eapply IH1.
    - rewrite (handled_cons rt cl0 cl1 e es out Hstep). apply Forall_app. split; [|done].
      eapply Forall_impl; [exact Hh|]. intros m [H1 H2].
      by destruct (complete_fields m H1 H2) as (? & ? & ? & ?). }
  intros H. by apply Hrun.
Qed.

(** *** The order in which [range] visits the keys of an entry *)

Lemma lookupRaw_Some (raw : list (string * RawMessage rt)) (k : string)
    (v : RawMessage rt) :
  NoDup raw.*1 → lookupRaw rt raw k = Some v ↔ (k, v) ∈ raw.
Proof.
  induction raw as [|[k' v'] raw IH]; simpl; intros Hnd.
  { split; [done|]. by intros ?%elem_of_nil. }
  apply NoDup_cons in Hnd as [Hk' Hnd]. rewrite elem_of_cons.
  destruct (decide (k' = k)) as [->|Hne].
  - split; [intros [= ->]; by left|]. intros [[= ->]|Hin]; [done|].
    exfalso. apply Hk'. apply list_elem_of_fmap. by exists (k, v).
  - rewrite IH by done. split; [by right|]. intros [[= ??]|?]; [congruence|done].
Qed.

Lemma lookupRaw_perm (raw1 raw2 : list (string * RawMessage rt)) (k : string) :
  NoDup raw1.*1 → raw1 ≡ₚ raw2 → lookupRaw rt raw1 k = lookupRaw rt raw2 k.
Proof.
  intros Hnd Hperm.
  assert (NoDup raw2.*1) as Hnd2 by (by rewrite <- Hperm).
  apply option_eq. intros v. rewrite !lookupRaw_Some by done. by rewrite Hperm.
Qed.

Lemma rangeAuthor_one_full (raw : list (string * RawMessage rt)) (msg : pollMessage rt)
    (author : string) :
  authorKeys rt raw = [author] →
  rangeAuthor rt raw msg
  = {| Username := author;
       Content := default (Content msg) (lookupRaw rt raw author ≫= unmarshalString rt);
       Color := Color msg; ID := ID msg; Timestamp := Timestamp msg |}.
Proof.
  induction raw as [|[k v] raw IH]; [done|]. rewrite authorKeys_cons. simpl.
  destruct (knownPollKeys k) eqn:Hk.
  - intros Hraw. rewrite (IH Hraw). rewrite decide_False; [done|]. intros ->.
    assert (author ∈ authorKeys rt raw) as Hin by (rewrite Hraw; apply list_elem_of_here).
    apply list_elem_of_filter in Hin as [Hin _]. congruence.
  - intros [= -> _]. by rewrite decide_True.
Qed.

(** X17: An entry is a Go map, and [range] visits its keys in no fixed order.
    With at most one key besides [color], [id] and [timestamp], the message
    read from the entry is the same in every order.  With two such keys, the
    author is whichever of them [range] visits first. *)
Theorem parseEntry_is_independent_of_key_order :
  (∀ raw1 raw2 : list (string * RawMessage rt),
     NoDup raw1.*1 → raw1 ≡ₚ raw2 → (length (authorKeys rt raw1) ≤ 1)%nat →
     parseEntry rt raw1 = parseEntry rt raw2) ∧
  (∀ (a b : string) (va vb : RawMessage rt) (rest : list (string * RawMessage rt)),
     knownPollKeys a = false → knownPollKeys b = false →
     Username (parseEntry rt ((a, va) :: (b, vb) :: rest)) = a ∧
     Username (parseEntry rt ((b, vb) :: (a, va) :: rest)) = b).
Proof.
  split.
  - intros raw1 raw2 Hnd Hperm Hlen. unfold parseEntry.
    rewrite !(lookupRaw_perm raw1 raw2) by done.
    set (msg := match lookupRaw rt raw2 "timestamp" with Some _ => _ | None => _ end).
    assert (authorKeys rt raw1 ≡ₚ authorKeys rt raw2) as Hkeys.
    { unfold authorKeys. by rewrite Hperm. }
    destruct (authorKeys rt raw1) as [|author [|]] eqn:H1; simpl in Hlen; [| |lia].
    + apply Permutation_nil_l in Hkeys. by rewrite !rangeAuthor_none.
    + apply Permutation_singleton_l in Hkeys.
      rewrite !(rangeAuthor_one_full _ _ author) by done.
      by rewrite (lookupRaw_perm raw1 raw2).
  - intros a b va vb rest Ha Hb. unfold parseEntry. simpl. by rewrite Ha, Hb.
Qed.

End Entries.

(** ** Instances of the further properties *)

(** X5, an instance: Two sends back, and forth again. *)
Lemma two_lefts_two_rights :
  let c := {| input.nickActive := true; input.sentHistory := ["a"; "b"; "c"];
              input.historyIdx := -1; input.fieldText := "" |} in
  (∃ text, input.sentHistory c !! 1%nat = Some text ∧
           input.run (λ _, false) c (replicate 2 (input.EvKey input.KeyLeft))
           = Some (input.browse 1 text c)) ∧
  input.run (λ _, false) c
    (replicate 2 (input.EvKey input.KeyLeft)
       ++ replicate 2 (input.EvKey input.KeyRight)) = Some c.
Proof.
  intros c.
  exact (arrow_keys_walk_the_history (λ _, false) c 2 eq_refl eq_refl eq_refl
           ltac:(simpl; lia) ltac:(simpl; lia)).
Defined.

(** X8, an instance: A login with the name [bob] and the color [cyan]. *)
Lemma bob_logs_in_cyan :
  let es := [login.EvStart; login.EvEnter "bob"; login.EvEnter "cyan";
             login.EvEnter ""] in
  login.Submitted "bob" "[cyan]" ∈ (login.run id id login.NewLoginView es).2 ∧
  views.safeColorTag "[cyan]" = "[cyan]".
Proof.
  intros es.
  assert (login.Submitted "bob" "[cyan]"
          ∈ (login.run id id login.NewLoginView es).2) as H.
  { vm_compute. repeat constructor. }
  split; [done|].
  exact (proj1 (proj2 (proj2
           (login_submits_a_name_and_a_palette_color id id es "bob" "[cyan]" H)))).
Defined.

(** X9, an instance: An animation of two words after a system line. *)
Lemma hello_world_animated :
  let us := [views.UAddMessage
               {| views.IsSystem := true; views.Username := "";
                  views.Content := "Connected"; views.Color := "";
                  views.FormattedTime := "10:48" |};
             views.UAnimInit "old"] in
  let s := views.run views.start us in
  let ticks := (λ t, views.UWordTick (length (views.handedOut s)) "pfx " t.1 t.2)
                 <$> views.animTicks ["hello"; "world"] in
  views.messageView (views.view (views.run s (views.UAnimInit "pfx " :: ticks)))
  = views.messageView
      (views.view (views.step s (views.UStaticDraw "pfx " "hello world"))).
Proof.
  intros us s ticks.
  assert (Z.of_nat (views.allocations us) < Go.maxInt) as H1 by (by vm_compute).
  assert (views.stopped (views.view s) = false) as H2 by reflexivity.
  assert (["hello"; "world"] ≠ []) as H3 by done.
  exact (proj2 (proj2 (proj2 (proj2
           (animation_ends_as_the_static_line us "pfx " ["hello"; "world"]
              H1 H2 H3))))).
Defined.

(** X10, an instance: A tick that arrives after a bulk replace. *)
Lemma tick_after_bulk_replace :
  let s := views.run views.start [views.UAnimInit "p"] in
  views.inFlight
    (views.view (views.run s [views.USetMessages [];
                              views.UWordTick 0 "p" "hi" false]))
  = {[ 0 := "p" +:+ views.sanitizeContent "hi" +:+ " [dim]▋[-]" ]}.
Proof.
  intros s.
  exact (proj1 (proj2
           (SetMessages_keeps_animations_running s 0
              {| views.id := 0; views.gen := 0 |} [] "p" "hi"
              eq_refl ltac:(simpl; lia) eq_refl eq_refl))).
Defined.

(** X11, an instance: A stopped view and three queued closures. *)
Lemma closures_after_Stop :
  let s := views.step views.start views.UStop in
  let us := [views.UStaticDraw "p" "late"; views.UAnimInit "p";
             views.UWordTick 0 "p" "late" true] in
  views.view (views.run s us) = views.view s.
Proof.
  intros s us.
  assert (Forall (λ u, match u with
                       | views.UAddMessage _ | views.UClearMessages
                       | views.USetAnimationMode _ => False
                       | _ => True
                       end) us) as H by (by repeat constructor).
  exact (proj1 (proj1 (proj2
           (stopped_view_ignores_queued_updates s us eq_refl)) H)).
Defined.

(** X13, an instance: [Stop] while a poll is in flight: that poll returns, no other does. *)
Lemma Stop_during_a_poll :
  let cl := {| controllers.nc :=
                 controllers.Stop
                   (controllers.NewNetworkClient "http://relay" "client_1" true true);
               controllers.vars := controllers.initVars;
               controllers.pc := controllers.InPoll;
               controllers.posting := [] |} : controllers.client json.runtime in
  let es := [controllers.EvOnSendMessage "bob" "hi" "[red]";
             controllers.EvPollReturns (controllers.Response 204 None);
             controllers.EvStopCh] in
  ∃ cl' outs,
    controllers.run json.runtime cl es = Some (cl', outs) ∧
    controllers.stopped (controllers.nc cl') = true ∧
    (length (controllers.posting cl') ≤ length (controllers.posting cl))%nat.
Proof.
  intros cl es.
  assert (snd <$> controllers.run json.runtime cl es ≠ None) as Hsome
    by (by vm_compute).
  destruct (controllers.run json.runtime cl es) as [[cl' outs]|] eqn:Hrun; [|done].
  exists cl', outs. split; [done|].
  pose proof (after_Stop_no_poll_and_no_send_starts json.runtime cl cl' es outs
                eq_refl Hrun) as (H1 & _ & H3 & _).
  exact (conj H1 H3).
Defined.

(** X14, an instance: A 200 response with one entry that has no author. *)
Lemma array_without_messages :
  let cl := {| controllers.nc :=
                 controllers.NewNetworkClient "http://relay" "client_1" true true;
               controllers.vars := controllers.initVars;
               controllers.pc := controllers.InPoll;
               controllers.posting := [] |} : controllers.client json.runtime in
  let body := json.text "[{'id':'m2'}]" in
  ∃ cl' outs,
    controllers.run json.runtime cl
      [controllers.EvPollReturns (controllers.Response 200 (Some body));
       controllers.EvLoopTop] = Some (cl', outs) ∧
    controllers.pc cl' = controllers.InPoll.
Proof.
  intros cl body.
  assert (controllers.unmarshalRawList json.runtime body
          = Some [[("id", json.Str "m2")]]) as Hbody by reflexivity.
  assert (Forall (λ raw, controllers.malformed json.runtime
                           (controllers.parseEntry json.runtime raw) = true)
                 [[("id", json.Str "m2")]]) as Hbad by (by repeat constructor).
  destruct (proj1 (empty_batch_is_polled_again_at_once json.runtime cl body
                     [[("id", json.Str "m2")]] eq_refl eq_refl Hbody Hbad))
    as (cl' & outs & Hrun & Hpc & _).
  by exists cl', outs.
Defined.

(** X15, an instance: A send that is acknowledged and never echoed. *)
Lemma acknowledged_and_never_echoed :
  let cl := controllers.Start json.runtime
              (controllers.NewNetworkClient "http://relay" "client_1" true true) in
  let es := [controllers.EvOnSendMessage "bob" "hi" "[red]";
             controllers.EvPostReturns 0
               (controllers.PostResponse 201
                  (json.text "{'status':'ok','id':'m1','time':'12:00'}"))] in
  ∃ cl' outs,
    controllers.run json.runtime cl es = Some (cl', outs) ∧
    controllers.sentIDs (controllers.nc cl')
      ⊆ controllers.sentIDs (controllers.nc cl) ∪ controllers.ackedIDs json.runtime es.
Proof.
  intros cl es.
  assert (snd <$> controllers.run json.runtime cl es ≠ None) as Hsome
    by (by vm_compute).
  destruct (controllers.run json.runtime cl es) as [[cl' outs]|] eqn:Hrun; [|done].
  exists cl', outs. split; [done|].
  exact (proj1 (sentIDs_holds_acknowledged_ids json.runtime cl cl' es outs Hrun)).
Defined.

(** X16, an instance: A batch with a message of [alice]. *)
Lemma alice_is_delivered_complete :
  let c0 := controllers.NewNetworkClient "http://relay" "client_1" true true in
  let es := [controllers.EvLoopTop;
             controllers.EvPollReturns
               (controllers.Response 200
                  (Some (json.text "[{'alice':'hi','id':'m1','color':'[green]'}]")));
             controllers.EvHandleIncoming] in
  ∃ cl outs,
    controllers.run json.runtime (controllers.Start json.runtime c0) es
      = Some (cl, outs) ∧
    Forall (λ m, controllers.ID m ≠ "")
           (controllers.handled json.runtime (controllers.Start json.runtime c0) es).
Proof.
  intros c0 es.
  assert (snd <$> controllers.run json.runtime (controllers.Start json.runtime c0) es
          ≠ None) as Hsome by (by vm_compute).
  destruct (controllers.run json.runtime (controllers.Start json.runtime c0) es)
    as [[cl outs]|] eqn:Hrun; [|done].
  exists cl, outs. split; [done|].
  exact (proj2 (delivered_messages_are_complete json.runtime c0 es cl outs Hrun)).
Defined.
